(** * PyXtal [operations.py]: periodic geometry and symmetry classification

    A shallow embedding of [pyxtal/operations.py].  Python floats are
    idealised as real numbers ([R]); numpy arrays of shape (3,), (3,3) and
    (n,3) are records and lists; Python exceptions and [None] are explicit
    constructors of the result types.  Where rounding decides what the
    program answers, the module [F64] evaluates the same functions on
    IEEE binary64 numbers. *)

From Stdlib Require Import Floats.
From Stdlib Require Import String.
From Stdlib Require Import Reals Lra Lia ZArith List Bool RNsatz Machin.
Import ListNotations.
Open Scope R_scope.
Set Warnings "-inexact-float".

(** ** Numeric primitives of numpy *)

Module Np.

(** [a <= b] and [a < b] as Python booleans. *)
Definition leb (a b : R) : bool := if Rle_dec a b then true else false.
Definition ltb (a b : R) : bool := if Rlt_dec a b then true else false.
Definition eqb (a b : R) : bool := if Req_dec_T a b then true else false.

(** [np.floor]. *)
Definition floor (x : R) : R := IZR (Zfloor x).

(** [np.round] rounds to the nearest integer, halves to the even one. *)
Definition round_half_even (x : R) : Z :=
  let f := Zfloor x in
  let r := x - IZR f in
  if Rlt_dec r (1 / 2) then f
  else if Rlt_dec (1 / 2) r then (f + 1)%Z
  else if Z.even f then f else (f + 1)%Z.

Definition round (x : R) : R := IZR (round_half_even x).

(** [np.isclose(a, b, rtol, atol)]: [|a - b| <= atol + rtol * |b|]. *)
Definition isclose (a b rtol atol : R) : bool :=
  leb (Rabs (a - b)) (atol + rtol * Rabs b).

Definition default_rtol : R := 1 / 100000.
Definition default_atol : R := 1 / 100000000.

(** [np.min] over a flattened array; numpy raises on an empty array, which
    no caller below can produce, the model answers [0] there. *)
Definition min (l : list R) : R :=
  match l with
  | [] => 0
  | x :: xs => fold_left Rmin xs x
  end.

End Np.

(** ** Constants of [pyxtal.constants] *)

(** Modelled from the spec: the constant [pi] imported from
    [pyxtal.constants], which is not part of the analysed file; the spec
    writes the turn as [2π]. *)
Definition pi : R := PI.

(** ** [OperationAnalyzer.get_order] *)

(** An order is an integer or the string ["irrational"]. *)
Inductive Order : Type :=
| Finite (n : Z)
| Irrational.

(** [range(a, b)] *)
Definition range (a b : Z) : list Z :=
  map (fun k => (a + Z.of_nat k)%Z) (seq 0 (Z.to_nat (b - a))).

(** The quantity [x = (n*angle) / (2.*pi)] of the loop body. *)
Definition turns (n : Z) (angle : R) : R := (IZR n * angle) / (2 * pi).

(** The test [abs(y) <= tol] with [y = x - np.round(x)]. *)
Definition order_test (n : Z) (angle tol : R) : bool :=
  let x := turns n angle in
  let y := x - Np.round x in
  Np.leb (Rabs y) tol.

(** The [for n in range(1, 61)] loop with its [break]: the value of [n] at
    the break, or [None] when [found] stays [False]. *)
Fixpoint order_loop (angle tol : R) (ns : list Z) : option Z :=
  match ns with
  | [] => None
  | n :: rest =>
      if order_test n angle tol then Some n else order_loop angle tol rest
  end.

Definition get_order (angle : R) (rotoinversion : bool) (tol : R) : Order :=
  match order_loop angle tol (range 1 61) with
  | Some n =>
      if rotoinversion then
        if (n mod 2 =? 1)%Z then Finite (n * 2) else Finite n
      else Finite n
  | None => Irrational
  end.

(** Default tolerance [tol=1e-2]. *)
Definition get_order_tol : R := 1 / 100.

(** The spec's wording: [x] is within [tol] of an integer. *)
Definition within_tol_of_integer (x tol : R) : Prop :=
  exists k : Z, Rabs (x - IZR k) <= tol.

(** ** Vectors, matrices and points *)

(** A numpy array of shape (3,). *)
Record Vec3 : Type := mkVec { vx : R; vy : R; vz : R }.

(** A numpy array of shape (3,3), by rows. *)
Record Mat3 : Type := mkMat { row0 : Vec3; row1 : Vec3; row2 : Vec3 }.

Definition vzero : Vec3 := mkVec 0 0 0.
Definition vadd (a b : Vec3) : Vec3 := mkVec (vx a + vx b) (vy a + vy b) (vz a + vz b).
Definition vsub (a b : Vec3) : Vec3 := mkVec (vx a - vx b) (vy a - vy b) (vz a - vz b).
Definition vscale (c : R) (a : Vec3) : Vec3 := mkVec (c * vx a) (c * vy a) (c * vz a).
Definition vneg (a : Vec3) : Vec3 := mkVec (- vx a) (- vy a) (- vz a).
Definition vdot (a b : Vec3) : R := vx a * vx b + vy a * vy b + vz a * vz b.
Definition vnorm (a : Vec3) : R := sqrt (vdot a a).

Definition eye3 : Mat3 := mkMat (mkVec 1 0 0) (mkVec 0 1 0) (mkVec 0 0 1).
Definition col0 (m : Mat3) : Vec3 := mkVec (vx (row0 m)) (vx (row1 m)) (vx (row2 m)).
Definition col1 (m : Mat3) : Vec3 := mkVec (vy (row0 m)) (vy (row1 m)) (vy (row2 m)).
Definition col2 (m : Mat3) : Vec3 := mkVec (vz (row0 m)) (vz (row1 m)) (vz (row2 m)).
Definition transpose (m : Mat3) : Mat3 := mkMat (col0 m) (col1 m) (col2 m).
Definition mscale (c : R) (m : Mat3) : Mat3 :=
  mkMat (vscale c (row0 m)) (vscale c (row1 m)) (vscale c (row2 m)).

(** [np.dot(v, m)] for a vector and a matrix: the row vector times [m]. *)
Definition dot_vm (v : Vec3) (m : Mat3) : Vec3 :=
  vadd (vadd (vscale (vx v) (row0 m)) (vscale (vy v) (row1 m))) (vscale (vz v) (row2 m)).

(** [np.dot(a, b)] for two matrices. *)
Definition dot_mm (a b : Mat3) : Mat3 :=
  mkMat (dot_vm (row0 a) b) (dot_vm (row1 a) b) (dot_vm (row2 a) b).

(** [np.linalg.det] *)
Definition det (m : Mat3) : R :=
  let a := row0 m in let b := row1 m in let c := row2 m in
  vx a * (vy b * vz c - vz b * vy c)
  - vy a * (vx b * vz c - vz b * vx c)
  + vz a * (vx b * vy c - vy b * vx c).

Definition vec_eqb (a b : Vec3) : bool :=
  Np.eqb (vx a) (vx b) && Np.eqb (vy a) (vy b) && Np.eqb (vz a) (vz b).

(** [(np.array(a) == b).all()] *)
Definition mat_eqb (a b : Mat3) : bool :=
  vec_eqb (row0 a) (row0 b) && vec_eqb (row1 a) (row1 b) && vec_eqb (row2 a) (row2 b).

Definition vec_to_list (a : Vec3) : list R := [vx a; vy a; vz a].
Definition mat_to_list (m : Mat3) : list R :=
  vec_to_list (row0 m) ++ vec_to_list (row1 m) ++ vec_to_list (row2 m).

(** [np.allclose(a, b, rtol=rtol)] with the default [atol]. *)
Definition allclose (a b : Mat3) (rtol atol : R) : bool :=
  forallb (fun p => Np.isclose (fst p) (snd p) rtol atol)
          (combine (mat_to_list a) (mat_to_list b)).

(** [scipy.spatial.distance.cdist(XA, XB, 'euclidean')], the default metric
    of every caller. *)
Definition cdist (XA XB : list Vec3) : list (list R) :=
  map (fun a => map (fun b => vnorm (vsub a b)) XB) XA.

(** ** Periodic boundary conditions *)

(** The list [PBC] of three flags, 1 periodic and 0 not. *)
Record PBC : Type := mkPBC { pbc0 : bool; pbc1 : bool; pbc2 : bool }.

(** [PBC != [0,0,0]] *)
Definition pbc_nonzero (P : PBC) : bool := pbc0 P || pbc1 P || pbc2 P.

(** A flag as the number it multiplies with in [np.multiply(f, PBC)]. *)
Definition flag (b : bool) : R := if b then 1 else 0.

(** ** [create_matrix] *)

(** [i_list], [j_list] and [k_list]: [[-1, 0, 1]], replaced by [[0]] for an
    axis that is not periodic. *)
Definition offsets (periodic : bool) : list R := if periodic then [-1; 0; 1] else [0].

Definition create_matrix (P : PBC) : list Vec3 :=
  flat_map (fun i =>
    flat_map (fun j =>
      map (fun k => mkVec i j k) (offsets (pbc2 P)))
      (offsets (pbc1 P)))
    (offsets (pbc0 P)).

(** ** [filtered_coords] *)

(** The inner [filter_vector]: [vector - np.multiply(np.floor(vector), PBC)]. *)
Definition filter_vector (P : PBC) (vector : Vec3) : Vec3 :=
  mkVec (vx vector - Np.floor (vx vector) * flag (pbc0 P))
        (vy vector - Np.floor (vy vector) * flag (pbc1 P))
        (vz vector - Np.floor (vz vector) * flag (pbc2 P)).

(** [filtered_coords] on a single point and on an array of points
    ([np.apply_along_axis] over the last axis). *)
Definition filtered_coords (coords : Vec3) (P : PBC) : Vec3 := filter_vector P coords.
Definition filtered_coords_array (coords : list Vec3) (P : PBC) : list Vec3 :=
  map (filter_vector P) coords.

(** ** [distance] *)

Definition distance (xyz : Vec3) (lattice : Mat3) (P : PBC) : R :=
  let xyz := filtered_coords xyz P in
  let matrix := create_matrix P in
  let matrix := map (fun v => vadd v xyz) matrix in
  let matrix := map (fun v => dot_vm v lattice) matrix in
  Np.min (concat (cdist matrix [vzero])).

(** ** [distance_matrix] *)

(** [np.apply_along_axis(np.min, 0, all_distances)] for a stack of
    [n1 x n2] matrices: cell [(i, j)] is the least of the cells [(i, j)]. *)
Definition cell (d : list (list R)) (i j : nat) : R := nth j (nth i d []) 0.

Definition min_along_axis0 (n1 n2 : nat) (all_distances : list (list (list R)))
  : list (list R) :=
  map (fun i => map (fun j => Np.min (map (fun d => cell d i j) all_distances))
                    (seq 0 n2))
      (seq 0 n1).

(** The lattice is an optional argument; the identity matrix is turned into
    [None] first. *)
Definition distance_matrix (points1 points2 : list Vec3) (lattice : option Mat3)
  (P : PBC) : list (list R) :=
  let lattice :=
    match lattice with
    | Some L => if mat_eqb L eye3 then None else Some L
    | None => None
    end in
  match lattice with
  | Some L =>
      if pbc_nonzero P then
        let l1 := filtered_coords_array points1 P in
        let l2 := filtered_coords_array points2 P in
        let l2 := map (fun p => dot_vm p L) l2 in
        let matrix := create_matrix P in
        let m1 := map (fun v => map (fun p => vadd p v) l1) matrix in
        let m1 := map (map (fun p => dot_vm p L)) m1 in
        let all_distances := map (fun l => cdist l l2) m1 in
        min_along_axis0 (length points1) (length points2) all_distances
      else
        let l1 := map (fun p => dot_vm p L) points1 in
        let l2 := map (fun p => dot_vm p L) points2 in
        cdist l1 l2
  | None =>
      if pbc_nonzero P then
        let l1 := filtered_coords_array points1 P in
        let l2 := filtered_coords_array points2 P in
        let matrix := create_matrix P in
        let m1 := map (fun v => map (fun p => vadd p v) l1) matrix in
        let all_distances := map (fun l => cdist l l2) m1 in
        min_along_axis0 (length points1) (length points2) all_distances
      else cdist points1 points2
  end.

(** ** The nearest periodic image, in the spec's words *)

(** The periodic images of a fractional displacement: any integers may be
    added along the periodic axes. *)
Definition periodic_image (xyz : Vec3) (P : PBC) (n0 n1 n2 : Z) : Vec3 :=
  mkVec (vx xyz + IZR n0 * flag (pbc0 P))
        (vy xyz + IZR n1 * flag (pbc1 P))
        (vz xyz + IZR n2 * flag (pbc2 P)).

(** [r] is the Cartesian norm of the nearest periodic image of [xyz]. *)
Definition nearest_image_norm (xyz : Vec3) (L : Mat3) (P : PBC) (r : R) : Prop :=
  (exists n0 n1 n2, r = vnorm (dot_vm (periodic_image xyz P n0 n1 n2) L))
  /\ forall n0 n1 n2, r <= vnorm (dot_vm (periodic_image xyz P n0 n1 n2) L).

(** A sheared cell and a displacement in it, with full periodicity. *)
Definition sheared_lattice : Mat3 := mkMat (mkVec 1 0 0) (mkVec 5 1 0) (mkVec 0 0 1).
Definition sheared_disp : Vec3 := mkVec (1 / 2) (1 / 2) 0.
Definition full_pbc : PBC := mkPBC true true true.
Definition no_pbc : PBC := mkPBC false false false.

(** Two points used to exercise [distance_matrix]. *)
Definition sample_points1 : list Vec3 := [mkVec 0 0 0].
Definition sample_points2 : list Vec3 := [mkVec (1 / 2) 0 0].

(** The Cartesian map of a branch: [np.dot(p, lattice)], or nothing when the
    lattice is [None]. *)
Definition cart (lattice : option Mat3) (p : Vec3) : Vec3 :=
  match lattice with Some L => dot_vm p L | None => p end.

(** The lattice after the identity test at the head of [distance_matrix]. *)
Definition effective_lattice (lattice : option Mat3) : option Mat3 :=
  match lattice with
  | Some L => if mat_eqb L eye3 then None else Some L
  | None => None
  end.

(** ** [find_short_dist] *)

(** An entry [[index1, index2, distance]] of [pairs]. *)
Definition Pair : Type := (nat * nat * R)%type.
Definition pair_i (p : Pair) : nat := fst (fst p).
Definition pair_j (p : Pair) : nat := snd (fst p).
Definition pair_dist (p : Pair) : R := snd p.

Definition enumerate {A} (l : list A) : list (nat * A) := combine (seq 0 (length l)) l.

(** The boolean array [d <= tol]. *)
Definition np_le (d : list (list R)) (tol : R) : list (list bool) :=
  map (map (fun x => Np.leb x tol)) d.

(** [np.where(mask)] for a 2-d boolean array: the row indices and the column
    indices of the true cells, in row-major order. *)
Definition np_where (mask : list (list bool)) : list nat * list nat :=
  let hits :=
    flat_map (fun ir =>
      map (fun jb => (fst ir, fst jb)) (filter (fun jb => snd jb) (enumerate (snd ir))))
      (enumerate mask) in
  (map fst hits, map snd hits).

(** [np.unique] of an array of indices: its distinct values, ascending. *)
Definition np_unique (l : list nat) : list nat :=
  filter (fun i => existsb (Nat.eqb i) l) (seq 0 (S (list_max l))).

(** The loop [for i in np.unique(ijs[0])]: [j] is read from the column array
    at POSITION [i]; [None] stands for an [IndexError]. *)
Fixpoint pairs_loop (d : list (list R)) (cols : list nat) (rows : list nat)
  (pairs : list Pair) : option (list Pair) :=
  match rows with
  | [] => Some pairs
  | i :: rest =>
      match nth_error cols i with
      | None => None
      | Some j =>
          if (j <=? i)%nat then pairs_loop d cols rest pairs
          else pairs_loop d cols rest (pairs ++ [(i, j, cell d i j)])
      end
  end.

(** [graph[i].append(x)]; [None] stands for an [IndexError]. *)
Definition graph_append (graph : list (list nat)) (i x : nat) : option (list (list nat)) :=
  match nth_error graph i with
  | None => None
  | Some row => Some (firstn i graph ++ (row ++ [x]) :: skipn (S i) graph)
  end.

(** The loop [for pair in pairs] that fills the graph. *)
Fixpoint graph_loop (pairs : list Pair) (graph : list (list nat))
  : option (list (list nat)) :=
  match pairs with
  | [] => Some graph
  | pr :: rest =>
      match graph_append graph (pair_i pr) (pair_j pr) with
      | None => None
      | Some g1 =>
          match graph_append g1 (pair_j pr) (pair_i pr) with
          | None => None
          | Some g2 => graph_loop rest g2
          end
      end
  end.

(** [find_short_dist] on a list of points that is not empty; [None] stands
    for an [IndexError]. *)
Definition find_short_dist_from (coor : list Vec3) (lattice : option Mat3) (tol : R)
  (P : PBC) : option (list Pair * list (list nat)) :=
  let graph := map (fun _ => @nil nat) (seq 0 (length coor)) in
  let d := distance_matrix coor coor lattice P in
  let ijs := np_where (np_le d tol) in
  match pairs_loop d (snd ijs) (np_unique (fst ijs)) [] with
  | None => None
  | Some pairs =>
      if (0 <? length pairs)%nat then
        let d_min := Np.min (map pair_dist pairs) + 1 / 1000 in
        let pairs := filter (fun p => Np.leb (pair_dist p) d_min) pairs in
        match graph_loop pairs graph with
        | None => None
        | Some graph => Some (pairs, graph)
        end
      else Some (pairs, graph)
  end.

(** [find_short_dist]: on an empty list of points [distance_matrix] raises
    a [ValueError] ([None]). *)
Definition find_short_dist (coor : list Vec3) (lattice : option Mat3) (tol : R) (P : PBC)
  : option (list Pair * list (list nat)) :=
  match coor with
  | [] => None
  | _ :: _ => find_short_dist_from coor lattice tol P
  end.

(** The spec's selection: every index pair [(i, j)] with [i < j] whose
    distance is at most [tol], in row-major order. *)
Definition close_pairs (d : list (list R)) (n : nat) (tol : R) : list Pair :=
  flat_map (fun i =>
    flat_map (fun j =>
      if (i <? j)%nat && Np.leb (cell d i j) tol then [(i, j, cell d i j)] else [])
      (seq 0 n))
    (seq 0 n).

(** Three colinear points at separations 0.1, 0.1 and 0.2. *)
Definition colinear_points : list Vec3 :=
  [mkVec 0 0 0; mkVec (1 / 10) 0 0; mkVec (2 / 10) 0 0].

(** ** Python exceptions *)

Inductive Exn : Type :=
| NameError (name : String.string)
| AttributeError (attr : String.string)
| IndexError
| TypeError.

(** The outcome of a call: a returned value or a raised exception. *)
Inductive Result (A : Type) : Type :=
| Ok (a : A)
| Raise (e : Exn).
Arguments Ok {A} a.
Arguments Raise {A} e.

Definition bind {A B} (r : Result A) (k : A -> Result B) : Result B :=
  match r with
  | Ok a => k a
  | Raise e => Raise e
  end.

Notation "x <- r ;; k" := (bind r (fun x => k))
  (at level 61, r at next level, right associativity).

(** [l[i]] for a Python list. *)
Definition index {A} (l : list A) (i : nat) : Result A :=
  match nth_error l i with
  | Some a => Ok a
  | None => Raise IndexError
  end.

(** ** [verify_distances] *)

Definition Species : Type := String.string.

(** The global names of the module that [verify_distances] reads.
    [Element] is a class of another module; an instance carries a
    [covalent_radius].  A name is bound ([Some]) or not ([None]). *)
Record Globals : Type := mkGlobals { g_Element : option (Species -> R) }.

(** The import statements of [operations.py] bind [np], [deepcopy], [warn],
    [cdist], [Rotation], [SymmOp], [Tol_matrix], [pi], [rad], [deg] and
    [pyxtal_verbosity]; no statement of the module binds [Element]. *)
Definition module_globals : Globals := mkGlobals None.

(** Reading the global name [Element]. *)
Definition lookup_Element (G : Globals) : Result (Species -> R) :=
  match g_Element G with
  | Some radius => Ok radius
  | None => Raise (NameError "Element"%string)
  end.

(** The body of the inner loop for one [j, c2]; [Some b] when the function
    returns [b] there, [None] when the loop goes on. *)
Definition verify_pair (G : Globals) (species : list Species) (lattice : Mat3)
  (factor : R) (P : PBC) (i : nat) (c1 : Vec3) (specie1 : Species)
  (j : nat) (c2 : Vec3) : Result (option bool) :=
  if (i <? j)%nat then
    specie2 <- index species j ;;
    let diff := vsub c2 c1 in
    let d_min := distance diff lattice P in
    Element <- lookup_Element G ;;
    let rad := Element specie1 + Element specie2 in
    let tol := factor * (1 / 2) * rad in
    if Np.ltb d_min tol then Ok (Some false) else Ok None
  else Ok None.

(** [for j, c2 in enumerate(coordinates)] *)
Fixpoint verify_inner (G : Globals) (species : list Species) (lattice : Mat3)
  (factor : R) (P : PBC) (i : nat) (c1 : Vec3) (specie1 : Species)
  (js : list (nat * Vec3)) : Result (option bool) :=
  match js with
  | [] => Ok None
  | (j, c2) :: rest =>
      r <- verify_pair G species lattice factor P i c1 specie1 j c2 ;;
      match r with
      | Some b => Ok (Some b)
      | None => verify_inner G species lattice factor P i c1 specie1 rest
      end
  end.

(** [for i, c1 in enumerate(coordinates)] *)
Fixpoint verify_outer (G : Globals) (coordinates : list Vec3) (species : list Species)
  (lattice : Mat3) (factor : R) (P : PBC) (ics : list (nat * Vec3)) : Result (option bool) :=
  match ics with
  | [] => Ok None
  | (i, c1) :: rest =>
      specie1 <- index species i ;;
      r <- verify_inner G species lattice factor P i c1 specie1 (enumerate coordinates) ;;
      match r with
      | Some b => Ok (Some b)
      | None => verify_outer G coordinates species lattice factor P rest
      end
  end.

Definition verify_distances (G : Globals) (coordinates : list Vec3)
  (species : list Species) (lattice : Mat3) (factor : R) (P : PBC) : Result bool :=
  r <- verify_outer G coordinates species lattice factor P (enumerate coordinates) ;;
  match r with
  | Some b => Ok b
  | None => Ok true
  end.

(** The tolerance of the claim for the pair [(i, j)]: [factor] times half
    the sum of the two covalent radii. *)
Definition pair_tolerance (radius : Species -> R) (species : list Species)
  (factor : R) (i j : nat) : R :=
  factor * (1 / 2) * (radius (nth i species ""%string) + radius (nth j species ""%string)).

(** The pair [(i, j)] is too close. *)
Definition violates (radius : Species -> R) (coordinates : list Vec3)
  (species : list Species) (lattice : Mat3) (factor : R) (P : PBC) (i j : nat) : Prop :=
  distance (vsub (nth j coordinates vzero) (nth i coordinates vzero)) lattice P
  < pair_tolerance radius species factor i j.

(** Two carbon atoms. *)
Definition two_atoms : list Vec3 := [mkVec 0 0 0; mkVec (1 / 2) (1 / 2) (1 / 2)].
Definition two_carbons : list Species := ["C"%string; "C"%string].

(** The test of the claim on one pair, as a boolean. *)
Definition violates_b (radius : Species -> R) (coordinates : list Vec3)
  (species : list Species) (lattice : Mat3) (factor : R) (P : PBC) (ij : nat * nat) : bool :=
  Np.ltb (distance (vsub (nth (snd ij) coordinates vzero) (nth (fst ij) coordinates vzero))
                   lattice P)
         (pair_tolerance radius species factor (fst ij) (snd ij)).

(** The upper triangle: every pair [i < j] below [n] once, row by row. *)
Definition upper_pairs (n : nat) : list (nat * nat) :=
  flat_map (fun i => map (fun j => (i, j)) (filter (fun j => (i <? j)%nat) (seq 0 n)))
           (seq 0 n).

(** ** Symmetry operations and their construction *)

(** A [pymatgen] [SymmOp]: its rotation matrix, translation vector and
    tolerance (the affine matrix holds the first two). *)
Record SymmOp : Type :=
  mkSymmOp { rotation_matrix : Mat3; translation_vector : Vec3; symm_tol : R }.

(** [SymmOp.from_rotation_and_translation(m, v)], with pymatgen's default
    tolerance. *)
Definition from_rotation_and_translation (m : Mat3) (v : Vec3) : SymmOp :=
  mkSymmOp m v (1 / 10).

Definition vdiv (a : Vec3) (c : R) : Vec3 := mkVec (vx a / c) (vy a / c) (vz a / c).

(** [aa2matrix(axis, angle)] with [radians=True] and [random=False]. *)
Definition aa2matrix (axis : Vec3) (angle : R) : Mat3 :=
  let axis := vdiv axis (vnorm axis) in
  let x := vx axis in
  let y := vy axis in
  let z := vz axis in
  let c := cos angle in
  let s := sin angle in
  let C := 1 - c in
  mkMat (mkVec (x * x * C + c) (x * y * C - z * s) (x * z * C + y * s))
        (mkVec (y * x * C + z * s) (y * y * C + c) (y * z * C - x * s))
        (mkVec (z * x * C - y * s) (z * y * C + x * s) (z * z * C + c)).

(** [is_orthogonal(m, tol)]; [np.allclose] keeps its default [atol]. *)
Definition is_orthogonal (m : Mat3) (tol : R) : bool :=
  let m1 := dot_mm m (transpose m) in
  let m2 := dot_mm (transpose m) m in
  if negb (allclose m1 eye3 tol Np.default_atol)
     || negb (allclose m2 eye3 tol Np.default_atol)
  then false else true.

Definition is_orthogonal_tol : R := 1 / 1000.

(** ** Reporting *)

(** A call [printx(text, priority)]. *)
Record Message : Type := mkMessage { msg_text : string; msg_priority : Z }.

Inductive Output : Type :=
| Warned (text : string)
| Printed (text : string).

(** [printx]: priorities up to 1 go to [warn], the others are printed when
    the verbosity [pyxtal_verbosity] (a constant of [pyxtal.constants])
    allows. *)
Definition printx (pyxtal_verbosity : Z) (msg : Message) : list Output :=
  if (msg_priority msg <=? 1)%Z then [Warned (msg_text msg)]
  else if (msg_priority msg <=? pyxtal_verbosity)%Z then [Printed (msg_text msg)]
  else [].

(** ** [OperationAnalyzer] *)

Inductive OpType : Type :=
| Identity | Rotation | Inversion | Rotoinversion | Degenerate | General.

Definition optype_eqb (a b : OpType) : bool :=
  match a, b with
  | Identity, Identity | Rotation, Rotation | Inversion, Inversion
  | Rotoinversion, Rotoinversion | Degenerate, Degenerate | General, General => true
  | _, _ => false
  end.

(** An attribute of a Python object: never assigned, assigned [None], or
    assigned a value. *)
Inductive Attr (T : Type) : Type :=
| Unset
| IsNone
| Val (t : T).
Arguments Unset {T}.
Arguments IsNone {T}.
Arguments Val {T} t.

(** The attributes an [OperationAnalyzer] object can carry. *)
Record Analyzer : Type := mkAnalyzer {
  a_op : Attr SymmOp;
  a_tol : Attr R;
  a_affine_matrix : Attr (Mat3 * Vec3);
  a_m : Attr Mat3;
  a_det : Attr R;
  a_inverted : Attr bool;
  a_type : Attr OpType;
  a_axis : Attr Vec3;
  a_angle : Attr R;
  a_order : Attr Order;
  a_rotation_order : Attr Order
}.

(** The object at the entry of [__init__]. *)
Definition fresh : Analyzer :=
  mkAnalyzer Unset Unset Unset Unset Unset Unset Unset Unset Unset Unset Unset.

(** Reading an attribute: [AttributeError] when it was never assigned. *)
Definition getattr {T} (name : string) (a : Attr T) : Result (option T) :=
  match a with
  | Unset => Raise (AttributeError name)
  | IsNone => Ok None
  | Val t => Ok (Some t)
  end.

(** Reading an attribute that an operation needs as a value. *)
Definition getval {T} (name : string) (a : Attr T) : Result T :=
  match a with
  | Unset => Raise (AttributeError name)
  | IsNone => Raise TypeError
  | Val t => Ok t
  end.

(** The argument [op] of the constructor. *)
Inductive PyArg : Type :=
| ArgSymmOp (op : SymmOp)
| ArgArray3x3 (m : Mat3)
| ArgArrayOther
| ArgOther.

Definition set_classification (self : Analyzer) (inverted : Attr bool) (type : OpType)
  (axis : Attr Vec3) (angle : Attr R) (order rotation_order : Attr Order) : Analyzer :=
  mkAnalyzer (a_op self) (a_tol self) (a_affine_matrix self) (a_m self) (a_det self)
             inverted (Val type) axis angle order rotation_order.

Definition set_axis (self : Analyzer) (axis : Attr Vec3) : Analyzer :=
  mkAnalyzer (a_op self) (a_tol self) (a_affine_matrix self) (a_m self) (a_det self)
             (a_inverted self) (a_type self) axis (a_angle self) (a_order self)
             (a_rotation_order self).

Definition init_message : Message :=
  mkMessage "Error: OperationAnalyzer requires a SymmOp or 3x3 array." 1.

Section Classifier.

(** [Rotation.from_matrix(m).as_rotvec()] of scipy, an external library. *)
Variable as_rotvec : Mat3 -> Vec3.

(** The axis and the angle read from a rotation vector. *)
Definition axis_angle (rotvec : Vec3) : Attr Vec3 * R :=
  if Np.ltb (vdot rotvec rotvec) (1 / 1000000) then (IsNone, 0)
  else
    let angle := vnorm rotvec in
    (Val (vdiv rotvec angle), angle).

(** The second half of [__init__], from [if not is_orthogonal(self.m)]. *)
Definition classify (self : Analyzer) : Result Analyzer :=
  m <- getval "m" (a_m self) ;;
  if negb (is_orthogonal m is_orthogonal_tol) then
    Ok (set_classification self (a_inverted self) General IsNone IsNone IsNone IsNone)
  else if Np.ltb 0 (det m) then
    let rotvec := as_rotvec m in
    let '(axis, angle) := axis_angle rotvec in
    if Np.isclose angle 0 Np.default_rtol Np.default_atol then
      Ok (set_classification self (Val false) Identity axis (Val angle)
            (Val (Finite 1)) (Val (Finite 1)))
    else
      let order := get_order angle false get_order_tol in
      Ok (set_classification self (Val false) Rotation axis (Val angle)
            (Val order) (Val order))
  else if Np.ltb (det m) 0 then
    let rotvec := as_rotvec (mscale (-1) m) in
    let '(axis, angle) := axis_angle rotvec in
    if Np.isclose angle 0 Np.default_rtol Np.default_atol then
      Ok (set_classification self (Val true) Inversion axis (Val angle)
            (Val (Finite 2)) (Val (Finite 1)))
    else
      match axis with
      | Val v =>
          Ok (set_classification self (Val true) Rotoinversion (Val (vscale (-1) v))
                (Val angle)
                (Val (get_order angle true get_order_tol))
                (Val (get_order angle false get_order_tol)))
      | _ => Raise TypeError
      end
  else if Np.eqb (det m) 0 then
    Ok (set_classification self (a_inverted self) Degenerate IsNone IsNone
          (a_order self) (a_rotation_order self))
  else Ok self.

(** [OperationAnalyzer.__init__]: the calls to [printx] and the outcome. *)
Definition init (op : PyArg) : list Message * Result Analyzer :=
  match op with
  | ArgSymmOp o =>
      ([], classify
             (mkAnalyzer (Val o) (Val (symm_tol o))
                (Val (rotation_matrix o, translation_vector o))
                (Val (rotation_matrix o)) (Val (det (rotation_matrix o)))
                Unset Unset Unset Unset Unset Unset))
  | ArgArray3x3 m =>
      let o := from_rotation_and_translation m vzero in
      ([], classify
             (mkAnalyzer (Val o) Unset Unset (Val (rotation_matrix o)) (Val (det m))
                Unset Unset Unset Unset Unset Unset))
  | ArgArrayOther => ([], classify fresh)
  | ArgOther => ([init_message], classify fresh)
  end.

(** [is_conjugate] answers [True], [False] or, falling off its end, [None]. *)
Inductive Answer : Type := AnsTrue | AnsFalse | AnsNone.

(** The second argument of [is_conjugate]: an [OperationAnalyzer] or
    anything the constructor is then called with. *)
Inductive ConjArg : Type :=
| ConjAnalyzer (op2 : Analyzer)
| ConjRaw (op2 : PyArg).

Definition is_rotational (t : OpType) : bool :=
  match t with Rotation | Rotoinversion => true | _ => false end.

Definition is_pointlike (t : OpType) : bool :=
  match t with Identity | Inversion => true | _ => false end.

Definition conjugate_atol : R := 1 / 100.

Definition is_conjugate (self : Analyzer) (op2 : ConjArg) : Result Answer :=
  match op2 with
  | ConjRaw raw =>
      opa2 <- snd (init raw) ;;
      type2 <- getval "type" (a_type opa2) ;;
      type1 <- getval "type" (a_type self) ;;
      if optype_eqb type2 type1 then
        if is_rotational type1 then
          angle1 <- getval "angle" (a_angle self) ;;
          angle2 <- getval "angle" (a_angle opa2) ;;
          let ratio := angle1 / angle2 in
          if Np.isclose (Rabs ratio) 1 Np.default_rtol conjugate_atol
          then Ok AnsTrue else Ok AnsNone
        else if is_pointlike type1 then Ok AnsTrue
        else Ok AnsNone
      else Ok AnsFalse
  | ConjAnalyzer op2 =>
      type2 <- getval "type" (a_type op2) ;;
      type1 <- getval "type" (a_type self) ;;
      if optype_eqb type2 type1 then
        if is_rotational type1 then
          angle1 <- getval "angle" (a_angle self) ;;
          angle2 <- getval "angle" (a_angle op2) ;;
          let ratio := angle1 / angle2 in
          if Np.isclose ratio 1 Np.default_rtol conjugate_atol
          then Ok AnsTrue else Ok AnsNone
        else if is_pointlike type1 then Ok AnsTrue
        else Ok AnsNone
      else Ok AnsFalse
  end.

End Classifier.

(** ** [OperationAnalyzer.__str__] *)

(** The values the summary prints. *)
Record Summary : Type := mkSummary {
  s_op : SymmOp;
  s_type : OpType;
  s_order : option Order;
  s_angle : option R;
  s_axis : option Vec3
}.

(** [if np.isclose(x, 0): self.axis[i] = 0.] for one component. *)
Definition zero_if_close (x : R) : R :=
  if Np.isclose x 0 Np.default_rtol Np.default_atol then 0 else x.

(** The loop over the three components, writing into [self.axis]. *)
Definition normalize_axis (axis : Vec3) : Vec3 :=
  mkVec (zero_if_close (vx axis)) (zero_if_close (vy axis)) (zero_if_close (vz axis)).

(** [__str__]: the printed values, or the exception raised, and the object
    after the call. *)
Definition str (self : Analyzer) : Result Summary * Analyzer :=
  match getattr "axis" (a_axis self) with
  | Raise e => (Raise e, self)
  | Ok axis =>
      let self :=
        match axis with
        | Some v => set_axis self (Val (normalize_axis v))
        | None => self
        end in
      (op <- getval "op" (a_op self) ;;
       type <- getval "type" (a_type self) ;;
       order <- getattr "order" (a_order self) ;;
       angle <- getattr "angle" (a_angle self) ;;
       axis <- getattr "axis" (a_axis self) ;;
       Ok (mkSummary op type order angle axis),
       self)
  end.

(** ** [project_point] *)

(** What the caller passed as [point]: a list or tuple, or a numpy array.
    [point -= translation] writes into an array in place and rebinds the
    local name for a list or a tuple. *)
Inductive PointKind : Type := PyList | NdArray.

(** The branch [PBC == [0,0,0]] on an array: the returned vector and the
    contents of the array [point] after the call. *)
Definition project_direct (point : Vec3) (op : SymmOp) : Vec3 * Vec3 :=
  let translation := translation_vector op in
  let point := vsub point translation in
  let step (new_vector basis_vector : Vec3) : Vec3 :=
    let b := sqrt (vdot basis_vector basis_vector) in
    if negb (Np.isclose b 0 Np.default_rtol Np.default_atol)
    then vadd new_vector (vscale (vdot point basis_vector / (b ^ 2)) basis_vector)
    else new_vector in
  let T := transpose (rotation_matrix op) in
  let new_vector := fold_left step [row0 T; row1 T; row2 T] vzero in
  (vadd new_vector translation, point).

(** [np.argmin]: the first index of the least element. *)
Fixpoint argmin_from (l : list R) (i best_i : nat) (best : R) : nat :=
  match l with
  | [] => best_i
  | x :: rest =>
      if Np.ltb x best then argmin_from rest (S i) i x
      else argmin_from rest (S i) best_i best
  end.

Definition argmin (l : list R) : nat :=
  match l with
  | [] => 0%nat
  | x :: rest => argmin_from rest 1 0 x
  end.

(** One turn of [for v in m]: the local array [point], [new_vectors] and
    [distances] before and after. *)
Definition project_step (op : SymmOp) (lattice : Mat3)
  (st : Vec3 * list Vec3 * list R) (v : Vec3) : Vec3 * list Vec3 * list R :=
  let '(point, new_vectors, distances) := st in
  let new_op :=
    from_rotation_and_translation (rotation_matrix op) (vadd (translation_vector op) v) in
  let '(new_vector, point) := project_direct point new_op in
  (point, new_vectors ++ [new_vector],
   distances ++ [distance (vsub new_vector point) lattice (mkPBC false false false)]).

(** [project_point]: the returned vector and the caller's [point] after the
    call. *)
Definition project_point (kind : PointKind) (point : Vec3) (op : SymmOp)
  (lattice : Mat3) (P : PBC) : Vec3 * Vec3 :=
  if negb (pbc_nonzero P) then
    let '(new_vector, shifted) := project_direct point op in
    (new_vector, match kind with NdArray => shifted | PyList => point end)
  else
    let local := filtered_coords point (mkPBC true true true) in
    let m := create_matrix P in
    let '(_, new_vectors, distances) :=
      fold_left (project_step op lattice) m (local, [], []) in
    let i := argmin distances in
    (filtered_coords (nth i new_vectors vzero) P, point).

(** ** The contract of scipy's rotation vector *)

(** What scipy documents for [Rotation.from_matrix(m).as_rotvec()]: the
    rotation vector of a rotation matrix is co-directional with the axis
    and its norm is the angle, taken in [[0, pi]].  Rotations by exactly
    [pi], where the axis has two valid signs, are left open. *)
Definition rotvec_contract (f : Mat3 -> Vec3) : Prop :=
  forall axis angle, vdot axis axis = 1 -> 0 <= angle < PI ->
    f (aa2matrix axis angle) = vscale angle axis.

Definition trace (m : Mat3) : R := vx (row0 m) + vy (row1 m) + vz (row2 m).

(** A function that meets the contract: the angle from the trace, the axis
    from the antisymmetric part of the matrix. *)
Definition rotvec_model (m : Mat3) : Vec3 :=
  let angle := acos ((trace m - 1) / 2) in
  let s := sin angle in
  if Np.eqb s 0 then vzero
  else vscale (angle / (2 * s))
         (mkVec (vy (row2 m) - vz (row1 m))
                (vz (row0 m) - vx (row2 m))
                (vx (row1 m) - vy (row0 m))).

(** ** Concrete operations *)

Definition neg_eye3 : Mat3 := mkMat (mkVec (-1) 0 0) (mkVec 0 (-1) 0) (mkVec 0 0 (-1)).
Definition twice_eye3 : Mat3 := mkMat (mkVec 2 0 0) (mkVec 0 2 0) (mkVec 0 0 2).
Definition z_axis : Vec3 := mkVec 0 0 1.

(** A unit axis with a component of one billionth. *)
Definition tilted_axis : Vec3 :=
  mkVec (1 / 1000000000) 0 (sqrt (1 - 1 / 1000000000 * (1 / 1000000000))).

(** The state of an analyzer classified as a rotation. *)
Definition rotation_state (m : Mat3) (axis : Vec3) (angle : R) : Analyzer :=
  mkAnalyzer (Val (from_rotation_and_translation m vzero)) Unset Unset (Val m) (Val (det m))
             (Val false) (Val Rotation) (Val axis) (Val angle)
             (Val (get_order angle false get_order_tol))
             (Val (get_order angle false get_order_tol)).

(** A shift by one along x, with the identity as linear part. *)
Definition shift_x : SymmOp := mkSymmOp eye3 (mkVec 1 0 0) (1 / 10).

(** An analyzer that the constructor returned. *)
Definition classified (f : Mat3 -> Vec3) (a : Analyzer) : Prop :=
  exists arg msgs, init f arg = (msgs, Ok a).

(** Two rotations about z whose angles differ by a little over one percent. *)
Definition wide_angle : R := 1010005 / 1000000.
Definition rotation_wide : Analyzer :=
  rotation_state (aa2matrix z_axis wide_angle) z_axis wide_angle.
Definition rotation_unit : Analyzer := rotation_state (aa2matrix z_axis 1) z_axis 1.

(** A sixfold rotation about the tilted axis. *)
Definition tilted_rotation : Analyzer :=
  rotation_state (aa2matrix tilted_axis (pi / 3)) tilted_axis (pi / 3).

(** The state after classifying a matrix that is not orthogonal. *)
Definition general_state (m : Mat3) : Analyzer :=
  mkAnalyzer (Val (from_rotation_and_translation m vzero)) Unset Unset (Val m) (Val (det m))
             Unset (Val General) IsNone IsNone IsNone IsNone.

(** The effective tolerance of [np.isclose(x, 1., atol=1e-2)]. *)
Definition conjugate_tolerance : R := conjugate_atol + Np.default_rtol * 1.

(** The minimum-image separation of two points of the unit cube. *)
Definition cube_separation (p q : Vec3) : R :=
  Np.min (map (fun v => vnorm (vsub (vadd p v) q)) (create_matrix full_pbc)).

(** Three colinear points at 0, 0.5 and 0.1. *)
Definition scattered_points : list Vec3 :=
  [mkVec 0 0 0; mkVec (5 / 10) 0 0; mkVec (1 / 10) 0 0].

(** An orthorhombic cell: edges of lengths [a], [b], [c] along the axes. *)
Definition diag (a b c : R) : Mat3 := mkMat (mkVec a 0 0) (mkVec 0 b 0) (mkVec 0 0 c).

(** [np.dot(m, v)] for a matrix and a vector: [m] times the column [v]. *)
Definition dot_mv (m : Mat3) (v : Vec3) : Vec3 :=
  mkVec (vdot (row0 m) v) (vdot (row1 m) v) (vdot (row2 m) v).

(** ** [filtered_coords_euclidean] *)

(** One turn of the loop of [filter_vector_euclidean]: the component of a
    periodic axis is folded, then reflected when above one half. *)
Definition fold_euclidean (a : bool) (x : R) : R :=
  if a then
    let x := x - Np.floor x in
    if Np.ltb (1 / 2) x then 1 - x else x
  else x.

Definition filter_vector_euclidean (P : PBC) (vector : Vec3) : Vec3 :=
  mkVec (fold_euclidean (pbc0 P) (vx vector))
        (fold_euclidean (pbc1 P) (vy vector))
        (fold_euclidean (pbc2 P) (vz vector)).

(** The value returned for a single point. *)
Definition filtered_coords_euclidean (coords : Vec3) (P : PBC) : Vec3 :=
  filter_vector_euclidean P coords.

(** ** [distance_matrix_single] *)

(** [np.min] as numpy has it: [None] stands for the [ValueError] raised on
    an array without elements. *)
Definition np_min_checked (l : list R) : option R :=
  match l with
  | [] => None
  | _ => Some (Np.min l)
  end.

(** All elements of a stack of matrices. *)
Definition flatten3 (d : list (list (list R))) : list R := concat (map (@concat R) d).

Definition distance_matrix_single (points1 points2 : list Vec3) (lattice : Mat3) (P : PBC)
  : option R :=
  if pbc_nonzero P then
    let l1 := filtered_coords_array points1 P in
    let l2 := filtered_coords_array points2 P in
    let l2 := map (fun p => dot_vm p lattice) l2 in
    let matrix := create_matrix P in
    let m1 := map (fun v => map (fun p => vadd p v) l1) matrix in
    let m1 := map (map (fun p => dot_vm p lattice)) m1 in
    let d := map (fun l => cdist l l2) m1 in
    np_min_checked (flatten3 d)
  else
    let l1 := map (fun p => dot_vm p lattice) points1 in
    let l2 := map (fun p => dot_vm p lattice) points2 in
    let d := cdist l1 l2 in
    np_min_checked (concat d).

(** ** [check_distance] *)

(** Broadcasting of one axis of two arrays: the common length, or [None]
    for the [ValueError] of incompatible shapes. *)
Definition broadcast_dim (a b : nat) : option nat :=
  if (a =? b)%nat then Some a
  else if (a =? 1)%nat then Some b
  else if (b =? 1)%nat then Some a
  else None.

(** The index read along an axis of length [dim] for the broadcast index
    [i]. *)
Definition bindex (dim i : nat) : nat := if (dim =? 1)%nat then 0%nat else i.

(** [(d < t).any()] for [d] of shape [(n1, n2)] and [t] of shape
    [(k1, k2)]. *)
Definition any_less (n1 n2 : nat) (d : list (list R)) (k1 k2 : nat) (t : list (list R))
  : option bool :=
  match broadcast_dim n1 k1, broadcast_dim n2 k2 with
  | Some r, Some c =>
      Some (existsb (fun i =>
              existsb (fun j =>
                Np.ltb (cell d (bindex n1 i) (bindex n2 j))
                       (cell t (bindex k1 i) (bindex k2 j)))
                (seq 0 c))
              (seq 0 r))
  | _, _ => None
  end.

(** The table [tols] filled by the two loops over the species. *)
Definition tolerance_table (get_tol : Species -> Species -> R)
  (species1 species2 : list Species) : list (list R) :=
  map (fun specie1 => map (fun specie2 => get_tol specie1 specie2) species2) species1.

(** [check_distance]; [get_tol] is the method of the [Tol_matrix] passed as
    [tm], a class of another module.  [None] stands for the [ValueError]
    of a comparison between incompatible shapes. *)
Definition check_distance (coord1 coord2 : list Vec3) (species1 species2 : list Species)
  (lattice : option Mat3) (P : PBC) (get_tol : Species -> Species -> R) (d_factor : R)
  : option bool :=
  if (length coord1 <? 1)%nat || (length coord2 <? 1)%nat then Some true
  else
    let tols := tolerance_table get_tol species1 species2 in
    let d := distance_matrix coord1 coord2 lattice P in
    match any_less (length coord1) (length coord2) d
                   (length species1) (length species2) tols with
    | None => None
    | Some true => Some false
    | Some false => Some true
    end.

(** ** [are_equal] *)

(** [difference[i] -= np.floor(difference[i])] under [if a]. *)
Definition fold_if (a : bool) (x : R) : R := if a then x - Np.floor x else x.

Definition are_equal (op1 op2 : SymmOp) (P : PBC) (rtol atol : R) : bool :=
  let m1 := rotation_matrix op1 in
  let m2 := rotation_matrix op2 in
  if negb (allclose m1 m2 rtol atol) then false
  else
    let v1 := translation_vector op1 in
    let v2 := translation_vector op2 in
    let difference := vsub v2 v1 in
    let difference :=
      mkVec (fold_if (pbc0 P) (vx difference)) (fold_if (pbc1 P) (vy difference))
            (fold_if (pbc2 P) (vz difference)) in
    let d := vnorm difference in
    if Np.ltb (Rabs d) rtol then true else false.

(** ** [apply_ops] and [get_inverse] *)

(** The first three coordinates of the affine matrix of an operation times
    the point extended by 1. *)
Definition operate (op : SymmOp) (coord : Vec3) : Vec3 :=
  vadd (dot_mv (rotation_matrix op) coord) (translation_vector op).

(** [apply_ops(coord, ops)] for a 3-vector; [None] stands for the
    [ValueError] of [np.inner] on an empty array of matrices. *)
Definition apply_ops (coord : Vec3) (ops : list SymmOp) : option (list Vec3) :=
  match ops with
  | [] => None
  | _ => Some (map (fun op => operate op coord) ops)
  end.

(** [np.linalg.inv] on a 3x3 matrix, in exact arithmetic: the adjugate
    over the determinant, [None] for the [LinAlgError] of a singular
    matrix.  (The library raises when its elimination meets a pivot that
    is exactly zero; on a matrix that is singular only up to rounding it
    returns a matrix.) *)
Definition inv3 (m : Mat3) : option Mat3 :=
  let a := row0 m in let b := row1 m in let c := row2 m in
  let d := det m in
  if Np.eqb d 0 then None
  else Some (mkMat
    (mkVec ((vy b * vz c - vz b * vy c) / d) ((vz a * vy c - vy a * vz c) / d)
           ((vy a * vz b - vz a * vy b) / d))
    (mkVec ((vz b * vx c - vx b * vz c) / d) ((vx a * vz c - vz a * vx c) / d)
           ((vz a * vx b - vx a * vz b) / d))
    (mkVec ((vx b * vy c - vy b * vx c) / d) ((vy a * vx c - vx a * vy c) / d)
           ((vx a * vy b - vy a * vx b) / d))).

(** [get_inverse(op)]: the operation of the inverse affine matrix, which
    has the inverse linear part and the translation it maps back;
    [SymmOp(...)] takes pymatgen's default tolerance. *)
Definition get_inverse (op : SymmOp) : option SymmOp :=
  match inv3 (rotation_matrix op) with
  | None => None
  | Some r => Some (mkSymmOp r (vscale (-1) (dot_mv r (translation_vector op))) (1 / 100))
  end.

(** ** [angle] *)

(** [angle(v1, v2, radians)]; [deg] is a constant of [pyxtal.constants]. *)
Definition angle (deg : R) (v1 v2 : Vec3) (radians : bool) : R :=
  let dot := vdot v1 v2 in
  if Np.isclose dot 1 Np.default_rtol Np.default_atol then 0
  else if Np.isclose dot (-1) Np.default_rtol Np.default_atol then pi
  else
    let a := acos (dot / (vnorm v1 * vnorm v2)) in
    if radians then a else a * deg.

(** ** [OperationAnalyzer.are_conjugate] *)

(** The local name [opa1] is bound only when [op1] is not an analyzer; its
    use then raises [UnboundLocalError], a [NameError]. *)
Definition are_conjugate (f : Mat3 -> Vec3) (op1 op2 : ConjArg) : Result Answer :=
  match op1 with
  | ConjRaw raw =>
      opa1 <- snd (init f raw) ;;
      is_conjugate f opa1 op2
  | ConjAnalyzer _ => Raise (NameError "opa1")
  end.

(** ** [check_images] *)

(** [np.tile(t, reps)] for a table [t] and a number [reps]: every row
    repeated [reps] times along the last axis. *)
Definition np_tile (t : list (list R)) (reps : nat) : list (list R) :=
  map (fun row => concat (repeat row reps)) t.

(** The table [tols] after the two loops over [enumerate(species)]: the
    turn [(i, j)] with [i <= j] writes [tm.get_tol(s1, s2)] to
    [tols[i][j]] and to [tols[j][i]]. *)
Definition tols_table (get_tol : Species -> Species -> R) (species : list Species)
  : list (list R) :=
  map (fun i =>
    map (fun j =>
      if (i <=? j)%nat
      then get_tol (nth i species ""%string) (nth j species ""%string)
      else get_tol (nth j species ""%string) (nth i species ""%string))
      (seq 0 (length species)))
    (seq 0 (length species)).

(** The list [new_coords]: for every translation of [m] but [[0,0,0]], the
    rows of [coords + v]. *)
Definition image_coords (coords : list Vec3) (m : list Vec3) : list Vec3 :=
  flat_map (fun v =>
    if vec_eqb v vzero then [] else map (fun v2 => vadd v2 v) coords) m.

(** [check_images]; [tol] is [None] unless the caller overrides the
    tolerances.  [None] as the result stands for a [ValueError]: of
    [coords + v] for an empty [coords], or of the comparison of [dm] with a
    table of another shape. *)
Definition check_images (coords : list Vec3) (species : list Species)
  (lattice : option Mat3) (P : PBC) (get_tol : Species -> Species -> R)
  (tol : option R) (d_factor : R) : option bool :=
  if negb (pbc_nonzero P) then Some true
  else
    match coords with
    | [] => None
    | _ :: _ =>
        let m := create_matrix P in
        let new_coords := image_coords coords m in
        let dm := distance_matrix coords new_coords lattice (mkPBC false false false) in
        match tol with
        | None =>
            let tols := tols_table get_tol species in
            let reps := (length new_coords / length coords)%nat in
            let tols2 := np_tile tols reps in
            match any_less (length coords) (length new_coords) dm
                           (length species) (length species * reps) tols2 with
            | None => None
            | Some true => Some false
            | Some false => Some true
            end
        | Some tol =>
            if existsb (fun x => Np.ltb x tol) (concat dm) then Some false else Some true
        end
    end.

(** ** [rotate_vector] *)

(** [np.cross(a, b)] *)
Definition cross (a b : Vec3) : Vec3 :=
  mkVec (vy a * vz b - vz a * vy b)
        (vz a * vx b - vx a * vz b)
        (vx a * vy b - vy a * vx b).

(** What scipy documents for [Rotation.from_rotvec(v).as_matrix()]: the
    rotation about the direction of [v] by the norm of [v], as the matrix
    of the axis-angle formula that [aa2matrix] writes out. *)
Definition from_rotvec_contract (g : Vec3 -> Mat3) : Prop :=
  forall axis angle, vdot axis axis = 1 -> 0 <= angle ->
    g (vscale angle axis) = aa2matrix axis angle.

(** A function that meets the contract. *)
Definition rotvec_matrix (v : Vec3) : Mat3 :=
  if Np.eqb (vnorm v) 0 then eye3 else aa2matrix v (vnorm v).

(** [rotate_vector(v1, v2)]; [from_rotvec] is scipy's
    [Rotation.from_rotvec(v).as_matrix()] and [r] the three numbers drawn
    with [np.random.random()]. *)
Definition rotate_vector (from_rotvec : Vec3 -> Mat3) (deg : R) (r : Vec3)
  (v1 v2 : Vec3) : Mat3 :=
  let v1 := vdiv v1 (vnorm v1) in
  let v2 := vdiv v2 (vnorm v2) in
  let dot := vdot v1 v2 in
  if Np.isclose dot 1 (1 / 10000) Np.default_atol then eye3
  else if Np.isclose dot (-1) (1 / 10000) Np.default_atol then
    let v3 := cross v1 r in
    from_rotvec (vscale pi v3)
  else
    let theta := angle deg v1 v2 true in
    let v3 := cross v1 v2 in
    from_rotvec (vscale theta v3).

(** * The same arithmetic in IEEE binary64 *)

(** The functions above compute in exact real arithmetic.  This module
    writes the numeric core of the same source functions over the kernel's
    binary64 floats, operation for operation, so that single inputs can be
    evaluated the way the interpreter evaluates them. *)
Module F64.

Local Open Scope float_scope.

Definition two52 : float := 4503599627370496.

(** [np.round] and [np.rint] on a double: the nearest integer, ties to the
    even one.  Below [2^52] adding and subtracting [2^52] lands on the
    integer grid under round-to-nearest-even; from [2^52] on every double
    is an integer. *)
Definition rint (x : float) : float :=
  let a := PrimFloat.abs x in
  if PrimFloat.ltb a two52 then
    let r := (a + two52) - two52 in
    if PrimFloat.ltb x 0 then - r else r
  else x.

(** [np.floor] on a double. *)
Definition floor (x : float) : float :=
  let r := rint x in
  if PrimFloat.ltb x r then r - 1 else r.

(** Modelled from the spec: the constant [pi] imported from
    [pyxtal.constants], which is not part of the analysed file, as the
    double nearest to the number the spec writes [π]. *)
Definition pi : float := 0x1.921fb54442d18p+1.

(** A Python integer of the loop as a double. *)
Definition of_int (n : Z) : float := PrimFloat.of_uint63 (Uint63.of_Z n).

(** *** [OperationAnalyzer.get_order] *)

Definition order_test (n : Z) (angle tol : float) : bool :=
  let x := (of_int n * angle) / (2 * pi) in
  let y := x - rint x in
  PrimFloat.leb (PrimFloat.abs y) tol.

Fixpoint order_loop (angle tol : float) (ns : list Z) : option Z :=
  match ns with
  | [] => None
  | n :: rest =>
      if order_test n angle tol then Some n else order_loop angle tol rest
  end.

Definition get_order (angle : float) (rotoinversion : bool) (tol : float) : Order :=
  match order_loop angle tol (range 1 61) with
  | Some n =>
      if rotoinversion then
        if (n mod 2 =? 1)%Z then Finite (n * 2) else Finite n
      else Finite n
  | None => Irrational
  end.

(** *** Vectors and matrices of doubles *)

Record Vec3 : Type := mkVec { vx : float; vy : float; vz : float }.
Record Mat3 : Type := mkMat { row0 : Vec3; row1 : Vec3; row2 : Vec3 }.

Definition vzero : Vec3 := mkVec 0 0 0.
Definition eye3 : Mat3 := mkMat (mkVec 1 0 0) (mkVec 0 1 0) (mkVec 0 0 1).
Definition vadd (a b : Vec3) : Vec3 := mkVec (vx a + vx b) (vy a + vy b) (vz a + vz b).
Definition vsub (a b : Vec3) : Vec3 := mkVec (vx a - vx b) (vy a - vy b) (vz a - vz b).

(** [np.dot(v, m)]: the three products of a column are summed from the
    first row to the last. *)
Definition dot_vm (v : Vec3) (m : Mat3) : Vec3 :=
  mkVec (vx v * vx (row0 m) + vy v * vx (row1 m) + vz v * vx (row2 m))
        (vx v * vy (row0 m) + vy v * vy (row1 m) + vz v * vy (row2 m))
        (vx v * vz (row0 m) + vy v * vz (row1 m) + vz v * vz (row2 m)).

(** One cell of [cdist]: the square root of the sum of the squared
    differences. *)
Definition separation (a b : Vec3) : float :=
  let d := vsub a b in
  PrimFloat.sqrt (vx d * vx d + vy d * vy d + vz d * vz d).

Definition cdist (XA XB : list Vec3) : list (list float) :=
  map (fun a => map (fun b => separation a b) XB) XA.

Definition vec_eqb (a b : Vec3) : bool :=
  PrimFloat.eqb (vx a) (vx b) && PrimFloat.eqb (vy a) (vy b) && PrimFloat.eqb (vz a) (vz b).

Definition mat_eqb (a b : Mat3) : bool :=
  vec_eqb (row0 a) (row0 b) && vec_eqb (row1 a) (row1 b) && vec_eqb (row2 a) (row2 b).

(** [np.min]; no caller below passes an empty array. *)
Definition min (l : list float) : float :=
  match l with
  | [] => 0
  | x :: xs => fold_left (fun m y => if PrimFloat.ltb y m then y else m) xs x
  end.

(** *** [create_matrix], [filtered_coords], [distance], [distance_matrix] *)

Definition flag (b : bool) : float := if b then 1 else 0.

Definition offsets (periodic : bool) : list float := if periodic then [-1; 0; 1] else [0].

Definition create_matrix (P : PBC) : list Vec3 :=
  flat_map (fun i =>
    flat_map (fun j =>
      map (fun k => mkVec i j k) (offsets (pbc2 P)))
      (offsets (pbc1 P)))
    (offsets (pbc0 P)).

Definition filter_vector (P : PBC) (vector : Vec3) : Vec3 :=
  mkVec (vx vector - floor (vx vector) * flag (pbc0 P))
        (vy vector - floor (vy vector) * flag (pbc1 P))
        (vz vector - floor (vz vector) * flag (pbc2 P)).

Definition filtered_coords (coords : Vec3) (P : PBC) : Vec3 := filter_vector P coords.

Definition distance (xyz : Vec3) (lattice : Mat3) (P : PBC) : float :=
  let xyz := filtered_coords xyz P in
  let matrix := create_matrix P in
  let matrix := map (fun v => vadd v xyz) matrix in
  let matrix := map (fun v => dot_vm v lattice) matrix in
  min (concat (cdist matrix [vzero])).

Definition cell (d : list (list float)) (i j : nat) : float := nth j (nth i d []) 0.

Definition min_along_axis0 (n1 n2 : nat) (all_distances : list (list (list float)))
  : list (list float) :=
  map (fun i => map (fun j => min (map (fun d => cell d i j) all_distances))
                    (seq 0 n2))
      (seq 0 n1).

Definition distance_matrix (points1 points2 : list Vec3) (lattice : option Mat3)
  (P : PBC) : list (list float) :=
  let lattice :=
    match lattice with
    | Some L => if mat_eqb L eye3 then None else Some L
    | None => None
    end in
  match lattice with
  | Some L =>
      if pbc_nonzero P then
        let l1 := map (filter_vector P) points1 in
        let l2 := map (filter_vector P) points2 in
        let l2 := map (fun p => dot_vm p L) l2 in
        let matrix := create_matrix P in
        let m1 := map (fun v => map (fun p => vadd p v) l1) matrix in
        let m1 := map (map (fun p => dot_vm p L)) m1 in
        let all_distances := map (fun l => cdist l l2) m1 in
        min_along_axis0 (length points1) (length points2) all_distances
      else
        let l1 := map (fun p => dot_vm p L) points1 in
        let l2 := map (fun p => dot_vm p L) points2 in
        cdist l1 l2
  | None =>
      if pbc_nonzero P then
        let l1 := map (filter_vector P) points1 in
        let l2 := map (filter_vector P) points2 in
        let matrix := create_matrix P in
        let m1 := map (fun v => map (fun p => vadd p v) l1) matrix in
        let all_distances := map (fun l => cdist l l2) m1 in
        min_along_axis0 (length points1) (length points2) all_distances
      else cdist points1 points2
  end.

(** The sheared cell with rows (1,0,0), (4,1,0), (0,0,1) and a displacement
    whose first coordinate lies [2^-60] below zero. *)
Definition skew_lattice : Mat3 := mkMat (mkVec 1 0 0) (mkVec 4 1 0) (mkVec 0 0 1).
Definition edge_disp : Vec3 := mkVec (-0x1p-60) 0.25 0.

End F64.

(** * Properties *)

(** ** Lemmas on the numeric primitives *)

Lemma leb_true a b : a <= b -> Np.leb a b = true.
Proof. intros H; unfold Np.leb; destruct (Rle_dec a b); [reflexivity | contradiction]. Qed.

Lemma leb_false a b : b < a -> Np.leb a b = false.
Proof. intros H; unfold Np.leb; destruct (Rle_dec a b); [lra | reflexivity]. Qed.

Lemma leb_iff a b : Np.leb a b = true <-> a <= b.
Proof. unfold Np.leb; destruct (Rle_dec a b); split; intros; try discriminate; auto; lra. Qed.

Lemma ltb_true a b : a < b -> Np.ltb a b = true.
Proof. intros H; unfold Np.ltb; destruct (Rlt_dec a b); [reflexivity | contradiction]. Qed.

Lemma ltb_false a b : b <= a -> Np.ltb a b = false.
Proof. intros H; unfold Np.ltb; destruct (Rlt_dec a b); [lra | reflexivity]. Qed.

Lemma ltb_iff a b : Np.ltb a b = true <-> a < b.
Proof. unfold Np.ltb; destruct (Rlt_dec a b); split; intros; try discriminate; auto; lra. Qed.

Lemma eqb_true a b : a = b -> Np.eqb a b = true.
Proof. intros H; unfold Np.eqb; destruct (Req_dec_T a b); [reflexivity | contradiction]. Qed.

Lemma eqb_false a b : a <> b -> Np.eqb a b = false.
Proof. intros H; unfold Np.eqb; destruct (Req_dec_T a b); [contradiction | reflexivity]. Qed.

Lemma floor_bound x : Np.floor x <= x < Np.floor x + 1.
Proof. apply Zfloor_bound. Qed.

Lemma floor_eq (z : Z) x : IZR z <= x < IZR z + 1 -> Np.floor x = IZR z.
Proof. intros H; unfold Np.floor; f_equal; now apply Zfloor_eq. Qed.

(** The rounded value is at distance at most one half. *)
Lemma round_half x : Rabs (x - Np.round x) <= 1 / 2.
Proof.
  unfold Np.round, Np.round_half_even.
  pose proof (Zfloor_bound x) as B.
  destruct (Rlt_dec _ _) as [H1|H1].
  - apply Rabs_le; lra.
  - destruct (Rlt_dec _ _) as [H2|H2].
    + rewrite plus_IZR; apply Rabs_le; lra.
    + destruct (Z.even _); [| rewrite plus_IZR]; apply Rabs_le; lra.
Qed.

(** No integer is nearer to [x] than [np.round x]. *)
Lemma round_nearest x (k : Z) : Rabs (x - Np.round x) <= Rabs (x - IZR k).
Proof.
  pose proof (Zfloor_bound x) as B.
  assert (Hk : (k <= Zfloor x)%Z \/ (Zfloor x + 1 <= k)%Z) by lia.
  assert (Hd : Rabs (x - IZR k) >= x - IZR (Zfloor x)
               \/ Rabs (x - IZR k) >= IZR (Zfloor x) + 1 - x).
  { destruct Hk as [Hk|Hk]; apply IZR_le in Hk.
    - left. rewrite Rabs_right; lra.
    - right. rewrite plus_IZR in Hk. rewrite Rabs_left1; lra. }
  unfold Np.round, Np.round_half_even.
  destruct (Rlt_dec _ _) as [H1|H1].
  - rewrite (Rabs_right (x - IZR (Zfloor x))) by lra. lra.
  - destruct (Rlt_dec _ _) as [H2|H2].
    + rewrite plus_IZR. rewrite (Rabs_left1 (x - (IZR (Zfloor x) + 1))) by lra. lra.
    + destruct (Z.even _).
      * rewrite (Rabs_right (x - IZR (Zfloor x))) by lra. lra.
      * rewrite plus_IZR. rewrite (Rabs_left1 (x - (IZR (Zfloor x) + 1))) by lra. lra.
Qed.

(** The test of the loop body says what the spec says. *)
Lemma order_test_iff n angle tol :
  order_test n angle tol = true <-> within_tol_of_integer (turns n angle) tol.
Proof.
  unfold order_test, within_tol_of_integer; cbv zeta. rewrite leb_iff. split.
  - intros H. exists (Np.round_half_even (turns n angle)). exact H.
  - intros [k Hk]. eapply Rle_trans; [apply round_nearest | exact Hk].
Qed.

Lemma range_In a b k : In k (range a b) <-> (a <= k < b)%Z.
Proof.
  unfold range. rewrite in_map_iff. split.
  - intros [i [<- Hi]]. apply in_seq in Hi. lia.
  - intros H. exists (Z.to_nat (k - a)). split; [lia | apply in_seq; lia].
Qed.

(** What the loop returns: the first element of the list that passes. *)
Lemma order_loop_some angle tol ns n :
  order_loop angle tol ns = Some n <->
  exists pre post, ns = pre ++ n :: post
    /\ order_test n angle tol = true
    /\ forall m, In m pre -> order_test m angle tol = false.
Proof.
  revert n; induction ns as [|a ns IH]; intros n; simpl.
  - split; [discriminate | intros (pre & post & H & _)].
    destruct pre; discriminate.
  - destruct (order_test a angle tol) eqn:Ea.
    + split.
      * intros [= <-]. exists [], ns. simpl; intuition.
      * intros (pre & post & H & Hn & Hpre). destruct pre as [|p pre]; simpl in H.
        -- now inversion H.
        -- inversion H; subst. rewrite (Hpre p) in Ea by (now left). discriminate.
    + rewrite IH. split.
      * intros (pre & post & -> & Hn & Hpre). exists (a :: pre), post.
        simpl; repeat split; auto. intros m [<-|Hm]; auto.
      * intros (pre & post & H & Hn & Hpre). destruct pre as [|p pre]; simpl in H.
        -- inversion H; subst. congruence.
        -- inversion H; subst. exists pre, post. repeat split; auto.
           intros m Hm; apply Hpre; now right.
Qed.

Lemma order_loop_none angle tol ns :
  order_loop angle tol ns = None <->
  forall m, In m ns -> order_test m angle tol = false.
Proof.
  induction ns as [|a ns IH]; simpl.
  - split; [intros _ m [] | reflexivity].
  - destruct (order_test a angle tol) eqn:Ea.
    + split; [discriminate | intros H; rewrite (H a) in Ea by (now left); discriminate].
    + rewrite IH. split.
      * intros H m [<-|Hm]; auto.
      * intros H m Hm; apply H; now right.
Qed.

Lemma range_nil a b : (b <= a)%Z -> range a b = [].
Proof. intros H; unfold range. replace (Z.to_nat (b - a)) with 0%nat by lia. reflexivity. Qed.

Lemma range_cons a b : (a < b)%Z -> range a b = a :: range (a + 1) b.
Proof.
  intros H; unfold range.
  replace (Z.to_nat (b - a)) with (S (Z.to_nat (b - (a + 1)))) by lia.
  cbn [seq map]. f_equal; [lia |].
  rewrite <- seq_shift, map_map. apply map_ext; intros; lia.
Qed.

(** On a range the loop stops at the least passing index. *)
Lemma order_loop_range angle tol (len : nat) : forall a n,
  order_loop angle tol (range a (a + Z.of_nat len)) = Some n <->
  ((a <= n < a + Z.of_nat len)%Z
   /\ order_test n angle tol = true
   /\ forall m, (a <= m < n)%Z -> order_test m angle tol = false).
Proof.
  induction len as [|len IH]; intros a n.
  - rewrite range_nil by lia. simpl. split; [discriminate | intros [H _]; lia].
  - rewrite range_cons by lia. simpl.
    replace (a + Z.pos (Pos.of_succ_nat len))%Z with (a + 1 + Z.of_nat len)%Z by lia.
    destruct (order_test a angle tol) eqn:Ea.
    + split.
      * intros [= <-]. repeat split; auto; lia.
      * intros (Hr & Hn & Hm). destruct (Z.eq_dec a n) as [->|Hne]; auto.
        rewrite (Hm a) in Ea by lia. discriminate.
    + rewrite IH. split.
      * intros (Hr & Hn & Hm). repeat split; auto; try lia.
        intros m Hmr. destruct (Z.eq_dec m a) as [->|Hne]; auto. apply Hm; lia.
      * intros (Hr & Hn & Hm).
        assert (a <> n) by (intros ->; congruence).
        repeat split; auto; try lia. intros m Hmr; apply Hm; lia.
Qed.

Lemma order_loop_range_none angle tol a b :
  order_loop angle tol (range a b) = None <->
  forall m, (a <= m < b)%Z -> order_test m angle tol = false.
Proof.
  rewrite order_loop_none. split; intros H m Hm; apply H; now apply range_In.
Qed.

Lemma order_test_false_iff n angle tol :
  order_test n angle tol = false <-> ~ within_tol_of_integer (turns n angle) tol.
Proof.
  rewrite <- order_test_iff. destruct (order_test n angle tol); split; intros; congruence.
Qed.

(** ** Bounds on the circle constant *)

Lemma pi_bounds : 314158 / 100000 < pi < 314160 / 100000.
Proof.
  unfold pi. pose proof (PI_2_3_7_ineq 2) as [Hlo Hhi].
  unfold sum_f_R0, tg_alt, PI_2_3_7_tg, Ratan_seq in Hlo, Hhi.
  simpl in Hlo, Hhi. split; lra.
Qed.

(** ** Evaluating [get_order] *)

Lemma get_order_least angle rotoinversion tol n :
  (1 <= n <= 60)%Z ->
  order_test n angle tol = true ->
  (forall m, (1 <= m < n)%Z -> order_test m angle tol = false) ->
  get_order angle rotoinversion tol
  = Finite (if rotoinversion && Z.odd n then (2 * n)%Z else n).
Proof.
  intros Hn Ht Hm. unfold get_order.
  assert (E : order_loop angle tol (range 1 61) = Some n).
  { apply (order_loop_range angle tol 60 1 n). repeat split; auto; lia. }
  rewrite E, Zmod_odd.
  destruct rotoinversion, (Z.odd n); cbn [andb Z.eqb Pos.eqb]; try reflexivity.
  f_equal; lia.
Qed.

Lemma Rabs_le_bounds x a : Rabs x <= a -> - a <= x <= a.
Proof. unfold Rabs. destruct (Rcase_abs x); lra. Qed.

Lemma turns_sixth n : turns n (pi / 3) = IZR n / 6.
Proof. unfold turns. pose proof pi_bounds. field. lra. Qed.

Lemma get_order_sixth : get_order (pi / 3) false get_order_tol = Finite 6.
Proof.
  apply (get_order_least (pi / 3) false get_order_tol 6); [lia | |].
  - apply order_test_iff. exists 1%Z. rewrite turns_sixth.
    replace (6 / 6 - 1) with 0 by field. rewrite Rabs_R0. unfold get_order_tol. lra.
  - intros m Hm. apply order_test_false_iff. intros [k Hk].
    rewrite turns_sixth in Hk. unfold get_order_tol in Hk.
    apply Rabs_le_bounds in Hk.
    assert (H1 : 1 <= IZR m) by (apply IZR_le; lia).
    assert (H5 : IZR m <= 5) by (apply IZR_le; lia).
    assert (Hcase : (k <= 0)%Z \/ (1 <= k)%Z) by lia.
    destruct Hcase as [Hc|Hc]; apply IZR_le in Hc; lra.
Qed.

(** ** C3: what [get_order] returns *)

(** The loop, in terms of the quantity [x] of its body. *)
Lemma get_order_turns (angle : R) (rotoinversion : bool) (tol : R) :
  (get_order angle rotoinversion tol = Irrational <->
     forall n, (1 <= n <= 60)%Z -> ~ within_tol_of_integer (turns n angle) tol)
  /\ (forall r, get_order angle rotoinversion tol = Finite r <->
       exists n, (1 <= n <= 60)%Z
         /\ within_tol_of_integer (turns n angle) tol
         /\ (forall m, (1 <= m < n)%Z -> ~ within_tol_of_integer (turns m angle) tol)
         /\ r = if rotoinversion && Z.odd n then (2 * n)%Z else n).
Proof.
  unfold get_order.
  pose proof (order_loop_range angle tol 60 1) as HS.
  pose proof (order_loop_range_none angle tol 1 61) as HN.
  change (1 + Z.of_nat 60)%Z with 61%Z in HS.
  destruct (order_loop angle tol (range 1 61)) as [n0|] eqn:E.
  - destruct (proj1 (HS n0) eq_refl) as (Hr & Ht & Hm).
    assert (Hres : (if rotoinversion
                    then if (n0 mod 2 =? 1)%Z then Finite (n0 * 2) else Finite n0
                    else Finite n0)
                   = Finite (if rotoinversion && Z.odd n0 then (2 * n0)%Z else n0)).
    { rewrite Zmod_odd. destruct rotoinversion, (Z.odd n0); cbn [andb Z.eqb Pos.eqb];
        try reflexivity. f_equal; lia. }
    rewrite Hres. split.
    + split; [discriminate |]. intros H. exfalso.
      apply (H n0); [lia | now apply order_test_iff].
    + intros r. split.
      * intros [= <-]. exists n0. repeat split; try lia; auto.
        -- now apply order_test_iff.
        -- intros m Hmr. apply order_test_false_iff, Hm; lia.
      * intros (n & Hnr & Hn & Hmin & ->).
        assert (n = n0); [| subst; reflexivity].
        destruct (Z.lt_trichotomy n n0) as [Hlt|[Heq|Hgt]]; auto; exfalso.
        -- apply order_test_iff in Hn. rewrite Hm in Hn by lia. discriminate.
        -- apply (Hmin n0); [lia | now apply order_test_iff].
  - split.
    + split; auto. intros _ n Hn. apply order_test_false_iff.
      apply (proj1 HN eq_refl); lia.
    + intros r; split; [discriminate |].
      intros (n & Hnr & Hn & _). exfalso.
      apply order_test_iff in Hn. rewrite (proj1 HN eq_refl) in Hn by lia. discriminate.
Qed.

(** C3 (amended). For every angle of magnitude at most [10^6], every
    flag and tolerance, [get_order] answers ["irrational"] exactly when no
    [n] in [1..60] brings [n*angle/2π] within [tol] of an integer;
    otherwise it answers the least such [n], or twice that [n] when
    [rotoinversion] is set and [n] is odd. *)
Theorem get_order_spec (angle : R) (rotoinversion : bool) (tol : R) :
  Rabs angle <= 1000000 ->
  (get_order angle rotoinversion tol = Irrational <->
     forall n, (1 <= n <= 60)%Z ->
       ~ within_tol_of_integer (IZR n * angle / (2 * PI)) tol)
  /\ (forall r, get_order angle rotoinversion tol = Finite r <->
       exists n, (1 <= n <= 60)%Z
         /\ within_tol_of_integer (IZR n * angle / (2 * PI)) tol
         /\ (forall m, (1 <= m < n)%Z ->
               ~ within_tol_of_integer (IZR m * angle / (2 * PI)) tol)
         /\ r = if rotoinversion && Z.odd n then (2 * n)%Z else n).
Proof. intros _. exact (get_order_turns angle rotoinversion tol). Qed.

Lemma get_order_spec_witness :
  Rabs 1 <= 1000000
  /\ (get_order 1 false (1 / 100) = Irrational <->
      forall n, (1 <= n <= 60)%Z ->
        ~ within_tol_of_integer (IZR n * 1 / (2 * PI)) (1 / 100)).
Proof.
  assert (H : Rabs 1 <= 1000000) by (rewrite Rabs_R1; lra).
  split; [exact H |]. exact (proj1 (get_order_spec 1 false (1 / 100) H)).
Defined.

(** Nineteen digits of [π], from the series of [arctan (1/3)] and
    [arctan (1/7)]. *)
Lemma PI_digits :
  3141592653589793238 / 1000000000000000000 < PI
  /\ PI < 3141592653589793239 / 1000000000000000000.
Proof.
  pose proof (PI_2_3_7_ineq 10) as [Hlo Hhi].
  unfold sum_f_R0, tg_alt, PI_2_3_7_tg, Ratan_seq in Hlo, Hhi.
  simpl in Hlo, Hhi. split; lra.
Qed.

(** C3 (as stated, refuted).  At the angle [1e17] the double-precision
    quotient [1*angle/(2*pi)] is [15915494309189534], an integer like
    every double from [2^52] on, so the loop stops at [n = 1]; the exact
    quotient lies between [15915494309189533.57] and
    [15915494309189533.58], not within [0.01] of any integer. *)
Lemma get_order_large_angle :
  F64.get_order 100000000000000000 false 0.01 = Finite 1
  /\ ~ within_tol_of_integer (IZR 1 * 100000000000000000 / (2 * PI)) (1 / 100).
Proof.
  split; [vm_compute; reflexivity |].
  intros [k Hk]. apply Rabs_le_bounds in Hk.
  destruct PI_digits as [Hlo Hhi].
  assert (Hx : 15915494309189533 + 57 / 100
               < IZR 1 * 100000000000000000 / (2 * PI)
               < 15915494309189533 + 58 / 100).
  { assert (Hp : 0 < 2 * PI) by lra.
    split.
    - apply Rmult_lt_reg_r with (2 * PI); [exact Hp |].
      unfold Rdiv. rewrite Rmult_assoc, Rinv_l by lra. lra.
    - apply Rmult_lt_reg_r with (2 * PI); [exact Hp |].
      unfold Rdiv. rewrite Rmult_assoc, Rinv_l by lra. lra. }
  assert (Hcase : (k <= 15915494309189533)%Z \/ (15915494309189534 <= k)%Z) by lia.
  destruct Hcase as [Hc|Hc]; apply IZR_le in Hc; lra.
Qed.

(** ** C10: rotoinversion orders are even *)

(** C10. Whenever [get_order] with [rotoinversion=True] answers an integer,
    that integer is even, for every angle and tolerance. *)
Theorem get_order_rotoinversion_even (angle tol : R) (r : Z) :
  get_order angle true tol = Finite r -> Z.even r = true.
Proof.
  unfold get_order. destruct (order_loop angle tol (range 1 61)) as [n|]; [| discriminate].
  destruct (n mod 2 =? 1)%Z eqn:E; intros [= <-].
  - rewrite Z.even_mul. apply orb_true_r.
  - rewrite Zmod_odd in E. rewrite <- Z.negb_odd.
    destruct (Z.odd n); [discriminate | reflexivity].
Qed.

(** ** A full turn as a rotoinversion angle *)

Lemma get_order_full_turn : get_order (2 * pi) true get_order_tol = Finite 2.
Proof.
  apply (get_order_least (2 * pi) true get_order_tol 1); [lia | | intros m Hm; lia].
  apply order_test_iff. exists 1%Z. unfold turns.
  pose proof pi_bounds.
  replace (1 * (2 * pi) / (2 * pi) - 1) with 0 by (field; lra).
  rewrite Rabs_R0. unfold get_order_tol. lra.
Qed.

Lemma get_order_rotoinversion_even_witness :
  get_order (2 * pi) true get_order_tol = Finite 2 /\ Z.even 2 = true.
Proof.
  split; [exact get_order_full_turn |].
  exact (get_order_rotoinversion_even (2 * pi) get_order_tol 2 get_order_full_turn).
Defined.

(** ** Lemmas on [np.min] *)

Lemma fold_Rmin_le_init l : forall a, fold_left Rmin l a <= a.
Proof.
  induction l as [|x l IH]; intros a; simpl; [lra |].
  eapply Rle_trans; [apply IH | apply Rmin_l].
Qed.

Lemma fold_Rmin_le l : forall a x, In x l -> fold_left Rmin l a <= x.
Proof.
  induction l as [|y l IH]; intros a x []; simpl.
  - subst. eapply Rle_trans; [apply fold_Rmin_le_init | apply Rmin_r].
  - now apply IH.
Qed.

Lemma fold_Rmin_in l : forall a, fold_left Rmin l a = a \/ In (fold_left Rmin l a) l.
Proof.
  induction l as [|y l IH]; intros a; simpl; [now left |].
  destruct (IH (Rmin a y)) as [E|HIn]; [| now right; right].
  rewrite E. unfold Rmin. destruct (Rle_dec a y); [now left | now right; left].
Qed.

Lemma min_le l x : In x l -> Np.min l <= x.
Proof.
  destruct l as [|a l]; intros []; simpl.
  - subst; apply fold_Rmin_le_init.
  - now apply fold_Rmin_le.
Qed.

Lemma min_in l : l <> [] -> In (Np.min l) l.
Proof.
  destruct l as [|a l]; [congruence | intros _; simpl].
  destruct (fold_Rmin_in l a) as [E|H]; [left; now rewrite E | now right].
Qed.

(** The least element is determined by the set of elements. *)
Lemma min_unique l m : In m l -> (forall x, In x l -> m <= x) -> Np.min l = m.
Proof.
  intros Hm Hle. apply Rle_antisym; [now apply min_le |].
  apply Hle, min_in. intros ->; contradiction.
Qed.

Lemma min_same_elements l l' :
  l <> [] -> (forall x, In x l <-> In x l') -> Np.min l = Np.min l'.
Proof.
  intros Hne Hiff. symmetry. apply min_unique.
  - apply Hiff, min_in, Hne.
  - intros x Hx. apply min_le. now apply Hiff.
Qed.

Lemma lt_min l c : l <> [] -> (forall x, In x l -> c < x) -> c < Np.min l.
Proof. intros Hne H. apply H, min_in, Hne. Qed.

(** ** Lemmas on vectors *)

Lemma vec_ext a b : vx a = vx b -> vy a = vy b -> vz a = vz b -> a = b.
Proof. destruct a, b; simpl; intros; subst; reflexivity. Qed.

Ltac vec_ring :=
  apply vec_ext; cbn [vx vy vz vadd vsub vneg vscale dot_vm vzero row0 row1 row2
                         filtered_coords filter_vector]; ring.

Lemma vsub_zero a : vsub a vzero = a.
Proof. vec_ring. Qed.

Lemma vnorm_neg a : vnorm (vneg a) = vnorm a.
Proof. unfold vnorm, vdot; simpl. f_equal; ring. Qed.

Lemma vnorm_nonneg a : 0 <= vnorm a.
Proof. apply sqrt_pos. Qed.

Lemma vdot_self_nonneg a : 0 <= vdot a a.
Proof. unfold vdot. nra. Qed.

Lemma vnorm_zero : vnorm vzero = 0.
Proof. unfold vnorm, vdot; simpl. replace (0 * 0 + 0 * 0 + 0 * 0) with 0 by ring. apply sqrt_0. Qed.

Lemma vnorm_sub_sym a b : vnorm (vsub a b) = vnorm (vsub b a).
Proof. rewrite <- vnorm_neg. f_equal. vec_ring. Qed.

(** ** Lemmas on [create_matrix] and [filtered_coords] *)

Lemma offsets_zero b : In 0 (offsets b).
Proof. destruct b; simpl; auto. Qed.

Lemma offsets_opp b i : In i (offsets b) -> In (- i) (offsets b).
Proof.
  destruct b; simpl.
  - intros [<-|[<-|[<-|[]]]]; [right; right; left | right; left | left]; lra.
  - intros [<-|[]]; left; lra.
Qed.

Lemma create_matrix_In P v :
  In v (create_matrix P) <->
  In (vx v) (offsets (pbc0 P)) /\ In (vy v) (offsets (pbc1 P)) /\ In (vz v) (offsets (pbc2 P)).
Proof.
  unfold create_matrix. rewrite in_flat_map. split.
  - intros (i & Hi & H). apply in_flat_map in H as (j & Hj & H).
    apply in_map_iff in H as (k & <- & Hk). simpl; auto.
  - intros (Hi & Hj & Hk). exists (vx v). split; auto.
    apply in_flat_map. exists (vy v). split; auto.
    apply in_map_iff. exists (vz v). split; auto. now destruct v.
Qed.

Lemma create_matrix_zero P : In vzero (create_matrix P).
Proof. apply create_matrix_In; simpl; auto using offsets_zero. Qed.

Lemma create_matrix_nonempty P : create_matrix P <> [].
Proof. intros E. pose proof (create_matrix_zero P) as H. now rewrite E in H. Qed.

Lemma create_matrix_neg P v : In v (create_matrix P) -> In (vneg v) (create_matrix P).
Proof.
  rewrite !create_matrix_In. simpl. intros (Hi & Hj & Hk). auto using offsets_opp.
Qed.

(** Folding one coordinate twice is folding it once. *)
Lemma fold_coord_idem (b : bool) x :
  let y := x - Np.floor x * flag b in
  y - Np.floor y * flag b = y.
Proof.
  destruct b; simpl.
  - pose proof (floor_bound x) as B.
    rewrite (floor_eq 0 (x - Np.floor x * 1)) by lra. ring.
  - ring.
Qed.

Lemma filter_vector_idem P v : filter_vector P (filter_vector P v) = filter_vector P v.
Proof.
  apply vec_ext; cbn [vx vy vz filter_vector]; apply fold_coord_idem.
Qed.

(** The steps of [distance], read as one minimum over the translation set. *)
Lemma distance_unfold xyz L P :
  distance xyz L P =
  Np.min (map (fun v => vnorm (dot_vm (vadd v (filtered_coords xyz P)) L)) (create_matrix P)).
Proof.
  unfold distance, cdist. rewrite !map_map. f_equal.
  induction (create_matrix P) as [|v l IH]; simpl; [reflexivity |].
  rewrite vsub_zero. f_equal. exact IH.
Qed.

(** ** Square roots of concrete numbers *)

Lemma lt_sqrt c x : 0 <= c -> c * c < x -> c < sqrt x.
Proof.
  intros Hc H. rewrite <- (sqrt_square c) at 1 by exact Hc.
  apply sqrt_lt_1_alt. nra.
Qed.

Lemma le_sqrt c x : 0 <= c -> c * c <= x -> c <= sqrt x.
Proof.
  intros Hc H. rewrite <- (sqrt_square c) at 1 by exact Hc.
  apply sqrt_le_1_alt, H.
Qed.

Lemma sqrt_le_c c x : 0 <= c -> x <= c * c -> sqrt x <= c.
Proof.
  intros Hc H. rewrite <- (sqrt_square c) by exact Hc.
  apply sqrt_le_1_alt, H.
Qed.

Lemma sqrt_eq_c c x : 0 <= c -> x = c * c -> sqrt x = c.
Proof. intros Hc ->. now apply sqrt_square. Qed.

(** ** C1: the minimum-image distance *)

Lemma distance_filtered xyz L P :
  distance (filtered_coords xyz P) L P = distance xyz L P.
Proof.
  rewrite !distance_unfold. unfold filtered_coords. now rewrite filter_vector_idem.
Qed.

(** The distance is attained at a translation of the set, and is below the
    norm of every image the set reaches. *)
Lemma distance_min_image_attained xyz L P :
  exists v, In v (create_matrix P)
    /\ distance xyz L P = vnorm (dot_vm (vadd v (filtered_coords xyz P)) L).
Proof.
  rewrite distance_unfold.
  set (f := fun v => vnorm (dot_vm (vadd v (filtered_coords xyz P)) L)).
  assert (Hne : map f (create_matrix P) <> []).
  { intros E. apply map_eq_nil in E. now apply create_matrix_nonempty in E. }
  apply min_in, in_map_iff in Hne as (v & Hv & HIn).
  exists v. split; auto.
Qed.

Lemma distance_min_image_below xyz L P v :
  In v (create_matrix P) ->
  distance xyz L P <= vnorm (dot_vm (vadd v (filtered_coords xyz P)) L).
Proof.
  intros Hv. rewrite distance_unfold. apply min_le.
  apply in_map_iff. exists v. split; auto.
Qed.

Lemma sheared_disp_filtered : filtered_coords sheared_disp full_pbc = sheared_disp.
Proof.
  apply vec_ext; cbn [vx vy vz filtered_coords filter_vector sheared_disp full_pbc
                         pbc0 pbc1 pbc2 flag];
    rewrite (floor_eq 0) by lra; lra.
Qed.

Lemma sheared_distance_far : 1 / 2 < distance sheared_disp sheared_lattice full_pbc.
Proof.
  rewrite distance_unfold, sheared_disp_filtered.
  apply lt_min.
  - intros E. apply map_eq_nil in E. now apply create_matrix_nonempty in E.
  - intros x Hx. apply in_map_iff in Hx as (v & <- & Hv).
    apply lt_sqrt; [lra |].
    cbn in Hv. unfold vdot, dot_vm, sheared_lattice, sheared_disp.
    repeat (destruct Hv as [<-|Hv]; [cbn [vx vy vz vadd vscale row0 row1 row2]; lra |]).
    destruct Hv.
Qed.

(** C1 (as stated, refuted). In the cell with edges (1,0,0), (5,1,0),
    (0,0,1) and full periodicity, the displacement (1/2, 1/2, 0) has the
    periodic image (-5/2, 1/2, 0) of norm 1/2, nearer than every image the
    translation set reaches: [distance] is not the norm of the nearest
    periodic image. *)
Lemma distance_not_nearest_image :
  ~ nearest_image_norm sheared_disp sheared_lattice full_pbc
      (distance sheared_disp sheared_lattice full_pbc).
Proof.
  intros [_ H]. specialize (H (-3)%Z 0%Z 0%Z).
  pose proof sheared_distance_far as Hfar.
  assert (E : vnorm (dot_vm (periodic_image sheared_disp full_pbc (-3) 0 0) sheared_lattice)
              = 1 / 2).
  { unfold vnorm. apply sqrt_eq_c; [lra |].
    unfold vdot, dot_vm, periodic_image, sheared_lattice, sheared_disp, full_pbc.
    cbn [vx vy vz vadd vscale row0 row1 row2 pbc0 pbc1 pbc2 flag]. lra. }
  lra.
Qed.

(** ** The minimum-image distance in an orthorhombic cell *)

Lemma sq_le_abs u w : Rabs u <= Rabs w -> u * u <= w * w.
Proof.
  intros H. unfold Rabs in H.
  destruct (Rcase_abs u), (Rcase_abs w); nra.
Qed.

(** Along one axis, an offset of the translation set brings the folded
    coordinate at least as near to zero as any integer shift does. *)
Lemma nearest_offset (b : bool) x (n : Z) :
  exists v, In v (offsets b)
    /\ Rabs (v + (x - Np.floor x * flag b)) <= Rabs (x + IZR n * flag b).
Proof.
  destruct b; cbn [flag offsets].
  - pose proof (floor_bound x) as B. unfold Np.floor in *.
    set (m := (Zfloor x + n)%Z).
    assert (E : x + IZR n * 1 = (x - IZR (Zfloor x)) + IZR m)
      by (unfold m; rewrite plus_IZR; ring).
    destruct (Z_le_gt_dec 0 m) as [Hm|Hm].
    + exists 0. split; [simpl; auto |]. rewrite E. apply IZR_le in Hm.
      rewrite !Rabs_right; lra.
    + exists (-1). split; [simpl; auto |]. rewrite E.
      assert (Hm' : IZR m <= -1) by (apply IZR_le; lia).
      rewrite !Rabs_left1; lra.
  - exists 0. split; [simpl; auto |]. right. f_equal. ring.
Qed.

Lemma offsets_integer b v : In v (offsets b) -> exists k : Z, v = IZR k * flag b.
Proof.
  destruct b; cbn [offsets flag In].
  - intros [<-|[<-|[<-|[]]]]; [exists (-1)%Z | exists 0%Z | exists 1%Z]; lra.
  - intros [<-|[]]. exists 0%Z. lra.
Qed.

Lemma floor_integer x b : exists k : Z, - (Np.floor x * flag b) = IZR k * flag b.
Proof. exists (- Zfloor x)%Z. unfold Np.floor. rewrite opp_IZR. ring. Qed.

Lemma vnorm_diag a b c v :
  vnorm (dot_vm v (diag a b c))
  = sqrt (a * a * (vx v * vx v) + b * b * (vy v * vy v) + c * c * (vz v * vz v)).
Proof.
  unfold vnorm, vdot, dot_vm, diag. cbn [vx vy vz vadd vscale row0 row1 row2]. f_equal. ring.
Qed.

(** In an orthorhombic cell the translation set is enough: [distance] is
    the norm of the nearest of all periodic images. *)
Lemma distance_diag_nearest xyz a b c P :
  nearest_image_norm xyz (diag a b c) P (distance xyz (diag a b c) P).
Proof.
  split.
  - destruct (distance_min_image_attained xyz (diag a b c) P) as (v & Hv & ->).
    apply create_matrix_In in Hv as (H0 & H1 & H2).
    destruct (offsets_integer _ _ H0) as [k0 E0].
    destruct (offsets_integer _ _ H1) as [k1 E1].
    destruct (offsets_integer _ _ H2) as [k2 E2].
    exists (k0 - Zfloor (vx xyz))%Z, (k1 - Zfloor (vy xyz))%Z, (k2 - Zfloor (vz xyz))%Z.
    do 2 f_equal. apply vec_ext;
      cbn [vx vy vz vadd filtered_coords filter_vector periodic_image];
      unfold Np.floor; rewrite minus_IZR; lra.
  - intros n0 n1 n2.
    destruct (nearest_offset (pbc0 P) (vx xyz) n0) as (v0 & H0 & L0).
    destruct (nearest_offset (pbc1 P) (vy xyz) n1) as (v1 & H1 & L1).
    destruct (nearest_offset (pbc2 P) (vz xyz) n2) as (v2 & H2 & L2).
    eapply Rle_trans.
    + apply (distance_min_image_below xyz (diag a b c) P (mkVec v0 v1 v2)).
      apply create_matrix_In; cbn [vx vy vz]; auto.
    + rewrite !vnorm_diag. apply sqrt_le_1_alt.
      cbn [vx vy vz vadd filtered_coords filter_vector periodic_image].
      apply sq_le_abs in L0, L1, L2.
      pose proof (Rle_0_sqr a) as Ha. pose proof (Rle_0_sqr b) as Hb.
      pose proof (Rle_0_sqr c) as Hc. unfold Rsqr in *.
      apply Rplus_le_compat; [apply Rplus_le_compat |];
        apply Rmult_le_compat_l; assumption.
Qed.

Lemma offsets_explicit (b : bool) (x : R) :
  In x (offsets b) <-> (if b then x = -1 \/ x = 0 \/ x = 1 else x = 0).
Proof.
  destruct b; cbn [offsets In]; split; intros H.
  - destruct H as [H|[H|[H|[]]]]; auto.
  - destruct H as [H|[H|H]]; auto.
  - destruct H as [H|[]]; auto.
  - now left.
Qed.

(** C1 (amended). The translation set holds exactly the vectors with -1,
    0 or 1 along every periodic axis and 0 along the others; folding
    subtracts the floor along periodic axes; the distance of a displacement
    is the least Cartesian norm among the images of the folded displacement
    by these translations: it is attained at one of them and is below all
    of them.  It equals the distance of the folded displacement whenever
    folding the folded displacement again returns it.  In an orthorhombic
    cell it is the norm of the nearest of all periodic images. *)
Theorem distance_min_image (xyz : Vec3) (L : Mat3) (P : PBC) :
  (forall v, In v (create_matrix P) <->
     (if pbc0 P then vx v = -1 \/ vx v = 0 \/ vx v = 1 else vx v = 0)
     /\ (if pbc1 P then vy v = -1 \/ vy v = 0 \/ vy v = 1 else vy v = 0)
     /\ (if pbc2 P then vz v = -1 \/ vz v = 0 \/ vz v = 1 else vz v = 0))
  /\ filtered_coords xyz P
     = mkVec (vx xyz - IZR (Zfloor (vx xyz)) * (if pbc0 P then 1 else 0))
             (vy xyz - IZR (Zfloor (vy xyz)) * (if pbc1 P then 1 else 0))
             (vz xyz - IZR (Zfloor (vz xyz)) * (if pbc2 P then 1 else 0))
  /\ (exists v, In v (create_matrix P)
        /\ distance xyz L P = vnorm (dot_vm (vadd v (filtered_coords xyz P)) L))
  /\ (forall v, In v (create_matrix P) ->
        distance xyz L P <= vnorm (dot_vm (vadd v (filtered_coords xyz P)) L))
  /\ (filtered_coords (filtered_coords xyz P) P = filtered_coords xyz P ->
        distance xyz L P = distance (filtered_coords xyz P) L P)
  /\ (forall a b c, L = diag a b c -> nearest_image_norm xyz L P (distance xyz L P)).
Proof.
  split; [| split; [| split; [| split; [| split]]]].
  - intros v. rewrite create_matrix_In, !offsets_explicit. reflexivity.
  - reflexivity.
  - apply distance_min_image_attained.
  - intros v Hv. now apply distance_min_image_below.
  - intros Hfix. rewrite (distance_unfold (filtered_coords xyz P)), Hfix.
    apply distance_unfold.
  - intros a b c ->. apply distance_diag_nearest.
Qed.

(** The same displacement in double precision: the distance of the
    displacement [(-2^-60, 0.25, 0)] in the sheared cell and the distance
    of its folded image differ, since the first coordinate folds to
    exactly 1 and, folded again, to 0. *)
Lemma distance_fold_rounding :
  F64.filtered_coords F64.edge_disp full_pbc = F64.mkVec 1 0.25 0
  /\ F64.filtered_coords (F64.filtered_coords F64.edge_disp full_pbc) full_pbc
     = F64.mkVec 0 0.25 0
  /\ F64.distance F64.edge_disp F64.skew_lattice full_pbc = 1.0307764064044151%float
  /\ F64.distance (F64.filtered_coords F64.edge_disp full_pbc) F64.skew_lattice full_pbc
     = 0.25%float.
Proof. repeat split; vm_compute; reflexivity. Qed.

(** ** C5: the distance matrix under a swap of the two point sets *)

Lemma nth_map_seq {A} (f : nat -> A) n i d : (i < n)%nat -> nth i (map f (seq 0 n)) d = f i.
Proof.
  intros H. rewrite (nth_indep _ d (f 0%nat)) by (now rewrite length_map, length_seq).
  rewrite map_nth, seq_nth by exact H. reflexivity.
Qed.

Lemma nth_map_in {A B} (f : A -> B) l i d d' :
  (i < length l)%nat -> nth i (map f l) d' = f (nth i l d).
Proof.
  intros H. rewrite (nth_indep _ d' (f d)) by (now rewrite length_map).
  apply map_nth.
Qed.

Lemma cell_cdist XA XB i j :
  (i < length XA)%nat -> (j < length XB)%nat ->
  cell (cdist XA XB) i j = vnorm (vsub (nth i XA vzero) (nth j XB vzero)).
Proof.
  intros Hi Hj. unfold cell, cdist.
  rewrite (nth_map_in _ XA i vzero) by exact Hi.
  now rewrite (nth_map_in _ XB j vzero) by exact Hj.
Qed.

Lemma cell_min_along_axis0 n1 n2 all i j :
  (i < n1)%nat -> (j < n2)%nat ->
  cell (min_along_axis0 n1 n2 all) i j = Np.min (map (fun d => cell d i j) all).
Proof.
  intros Hi Hj. unfold cell at 1. unfold min_along_axis0.
  rewrite nth_map_seq by exact Hi. now rewrite nth_map_seq by exact Hj.
Qed.

(** Every cell of the distance matrix, in closed form. *)
Lemma distance_matrix_cell A B lattice P i j :
  (i < length A)%nat -> (j < length B)%nat ->
  cell (distance_matrix A B lattice P) i j =
  let lat := effective_lattice lattice in
  if pbc_nonzero P then
    Np.min (map (fun v => vnorm (vsub (cart lat (vadd (filter_vector P (nth i A vzero)) v))
                                      (cart lat (filter_vector P (nth j B vzero)))))
                (create_matrix P))
  else vnorm (vsub (cart lat (nth i A vzero)) (cart lat (nth j B vzero))).
Proof.
  intros Hi Hj. unfold distance_matrix. fold (effective_lattice lattice). cbv zeta.
  destruct (effective_lattice lattice) as [L|], (pbc_nonzero P); cbn [cart].
  - rewrite cell_min_along_axis0 by assumption. rewrite !map_map. f_equal.
    apply map_ext; intros v. unfold filtered_coords_array.
    rewrite cell_cdist by (now rewrite !length_map).
    rewrite !(nth_map_in _ _ _ vzero) by (now rewrite ?length_map). reflexivity.
  - rewrite cell_cdist by (now rewrite length_map).
    now rewrite !(nth_map_in _ _ _ vzero) by assumption.
  - rewrite cell_min_along_axis0 by assumption. rewrite !map_map. f_equal.
    apply map_ext; intros v. unfold filtered_coords_array.
    rewrite cell_cdist by (now rewrite !length_map).
    rewrite !(nth_map_in _ _ _ vzero) by (now rewrite ?length_map). reflexivity.
  - now apply cell_cdist.
Qed.

Lemma cart_add lat a b : cart lat (vadd a b) = vadd (cart lat a) (cart lat b).
Proof. destruct lat; cbn [cart]; [vec_ring | reflexivity]. Qed.

Lemma cart_neg lat a : cart lat (vneg a) = vneg (cart lat a).
Proof. destruct lat; cbn [cart]; [vec_ring | reflexivity]. Qed.

(** Translating the first point by [v] or the second by [-v] gives the same
    separation. *)
Lemma image_swap lat a b v :
  vnorm (vsub (cart lat (vadd a v)) (cart lat b)) =
  vnorm (vsub (cart lat (vadd b (vneg v))) (cart lat a)).
Proof.
  rewrite <- vnorm_neg. f_equal. rewrite !cart_add, cart_neg. vec_ring.
Qed.

(** C5 (amended). In exact arithmetic, swapping the two point sets
    transposes the distance matrix: cell [(i, j)] of [distance_matrix A B]
    and cell [(j, i)] of [distance_matrix B A] are the same real number,
    for every lattice and all flags; the program computes the two along
    different sequences of roundings. *)
Theorem distance_matrix_swap (A B : list Vec3) (lattice : option Mat3) (P : PBC)
  (i j : nat) :
  (i < length A)%nat -> (j < length B)%nat ->
  cell (distance_matrix A B lattice P) i j = cell (distance_matrix B A lattice P) j i.
Proof.
  intros Hi Hj. rewrite !distance_matrix_cell by assumption. cbv zeta.
  destruct (pbc_nonzero P); [| apply vnorm_sub_sym].
  set (lat := effective_lattice lattice).
  set (a := filter_vector P (nth i A vzero)). set (b := filter_vector P (nth j B vzero)).
  apply min_same_elements.
  - intros E. apply map_eq_nil in E. now apply create_matrix_nonempty in E.
  - intros x. rewrite !in_map_iff. split; intros (v & <- & Hv); exists (vneg v);
      (split; [| now apply create_matrix_neg]).
    + symmetry. apply image_swap.
    + rewrite image_swap. do 3 f_equal. vec_ring.
Qed.

Lemma distance_matrix_swap_witness :
  (0 < length sample_points1)%nat /\ (0 < length sample_points2)%nat
  /\ cell (distance_matrix sample_points1 sample_points2 (Some sheared_lattice) full_pbc) 0 0
     = cell (distance_matrix sample_points2 sample_points1 (Some sheared_lattice) full_pbc) 0 0.
Proof.
  split; [simpl; lia |]. split; [simpl; lia |].
  apply (distance_matrix_swap sample_points1 sample_points2 (Some sheared_lattice) full_pbc 0 0);
    simpl; lia.
Defined.

(** C5 (as stated, refuted).  In double precision, for the points
    [(0.1, 0, 0)] and [(0.9, 0, 0)] in the identity lattice with full
    periodicity, the two cells are [0.20000000000000007] and
    [0.19999999999999998]: the translation is added to the first point
    set only, and [(0.1 + 1) - 0.9] and [(0.9 - 1) - 0.1] round
    differently. *)
Lemma distance_matrix_swap_rounding :
  F64.cell (F64.distance_matrix [F64.mkVec 0.1 0 0] [F64.mkVec 0.9 0 0]
              (Some F64.eye3) full_pbc) 0 0
  = 0.20000000000000007%float
  /\ F64.cell (F64.distance_matrix [F64.mkVec 0.9 0 0] [F64.mkVec 0.1 0 0]
                 (Some F64.eye3) full_pbc) 0 0
     = 0.19999999999999998%float
  /\ PrimFloat.eqb
       (F64.cell (F64.distance_matrix [F64.mkVec 0.1 0 0] [F64.mkVec 0.9 0 0]
                    (Some F64.eye3) full_pbc) 0 0)
       (F64.cell (F64.distance_matrix [F64.mkVec 0.9 0 0] [F64.mkVec 0.1 0 0]
                    (Some F64.eye3) full_pbc) 0 0)
     = false.
Proof. repeat split; vm_compute; reflexivity. Qed.

(** ** C4: [find_short_dist] on three colinear points *)

Lemma find_short_dist_nonempty coor lattice tol P :
  coor <> [] -> find_short_dist coor lattice tol P = find_short_dist_from coor lattice tol P.
Proof. destruct coor; [congruence | reflexivity]. Qed.

Lemma list_nth_seq {A} (l : list A) d : l = map (fun i => nth i l d) (seq 0 (length l)).
Proof.
  induction l as [|a l IH]; [reflexivity |].
  cbn [length seq map nth]. f_equal.
  rewrite <- seq_shift, map_map. exact IH.
Qed.

(** A matrix is the table of its cells. *)
Lemma matrix_cells d n1 n2 :
  length d = n1 -> Forall (fun r => length r = n2) d ->
  d = map (fun i => map (fun j => cell d i j) (seq 0 n2)) (seq 0 n1).
Proof.
  intros <- Hrows. rewrite (list_nth_seq d []) at 1.
  apply map_ext_in; intros i Hi. apply in_seq in Hi.
  assert (Hr : length (nth i d []) = n2).
  { rewrite Forall_forall in Hrows. apply Hrows, nth_In. lia. }
  rewrite (list_nth_seq (nth i d []) 0) at 1. now rewrite Hr.
Qed.

Lemma cdist_shape XA XB :
  length (cdist XA XB) = length XA
  /\ Forall (fun r => length r = length XB) (cdist XA XB).
Proof.
  unfold cdist. split; [apply length_map |].
  apply Forall_forall; intros r Hr. apply in_map_iff in Hr as (a & <- & _).
  apply length_map.
Qed.

Lemma min_along_axis0_shape n1 n2 all :
  length (min_along_axis0 n1 n2 all) = n1
  /\ Forall (fun r => length r = n2) (min_along_axis0 n1 n2 all).
Proof.
  unfold min_along_axis0. split; [now rewrite length_map, length_seq |].
  apply Forall_forall; intros r Hr. apply in_map_iff in Hr as (i & <- & _).
  now rewrite length_map, length_seq.
Qed.

Lemma distance_matrix_shape A B lattice P :
  length (distance_matrix A B lattice P) = length A
  /\ Forall (fun r => length r = length B) (distance_matrix A B lattice P).
Proof.
  unfold distance_matrix. fold (effective_lattice lattice). cbv zeta.
  destruct (effective_lattice lattice) as [L|], (pbc_nonzero P);
    try apply min_along_axis0_shape.
  - pose proof (cdist_shape (map (fun p => dot_vm p L) A) (map (fun p => dot_vm p L) B)) as H.
    now rewrite !length_map in H.
  - apply cdist_shape.
Qed.

Lemma vec_eqb_refl a : vec_eqb a a = true.
Proof. unfold vec_eqb. now rewrite !eqb_true. Qed.

Lemma mat_eqb_refl m : mat_eqb m m = true.
Proof. unfold mat_eqb. now rewrite !vec_eqb_refl. Qed.

(** A point of the unit cell is its own folding. *)
Lemma filter_vector_unit P p :
  0 <= vx p < 1 -> 0 <= vy p < 1 -> 0 <= vz p < 1 -> filter_vector P p = p.
Proof.
  intros Hx Hy Hz. apply vec_ext; cbn [vx vy vz filter_vector];
    rewrite (floor_eq 0) by lra; lra.
Qed.

Lemma colinear_cell i j :
  (i < 3)%nat -> (j < 3)%nat ->
  cell (distance_matrix colinear_points colinear_points (Some eye3) full_pbc) i j =
  cube_separation (nth i colinear_points vzero) (nth j colinear_points vzero).
Proof.
  intros Hi Hj. rewrite distance_matrix_cell by exact Hi || exact Hj.
  cbv zeta. cbn [effective_lattice]. rewrite mat_eqb_refl. cbn [pbc_nonzero full_pbc pbc0 orb cart].
  unfold cube_separation. f_equal. apply map_ext; intros v.
  assert (Hu : forall k, (k < 3)%nat ->
             filter_vector full_pbc (nth k colinear_points vzero) = nth k colinear_points vzero).
  { intros k Hk. apply filter_vector_unit;
      destruct k as [|[|[|k]]]; cbn [nth colinear_points vx vy vz]; try lra; lia. }
  now rewrite !Hu by assumption.
Qed.

(** Two points of the cube whose direct separation is small enough pass the
    test [d <= tol]. *)
Lemma cube_separation_close p q tol :
  0 <= tol -> vdot (vsub p q) (vsub p q) <= tol * tol ->
  Np.leb (cube_separation p q) tol = true.
Proof.
  intros Ht H. apply leb_true. unfold cube_separation.
  eapply Rle_trans.
  - apply min_le, in_map_iff. exists vzero. split; [reflexivity | apply create_matrix_zero].
  - apply sqrt_le_c; [exact Ht |].
    replace (vsub (vadd p vzero) q) with (vsub p q) by vec_ring. exact H.
Qed.

Ltac all_translations Hv tac :=
  cbn in Hv; repeat (destruct Hv as [<-|Hv]; [tac |]); destruct Hv.

Lemma colinear_far_02 :
  Np.leb (cube_separation (mkVec 0 0 0) (mkVec (2 / 10) 0 0)) (15 / 100) = false.
Proof.
  apply leb_false, lt_min.
  - intros E. apply map_eq_nil in E. now apply create_matrix_nonempty in E.
  - intros x Hx. apply in_map_iff in Hx as (v & <- & Hv).
    apply lt_sqrt; [lra |]. unfold vdot, vsub, vadd.
    all_translations Hv ltac:(cbn [vx vy vz]; lra).
Qed.

Lemma colinear_far_20 :
  Np.leb (cube_separation (mkVec (2 / 10) 0 0) (mkVec 0 0 0)) (15 / 100) = false.
Proof.
  apply leb_false, lt_min.
  - intros E. apply map_eq_nil in E. now apply create_matrix_nonempty in E.
  - intros x Hx. apply in_map_iff in Hx as (v & <- & Hv).
    apply lt_sqrt; [lra |]. unfold vdot, vsub, vadd.
    all_translations Hv ltac:(cbn [vx vy vz]; lra).
Qed.

(** The boolean array [d <= tol] of the example. *)
Lemma colinear_mask :
  np_le (distance_matrix colinear_points colinear_points (Some eye3) full_pbc) (15 / 100)
  = [[true; true; false]; [true; true; true]; [false; true; true]].
Proof.
  destruct (distance_matrix_shape colinear_points colinear_points (Some eye3) full_pbc)
    as [Hlen Hrows].
  rewrite (matrix_cells _ 3 3 Hlen Hrows). unfold np_le.
  cbn [seq map]. rewrite !colinear_cell by lia. cbn [nth colinear_points].
  rewrite colinear_far_02, colinear_far_20.
  rewrite !cube_separation_close; try reflexivity; try lra;
    unfold vdot, vsub; cbn [vx vy vz]; lra.
Qed.

Lemma colinear_close_01 :
  cube_separation (mkVec 0 0 0) (mkVec (1 / 10) 0 0) = 1 / 10.
Proof.
  unfold cube_separation. apply min_unique.
  - apply in_map_iff. exists vzero. split; [| apply create_matrix_zero].
    apply sqrt_eq_c; [lra |]. unfold vdot, vsub, vadd, vzero; cbn [vx vy vz]. lra.
  - intros x Hx. apply in_map_iff in Hx as (v & <- & Hv).
    apply le_sqrt; [lra |]. unfold vdot, vsub, vadd.
    all_translations Hv ltac:(cbn [vx vy vz]; lra).
Qed.

Lemma colinear_close_12 :
  cube_separation (mkVec (1 / 10) 0 0) (mkVec (2 / 10) 0 0) = 1 / 10.
Proof.
  unfold cube_separation. apply min_unique.
  - apply in_map_iff. exists vzero. split; [| apply create_matrix_zero].
    apply sqrt_eq_c; [lra |]. unfold vdot, vsub, vadd, vzero; cbn [vx vy vz]. lra.
  - intros x Hx. apply in_map_iff in Hx as (v & <- & Hv).
    apply le_sqrt; [lra |]. unfold vdot, vsub, vadd.
    all_translations Hv ltac:(cbn [vx vy vz]; lra).
Qed.

(** C4 (the code at the spec's own example). Three colinear points at
    separations 0.1, 0.1 and 0.2 in the unit cube, [tol = 0.15]: the pairs
    (0,1) and (1,2) are the pairs [i < j] at distance at most [tol], both
    at distance 0.1; [find_short_dist] returns no pair and an empty graph. *)
Theorem find_short_dist_colinear :
  let d := distance_matrix colinear_points colinear_points (Some eye3) full_pbc in
  find_short_dist colinear_points (Some eye3) (15 / 100) full_pbc
    = Some ([], [[]; []; []])
  /\ close_pairs d 3 (15 / 100) = [(0%nat, 1%nat, 1 / 10); (1%nat, 2%nat, 1 / 10)].
Proof.
  intros d. split.
  - rewrite find_short_dist_nonempty by discriminate.
    unfold find_short_dist_from. cbv zeta.
    rewrite colinear_mask. reflexivity.
  - pose proof colinear_mask as M. fold d in M.
    destruct (distance_matrix_shape colinear_points colinear_points (Some eye3) full_pbc)
      as [Hlen Hrows]. fold d in Hlen, Hrows.
    rewrite (matrix_cells d 3 3 Hlen Hrows) in M. unfold np_le in M. cbn [seq map] in M.
    injection M as M00 M01 M02 M10 M11 M12 M20 M21 M22.
    unfold close_pairs. cbn [seq flat_map Nat.ltb Nat.leb andb app].
    rewrite M01, M02, M12. cbn [app].
    unfold d. rewrite !colinear_cell by lia. cbn [nth colinear_points].
    now rewrite colinear_close_01, colinear_close_12.
Qed.

(** ** [find_short_dist] on a second example *)

Ltac far_cell :=
  apply leb_false, lt_min;
  [ intros E; apply map_eq_nil in E; now apply create_matrix_nonempty in E
  | let x := fresh "x" in let Hx := fresh "Hx" in let v := fresh "v" in
    let Hv := fresh "Hv" in
    intros x Hx; apply in_map_iff in Hx as (v & <- & Hv);
    apply lt_sqrt; [lra |]; unfold vdot, vsub, vadd;
    all_translations Hv ltac:(cbn [vx vy vz]; lra) ].

Ltac cell_value :=
  unfold cube_separation; apply min_unique;
  [ apply in_map_iff; exists vzero; split; [| apply create_matrix_zero];
    apply sqrt_eq_c; [lra |]; unfold vdot, vsub, vadd, vzero; cbn [vx vy vz]; lra
  | let x := fresh "x" in let Hx := fresh "Hx" in let v := fresh "v" in
    let Hv := fresh "Hv" in
    intros x Hx; apply in_map_iff in Hx as (v & <- & Hv);
    apply le_sqrt; [lra |]; unfold vdot, vsub, vadd;
    all_translations Hv ltac:(cbn [vx vy vz]; lra) ].

Lemma scattered_cell i j :
  (i < 3)%nat -> (j < 3)%nat ->
  cell (distance_matrix scattered_points scattered_points (Some eye3) full_pbc) i j =
  cube_separation (nth i scattered_points vzero) (nth j scattered_points vzero).
Proof.
  intros Hi Hj. rewrite distance_matrix_cell by exact Hi || exact Hj.
  cbv zeta. cbn [effective_lattice]. rewrite mat_eqb_refl.
  cbn [pbc_nonzero full_pbc pbc0 orb cart].
  unfold cube_separation. f_equal. apply map_ext; intros v.
  assert (Hu : forall k, (k < 3)%nat ->
             filter_vector full_pbc (nth k scattered_points vzero)
             = nth k scattered_points vzero).
  { intros k Hk. apply filter_vector_unit;
      destruct k as [|[|[|k]]]; cbn [nth scattered_points vx vy vz]; try lra; lia. }
  now rewrite !Hu by assumption.
Qed.

Lemma scattered_far_01 :
  Np.leb (cube_separation (mkVec 0 0 0) (mkVec (5 / 10) 0 0)) (15 / 100) = false.
Proof. far_cell. Qed.

Lemma scattered_far_10 :
  Np.leb (cube_separation (mkVec (5 / 10) 0 0) (mkVec 0 0 0)) (15 / 100) = false.
Proof. far_cell. Qed.

Lemma scattered_far_12 :
  Np.leb (cube_separation (mkVec (5 / 10) 0 0) (mkVec (1 / 10) 0 0)) (15 / 100) = false.
Proof. far_cell. Qed.

Lemma scattered_far_21 :
  Np.leb (cube_separation (mkVec (1 / 10) 0 0) (mkVec (5 / 10) 0 0)) (15 / 100) = false.
Proof. far_cell. Qed.

Lemma scattered_value_12 :
  cube_separation (mkVec (5 / 10) 0 0) (mkVec (1 / 10) 0 0) = 4 / 10.
Proof. cell_value. Qed.

Lemma scattered_mask :
  np_le (distance_matrix scattered_points scattered_points (Some eye3) full_pbc) (15 / 100)
  = [[true; false; true]; [false; true; false]; [true; false; true]].
Proof.
  destruct (distance_matrix_shape scattered_points scattered_points (Some eye3) full_pbc)
    as [Hlen Hrows].
  rewrite (matrix_cells _ 3 3 Hlen Hrows). unfold np_le.
  cbn [seq map]. rewrite !scattered_cell by lia. cbn [nth scattered_points].
  rewrite scattered_far_01, scattered_far_10, scattered_far_12, scattered_far_21.
  rewrite !cube_separation_close; try reflexivity; try lra;
    unfold vdot, vsub; cbn [vx vy vz]; lra.
Qed.

(** Points at 0, 0.5 and 0.1 with [tol = 0.15]: the only close pair is
    (0, 2); the function returns the pair (1, 2), whose distance 0.4 is
    above [tol], and links 1 and 2 in the graph. *)
Lemma find_short_dist_scattered :
  find_short_dist scattered_points (Some eye3) (15 / 100) full_pbc
  = Some ([(1%nat, 2%nat, 4 / 10)], [[]; [2%nat]; [1%nat]]).
Proof.
  rewrite find_short_dist_nonempty by discriminate.
  unfold find_short_dist_from. cbv zeta. rewrite scattered_mask.
  cbn [np_where enumerate length seq combine flat_map filter map fst snd app
       np_unique list_max fold_right Nat.max existsb Nat.eqb orb
       pairs_loop nth_error Nat.leb].
  rewrite scattered_cell by lia. cbn [nth scattered_points]. rewrite scattered_value_12.
  cbn [length Nat.ltb Nat.leb map pair_dist snd Np.min fold_left].
  cbn [filter]. rewrite leb_true by lra. reflexivity.
Qed.

(** ** C8: [verify_distances] *)

Lemma enumerate_from {A} (l : list A) d : forall s,
  combine (seq s (length l)) l = map (fun j => (j, nth (j - s) l d)) (seq s (length l)).
Proof.
  induction l as [|a l IH]; intros s; [reflexivity |].
  cbn [length seq combine map]. rewrite Nat.sub_diag. cbn [nth]. f_equal.
  rewrite IH. apply map_ext_in; intros j Hj. apply in_seq in Hj.
  replace (j - s)%nat with (S (j - S s)) by lia. reflexivity.
Qed.

Lemma enumerate_seq {A} (l : list A) d :
  enumerate l = map (fun j => (j, nth j l d)) (seq 0 (length l)).
Proof.
  unfold enumerate. rewrite (enumerate_from l d 0).
  apply map_ext; intros j. now rewrite Nat.sub_0_r.
Qed.

Lemma index_nth {A} (l : list A) i d : (i < length l)%nat -> index l i = Ok (nth i l d).
Proof.
  intros H. unfold index. destruct (nth_error l i) eqn:E.
  - now rewrite (nth_error_nth _ _ d E).
  - apply nth_error_None in E. lia.
Qed.

Section VerifyDistances.

Variable radius : Species -> R.
Variable coordinates : list Vec3.
Variable species : list Species.
Variable lattice : Mat3.
Variable factor : R.
Variable P : PBC.

Let G := mkGlobals (Some radius).
Let bad := violates_b radius coordinates species lattice factor P.

Hypothesis species_long : (length coordinates <= length species)%nat.

Lemma verify_inner_bound i js :
  (i < length coordinates)%nat ->
  (forall j, In j js -> (j < length coordinates)%nat) ->
  verify_inner G species lattice factor P i (nth i coordinates vzero)
    (nth i species ""%string) (map (fun j => (j, nth j coordinates vzero)) js)
  = Ok (if existsb (fun j => (i <? j)%nat && bad (i, j)) js then Some false else None).
Proof.
  intros Hi. induction js as [|j js IH]; intros Hjs; [reflexivity |].
  cbn [map verify_inner existsb]. unfold verify_pair.
  destruct (i <? j)%nat eqn:Eij; cbn [andb orb bind].
  - rewrite (index_nth species j ""%string) by (specialize (Hjs j (or_introl eq_refl)); lia).
    cbn [bind lookup_Element G g_Element].
    unfold bad, violates_b, pair_tolerance. cbn [fst snd].
    destruct (Np.ltb _ _); cbn [orb]; [reflexivity |].
    apply IH. intros k Hk; apply Hjs; now right.
  - apply IH. intros k Hk; apply Hjs; now right.
Qed.

Lemma verify_outer_bound rows :
  (forall i, In i rows -> (i < length coordinates)%nat) ->
  verify_outer G coordinates species lattice factor P
    (map (fun i => (i, nth i coordinates vzero)) rows)
  = Ok (if existsb (fun i => existsb (fun j => (i <? j)%nat && bad (i, j))
                                     (seq 0 (length coordinates))) rows
        then Some false else None).
Proof.
  induction rows as [|i rows IH]; intros Hrows; [reflexivity |].
  cbn [map verify_outer existsb].
  assert (Hi : (i < length coordinates)%nat) by (apply Hrows; now left).
  rewrite (index_nth species i ""%string) by lia. cbn [bind].
  rewrite (enumerate_seq coordinates vzero).
  rewrite verify_inner_bound by (auto; intros j Hj; apply in_seq in Hj; lia).
  cbn [bind]. destruct (existsb _ (seq 0 (length coordinates))); cbn [orb]; [reflexivity |].
  apply IH. intros k Hk; apply Hrows; now right.
Qed.

Lemma existsb_triangle (f : nat * nat -> bool) cols rows :
  existsb f (flat_map (fun i => map (fun j => (i, j)) (filter (fun j => (i <? j)%nat) cols))
                      rows)
  = existsb (fun i => existsb (fun j => (i <? j)%nat && f (i, j)) cols) rows.
Proof.
  induction rows as [|i rows IH]; [reflexivity |].
  cbn [flat_map existsb]. rewrite existsb_app, IH. f_equal. clear IH.
  induction cols as [|j js IHj]; [reflexivity |].
  cbn [filter existsb]. destruct (i <? j)%nat; cbn [map existsb andb orb]; now rewrite IHj.
Qed.

(** With [Element] bound to a table of radii, the loops return [False]
    exactly when some pair of the upper triangle is below its tolerance. *)
Lemma verify_distances_bound :
  verify_distances G coordinates species lattice factor P
  = Ok (negb (existsb bad (upper_pairs (length coordinates)))).
Proof.
  unfold verify_distances. rewrite (enumerate_seq coordinates vzero).
  rewrite verify_outer_bound by (intros i Hi; apply in_seq in Hi; lia).
  cbn [bind]. unfold upper_pairs. rewrite existsb_triangle.
  now destruct (existsb _ (seq 0 (length coordinates))).
Qed.

End VerifyDistances.

(** As the module is written, the name [Element] is unbound: as soon as a
    second atom is reached the call raises [NameError]. *)
Lemma verify_distances_unbound c0 c1 cs s0 s1 ss lattice factor P :
  verify_distances module_globals (c0 :: c1 :: cs) (s0 :: s1 :: ss) lattice factor P
  = Raise (NameError "Element"%string).
Proof. reflexivity. Qed.

(** C8 (the code at a concrete input). For two carbon atoms in the unit
    cube [verify_distances] raises [NameError] on the name [Element]
    instead of returning a boolean; were [Element] bound to a table of
    radii, the same call would return [False] exactly when the one pair
    (0, 1) is below its tolerance. *)
Theorem verify_distances_two_atoms :
  verify_distances module_globals two_atoms two_carbons eye3 1 full_pbc
    = Raise (NameError "Element"%string)
  /\ forall radius,
       verify_distances (mkGlobals (Some radius)) two_atoms two_carbons eye3 1 full_pbc
       = Ok (negb (violates_b radius two_atoms two_carbons eye3 1 full_pbc (0%nat, 1%nat))).
Proof.
  split; [reflexivity |]. intros radius.
  rewrite verify_distances_bound by (simpl; lia).
  unfold upper_pairs. cbn [two_atoms length seq flat_map filter map Nat.ltb Nat.leb app existsb].
  now rewrite orb_false_r.
Qed.

(** ** Matrices: closeness and orthogonality *)

Lemma mat_ext a b : row0 a = row0 b -> row1 a = row1 b -> row2 a = row2 b -> a = b.
Proof. destruct a, b; simpl; intros; subst; reflexivity. Qed.

Ltac mat_simpl :=
  cbn [vx vy vz vadd vsub vneg vscale vdiv dot_vm dot_mm transpose mscale
       col0 col1 col2 row0 row1 row2 eye3].

Ltac mat_ring := apply mat_ext; apply vec_ext; mat_simpl; ring.

Lemma isclose_refl a rtol atol : 0 <= rtol -> 0 <= atol -> Np.isclose a a rtol atol = true.
Proof.
  intros Hr Ha. apply leb_true. replace (a - a) with 0 by ring. rewrite Rabs_R0.
  pose proof (Rabs_pos a). nra.
Qed.

Lemma allclose_refl a rtol atol : 0 <= rtol -> 0 <= atol -> allclose a a rtol atol = true.
Proof.
  intros Hr Ha. destruct a as [[? ? ?] [? ? ?] [? ? ?]].
  unfold allclose, mat_to_list, vec_to_list.
  cbn [row0 row1 row2 vx vy vz app combine forallb fst snd].
  now rewrite !isclose_refl by assumption.
Qed.

Lemma default_atol_pos : 0 < Np.default_atol.
Proof. unfold Np.default_atol. lra. Qed.

Lemma is_orthogonal_exact m tol :
  0 <= tol -> dot_mm m (transpose m) = eye3 -> dot_mm (transpose m) m = eye3 ->
  is_orthogonal m tol = true.
Proof.
  intros Ht H1 H2. unfold is_orthogonal. cbv zeta. rewrite H1, H2.
  pose proof default_atol_pos.
  now rewrite allclose_refl by lra.
Qed.

Lemma is_orthogonal_tol_pos : 0 <= is_orthogonal_tol.
Proof. unfold is_orthogonal_tol. lra. Qed.

(** ** Rotation matrices about a unit axis *)

Lemma vnorm_unit axis : vdot axis axis = 1 -> vnorm axis = 1.
Proof. intros H. unfold vnorm. rewrite H. apply sqrt_1. Qed.

Lemma vdiv_unit axis : vdot axis axis = 1 -> vdiv axis (vnorm axis) = axis.
Proof.
  intros H. rewrite (vnorm_unit axis H). apply vec_ext; cbn [vdiv vx vy vz]; field.
Qed.

(** The matrix of [aa2matrix] for an axis that is already a unit vector. *)
Lemma aa2matrix_unit axis angle :
  vdot axis axis = 1 ->
  aa2matrix axis angle =
  let x := vx axis in let y := vy axis in let z := vz axis in
  let c := cos angle in let s := sin angle in let C := 1 - c in
  mkMat (mkVec (x * x * C + c) (x * y * C - z * s) (x * z * C + y * s))
        (mkVec (y * x * C + z * s) (y * y * C + c) (y * z * C - x * s))
        (mkVec (z * x * C - y * s) (z * y * C + x * s) (z * z * C + c)).
Proof. intros H. unfold aa2matrix. now rewrite (vdiv_unit axis H). Qed.

Lemma sin_cos_unit angle : sin angle * sin angle + cos angle * cos angle = 1.
Proof. exact (sin2_cos2 angle). Qed.

Lemma aa2matrix_orthogonal axis angle :
  vdot axis axis = 1 ->
  dot_mm (aa2matrix axis angle) (transpose (aa2matrix axis angle)) = eye3
  /\ dot_mm (transpose (aa2matrix axis angle)) (aa2matrix axis angle) = eye3.
Proof.
  intros H. rewrite (aa2matrix_unit axis angle H). cbv zeta.
  pose proof (sin_cos_unit angle) as Hsc.
  destruct axis as [x y z]. unfold vdot in H. cbn [vx vy vz] in *.
  generalize dependent (cos angle). generalize dependent (sin angle). intros s c Hsc.
  split; apply mat_ext; apply vec_ext; mat_simpl; nsatz.
Qed.

Lemma aa2matrix_det axis angle : vdot axis axis = 1 -> det (aa2matrix axis angle) = 1.
Proof.
  intros H. rewrite (aa2matrix_unit axis angle H). cbv zeta.
  pose proof (sin_cos_unit angle) as Hsc.
  destruct axis as [x y z]. unfold vdot in H. unfold det. cbn [vx vy vz row0 row1 row2] in *.
  generalize dependent (cos angle). generalize dependent (sin angle). intros s c Hsc.
  nsatz.
Qed.

Lemma aa2matrix_is_orthogonal axis angle :
  vdot axis axis = 1 -> is_orthogonal (aa2matrix axis angle) is_orthogonal_tol = true.
Proof.
  intros H. destruct (aa2matrix_orthogonal axis angle H) as [H1 H2].
  apply is_orthogonal_exact; auto using is_orthogonal_tol_pos.
Qed.

Lemma aa2matrix_zero axis : vdot axis axis = 1 -> aa2matrix axis 0 = eye3.
Proof.
  intros H. rewrite (aa2matrix_unit axis 0 H). cbv zeta. rewrite cos_0, sin_0.
  unfold eye3. apply mat_ext; apply vec_ext; cbn [vx vy vz row0 row1 row2]; ring.
Qed.

Lemma z_axis_unit : vdot z_axis z_axis = 1.
Proof. unfold vdot, z_axis; cbn [vx vy vz]. ring. Qed.

(** ** The stand-in [rotvec_model] meets the contract *)

Lemma aa2matrix_trace axis angle :
  vdot axis axis = 1 -> (trace (aa2matrix axis angle) - 1) / 2 = cos angle.
Proof.
  intros H. rewrite (aa2matrix_unit axis angle H). cbv zeta.
  destruct axis as [x y z]. unfold vdot in H. unfold trace. cbn [vx vy vz row0 row1 row2] in *.
  replace (x * x * (1 - cos angle) + cos angle + (y * y * (1 - cos angle) + cos angle)
           + (z * z * (1 - cos angle) + cos angle))
    with ((x * x + y * y + z * z) * (1 - cos angle) + 3 * cos angle) by ring.
  rewrite H. field.
Qed.

Lemma rotvec_model_contract : rotvec_contract rotvec_model.
Proof.
  intros axis angle Hu [H0 Hpi]. unfold rotvec_model. cbv zeta.
  rewrite (aa2matrix_trace axis angle Hu).
  rewrite acos_cos by lra.
  destruct (Req_dec angle 0) as [->|Hne].
  - rewrite sin_0, eqb_true by reflexivity. apply vec_ext; cbn [vzero vscale vx vy vz]; ring.
  - assert (Hs : 0 < sin angle) by (apply sin_gt_0; lra).
    rewrite eqb_false by lra.
    rewrite (aa2matrix_unit axis angle Hu). cbv zeta.
    apply vec_ext; cbn [vscale vx vy vz row0 row1 row2]; field; lra.
Qed.

(** ** Classification of rotation matrices *)

Lemma axis_angle_zero : axis_angle vzero = (IsNone, 0).
Proof.
  unfold axis_angle. rewrite ltb_true; [reflexivity |].
  unfold vdot, vzero; cbn [vx vy vz]. lra.
Qed.

Lemma axis_angle_scaled axis angle :
  vdot axis axis = 1 -> 1 / 1000 <= angle ->
  axis_angle (vscale angle axis) = (Val axis, angle).
Proof.
  intros Hu Ha. unfold axis_angle.
  assert (Hd : vdot (vscale angle axis) (vscale angle axis) = angle * angle).
  { unfold vdot in *. cbn [vscale vx vy vz].
    replace (angle * vx axis * (angle * vx axis) + angle * vy axis * (angle * vy axis)
             + angle * vz axis * (angle * vz axis))
      with (angle * angle * (vx axis * vx axis + vy axis * vy axis + vz axis * vz axis))
      by ring.
    rewrite Hu. ring. }
  rewrite ltb_false by (rewrite Hd; nra).
  unfold vnorm. rewrite Hd, sqrt_square by lra.
  f_equal. f_equal. apply vec_ext; cbn [vdiv vscale vx vy vz]; field; lra.
Qed.

Lemma isclose_zero_false angle :
  1 / 1000 <= angle -> Np.isclose angle 0 Np.default_rtol Np.default_atol = false.
Proof.
  intros H. apply leb_false. rewrite Rabs_R0, Rminus_0_r, Rabs_right by lra.
  unfold Np.default_atol, Np.default_rtol. lra.
Qed.

Lemma isclose_zero_true : Np.isclose 0 0 Np.default_rtol Np.default_atol = true.
Proof.
  apply isclose_refl; unfold Np.default_atol, Np.default_rtol; lra.
Qed.

(** A rotation matrix of angle between 0.001 and pi is classified as a
    rotation of that angle about that axis. *)
Lemma init_rotation f axis angle :
  rotvec_contract f -> vdot axis axis = 1 -> 1 / 1000 <= angle < PI ->
  init f (ArgArray3x3 (aa2matrix axis angle))
  = ([], Ok (rotation_state (aa2matrix axis angle) axis angle)).
Proof.
  intros Hf Hu [Hlo Hhi]. unfold init, classify.
  cbn [rotation_matrix from_rotation_and_translation a_m getval bind].
  rewrite aa2matrix_is_orthogonal by exact Hu. cbn [negb].
  rewrite aa2matrix_det by exact Hu. rewrite ltb_true by lra.
  rewrite (Hf axis angle Hu) by lra.
  rewrite axis_angle_scaled by assumption.
  rewrite isclose_zero_false by exact Hlo.
  unfold rotation_state, set_classification.
  cbn [a_op a_tol a_affine_matrix a_m a_det].
  now rewrite aa2matrix_det by exact Hu.
Qed.

Lemma eye3_orthogonal : is_orthogonal eye3 is_orthogonal_tol = true.
Proof. apply is_orthogonal_exact; [apply is_orthogonal_tol_pos | mat_ring | mat_ring]. Qed.

Lemma neg_eye3_orthogonal : is_orthogonal neg_eye3 is_orthogonal_tol = true.
Proof.
  apply is_orthogonal_exact; [apply is_orthogonal_tol_pos | |];
    apply mat_ext; apply vec_ext; unfold neg_eye3; mat_simpl; ring.
Qed.

Lemma contract_eye3 f : rotvec_contract f -> f eye3 = vzero.
Proof.
  intros Hf. rewrite <- (aa2matrix_zero z_axis z_axis_unit).
  rewrite (Hf z_axis 0 z_axis_unit) by (pose proof PI_RGT_0; lra).
  apply vec_ext; cbn [vscale vzero vx vy vz]; ring.
Qed.

Lemma init_identity f :
  rotvec_contract f ->
  init f (ArgArray3x3 eye3)
  = ([], Ok (mkAnalyzer (Val (from_rotation_and_translation eye3 vzero)) Unset Unset
               (Val eye3) (Val (det eye3)) (Val false) (Val Identity) IsNone (Val 0)
               (Val (Finite 1)) (Val (Finite 1)))).
Proof.
  intros Hf. unfold init, classify.
  cbn [rotation_matrix from_rotation_and_translation a_m getval bind].
  rewrite eye3_orthogonal. cbn [negb].
  rewrite ltb_true by (unfold det, eye3; cbn [vx vy vz row0 row1 row2]; lra).
  rewrite (contract_eye3 f Hf), axis_angle_zero, isclose_zero_true. reflexivity.
Qed.

Lemma init_inversion f :
  rotvec_contract f ->
  init f (ArgArray3x3 neg_eye3)
  = ([], Ok (mkAnalyzer (Val (from_rotation_and_translation neg_eye3 vzero)) Unset Unset
               (Val neg_eye3) (Val (det neg_eye3)) (Val true) (Val Inversion) IsNone (Val 0)
               (Val (Finite 2)) (Val (Finite 1)))).
Proof.
  intros Hf. unfold init, classify.
  cbn [rotation_matrix from_rotation_and_translation a_m getval bind].
  rewrite neg_eye3_orthogonal. cbn [negb].
  assert (Hd : det neg_eye3 = -1)
    by (unfold det, neg_eye3; cbn [vx vy vz row0 row1 row2]; ring).
  rewrite ltb_false by lra. rewrite ltb_true by lra.
  replace (mscale (-1) neg_eye3) with eye3
    by (apply mat_ext; apply vec_ext; unfold neg_eye3; mat_simpl; ring).
  rewrite (contract_eye3 f Hf), axis_angle_zero, isclose_zero_true. reflexivity.
Qed.

(** ** C2: identity, inversion and sixfold rotations *)

(** C2. Whatever function meets scipy's contract for the rotation vector:
    the identity matrix is classified as the identity, of order 1 and angle
    0; its negative as the inversion, of order 2; and the rotation matrix of
    angle pi/3 about any unit axis as a rotation of order 6 and of angle
    pi/3, which is 1.0472 to four decimals. *)
Theorem classify_examples (f : Mat3 -> Vec3) :
  rotvec_contract f ->
  (exists a, init f (ArgArray3x3 eye3) = ([], Ok a)
     /\ a_type a = Val Identity /\ a_order a = Val (Finite 1) /\ a_angle a = Val 0)
  /\ (exists a, init f (ArgArray3x3 neg_eye3) = ([], Ok a)
     /\ a_type a = Val Inversion /\ a_order a = Val (Finite 2))
  /\ (forall axis, vdot axis axis = 1 ->
      exists a angle, init f (ArgArray3x3 (aa2matrix axis (pi / 3))) = ([], Ok a)
        /\ a_type a = Val Rotation /\ a_order a = Val (Finite 6)
        /\ a_angle a = Val angle /\ Rabs (angle - 10472 / 10000) < 5 / 100000).
Proof.
  intros Hf. split; [| split].
  - eexists. split; [apply init_identity, Hf |]. repeat split.
  - eexists. split; [apply init_inversion, Hf |]. repeat split.
  - intros axis Hu. pose proof pi_bounds as Hpi.
    exists (rotation_state (aa2matrix axis (pi / 3)) axis (pi / 3)), (pi / 3).
    split; [apply init_rotation; auto; unfold pi in *; lra |].
    unfold rotation_state; cbn [a_type a_order a_angle].
    rewrite get_order_sixth. repeat split.
    apply Rabs_def1; lra.
Qed.

Lemma classify_examples_witness :
  rotvec_contract rotvec_model
  /\ (exists a, init rotvec_model (ArgArray3x3 eye3) = ([], Ok a)
        /\ a_type a = Val Identity /\ a_order a = Val (Finite 1) /\ a_angle a = Val 0)
  /\ (exists a angle,
        init rotvec_model (ArgArray3x3 (aa2matrix z_axis (pi / 3))) = ([], Ok a)
        /\ a_type a = Val Rotation /\ a_order a = Val (Finite 6)
        /\ a_angle a = Val angle /\ Rabs (angle - 10472 / 10000) < 5 / 100000).
Proof.
  split; [exact rotvec_model_contract |]. split.
  - exact (proj1 (classify_examples rotvec_model rotvec_model_contract)).
  - exact (proj2 (proj2 (classify_examples rotvec_model rotvec_model_contract))
             z_axis z_axis_unit).
Defined.

(** ** C9: the constructor on an argument it does not recognise *)

(** C9 (the code at the failing inputs). For an argument that is neither a
    [SymmOp] nor an array, the constructor reports its message with
    priority 1, which [printx] hands to [warn] at every verbosity, and then
    raises [AttributeError] on reading [self.m]; for an array of another
    shape it raises the same error and reports nothing. *)
Theorem init_unrecognised (f : Mat3 -> Vec3) :
  init f ArgOther = ([init_message], Raise (AttributeError "m"))
  /\ msg_priority init_message = 1%Z
  /\ (forall verbosity, printx verbosity init_message = [Warned (msg_text init_message)])
  /\ init f ArgArrayOther = ([], Raise (AttributeError "m")).
Proof. repeat split. Qed.

(** ** Invariants of the constructor *)

Lemma axis_angle_cases rotvec :
  (axis_angle rotvec = (IsNone, 0))
  \/ (exists v angle, axis_angle rotvec = (Val v, angle) /\ 1 / 1000 <= angle).
Proof.
  unfold axis_angle. destruct (Np.ltb (vdot rotvec rotvec) (1 / 1000000)) eqn:E.
  - now left.
  - right. eexists _, _. split; [reflexivity |].
    assert (H : ~ vdot rotvec rotvec < 1 / 1000000).
    { intros H. apply ltb_true in H. congruence. }
    unfold vnorm. apply le_sqrt; lra.
Qed.

Lemma det_trichotomy d : Np.ltb 0 d = false -> Np.ltb d 0 = false -> Np.eqb d 0 = true.
Proof.
  intros H1 H2. apply eqb_true.
  destruct (Rtotal_order d 0) as [H|[H|H]]; auto.
  - apply ltb_true in H. congruence.
  - apply ltb_true in H. congruence.
Qed.

(** Every analyzer the second half of [__init__] returns has a type, and a
    rotation or rotoinversion has an angle of at least 0.001. *)
Lemma classify_typed f self a :
  classify f self = Ok a ->
  exists t, a_type a = Val t
    /\ (is_rotational t = true -> exists angle, a_angle a = Val angle /\ 1 / 1000 <= angle).
Proof.
  unfold classify. destruct (a_m self) as [| |m]; cbn [getval bind]; try discriminate.
  destruct (is_orthogonal m is_orthogonal_tol); cbn [negb].
  - destruct (Np.ltb 0 (det m)) eqn:Epos.
    + destruct (axis_angle_cases (f m)) as [E|(v & angle & E & Hang)]; rewrite E.
      * rewrite isclose_zero_true. intros [= <-]. exists Identity. split; [reflexivity |].
        discriminate.
      * rewrite isclose_zero_false by exact Hang. intros [= <-]. exists Rotation.
        split; [reflexivity |]. intros _. exists angle. now split.
    + destruct (Np.ltb (det m) 0) eqn:Eneg.
      * destruct (axis_angle_cases (f (mscale (-1) m))) as [E|(v & angle & E & Hang)];
          rewrite E.
        -- rewrite isclose_zero_true. intros [= <-]. exists Inversion.
           split; [reflexivity | discriminate].
        -- rewrite isclose_zero_false by exact Hang. intros [= <-]. exists Rotoinversion.
           split; [reflexivity |]. intros _. exists angle. now split.
      * rewrite (det_trichotomy _ Epos Eneg). intros [= <-]. exists Degenerate.
        split; [reflexivity | discriminate].
  - intros [= <-]. exists General. split; [reflexivity | discriminate].
Qed.

Lemma classified_typed f a :
  classified f a ->
  exists t, a_type a = Val t
    /\ (is_rotational t = true -> exists angle, a_angle a = Val angle /\ 1 / 1000 <= angle).
Proof.
  intros (arg & msgs & H). destruct arg; cbn [init] in H; injection H as _ H;
    now apply classify_typed in H.
Qed.

Lemma optype_eqb_eq a b : optype_eqb a b = true <-> a = b.
Proof. destruct a, b; simpl; split; intros; congruence. Qed.

Lemma optype_eqb_refl a : optype_eqb a a = true.
Proof. now apply optype_eqb_eq. Qed.

Lemma optype_eqb_neq a b : a <> b -> optype_eqb a b = false.
Proof.
  intros H. destruct (optype_eqb a b) eqn:E; [| reflexivity].
  apply optype_eqb_eq in E. contradiction.
Qed.

Lemma isclose_iff a b rtol atol :
  Np.isclose a b rtol atol = true <-> Rabs (a - b) <= atol + rtol * Rabs b.
Proof. unfold Np.isclose. apply leb_iff. Qed.

(** ** C7: [is_conjugate] *)

(** C7 (amended). For two analyzers the constructor returned:
    [is_conjugate] answers [False] when their types differ and [True] when
    both are the identity or both the inversion; for two rotations or two
    rotoinversions both angles are positive and the answer is [True]
    exactly when [|angle_a / angle_b|] is within [1e-2 + 1e-5] of 1. *)
Theorem is_conjugate_spec (f : Mat3 -> Vec3) (a b : Analyzer) :
  classified f a -> classified f b ->
  exists ta tb, a_type a = Val ta /\ a_type b = Val tb
    /\ (ta <> tb -> is_conjugate f a (ConjAnalyzer b) = Ok AnsFalse)
    /\ (ta = tb -> is_pointlike ta = true ->
          is_conjugate f a (ConjAnalyzer b) = Ok AnsTrue)
    /\ (ta = tb -> is_rotational ta = true ->
          exists angle_a angle_b,
            a_angle a = Val angle_a /\ a_angle b = Val angle_b
            /\ 0 < angle_a /\ 0 < angle_b
            /\ (is_conjugate f a (ConjAnalyzer b) = Ok AnsTrue <->
                Rabs (Rabs (angle_a / angle_b) - 1) <= conjugate_tolerance)).
Proof.
  intros Ha Hb.
  destruct (classified_typed f a Ha) as (ta & Eta & Hra).
  destruct (classified_typed f b Hb) as (tb & Etb & Hrb).
  exists ta, tb. repeat split; auto.
  - intros Hne. unfold is_conjugate. rewrite Eta, Etb. cbn [getval bind].
    rewrite optype_eqb_neq by congruence. reflexivity.
  - intros <- Hp. unfold is_conjugate. rewrite Eta, Etb. cbn [getval bind].
    rewrite optype_eqb_refl. destruct ta; try discriminate; reflexivity.
  - intros <- Hr.
    destruct (Hra Hr) as (angle_a & Eaa & Hla). destruct (Hrb Hr) as (angle_b & Eab & Hlb).
    exists angle_a, angle_b. repeat split; auto; try lra.
    + unfold is_conjugate. rewrite Eta, Etb. cbn [getval bind].
      rewrite optype_eqb_refl, Hr, Eaa, Eab. cbn [getval bind].
      assert (Hpos : 0 < angle_a / angle_b) by (apply Rdiv_lt_0_compat; lra).
      rewrite (Rabs_right (angle_a / angle_b)) by lra.
      destruct (Np.isclose _ _ _ _) eqn:E; intros H; [| discriminate].
      apply isclose_iff in E. rewrite Rabs_R1 in E. exact E.
    + unfold is_conjugate. rewrite Eta, Etb. cbn [getval bind].
      rewrite optype_eqb_refl, Hr, Eaa, Eab. cbn [getval bind].
      assert (Hpos : 0 < angle_a / angle_b) by (apply Rdiv_lt_0_compat; lra).
      rewrite (Rabs_right (angle_a / angle_b)) by lra.
      intros H. assert (E : Np.isclose (angle_a / angle_b) 1 Np.default_rtol conjugate_atol = true).
      { apply isclose_iff. rewrite Rabs_R1. exact H. }
      now rewrite E.
Qed.

Lemma PI_gt_3 : 3 < PI.
Proof. pose proof PI2_3_2. lra. Qed.

Lemma classified_rotation_unit : classified rotvec_model rotation_unit.
Proof.
  exists (ArgArray3x3 (aa2matrix z_axis 1)), [].
  apply init_rotation; [exact rotvec_model_contract | exact z_axis_unit |].
  pose proof PI_gt_3. lra.
Qed.

Lemma classified_rotation_wide : classified rotvec_model rotation_wide.
Proof.
  exists (ArgArray3x3 (aa2matrix z_axis wide_angle)), [].
  apply init_rotation; [exact rotvec_model_contract | exact z_axis_unit |].
  pose proof PI_gt_3. unfold wide_angle. lra.
Qed.

Lemma is_conjugate_spec_witness :
  classified rotvec_model rotation_wide /\ classified rotvec_model rotation_unit
  /\ exists ta tb, a_type rotation_wide = Val ta /\ a_type rotation_unit = Val tb
    /\ (ta <> tb ->
          is_conjugate rotvec_model rotation_wide (ConjAnalyzer rotation_unit) = Ok AnsFalse)
    /\ (ta = tb -> is_pointlike ta = true ->
          is_conjugate rotvec_model rotation_wide (ConjAnalyzer rotation_unit) = Ok AnsTrue)
    /\ (ta = tb -> is_rotational ta = true ->
          exists angle_a angle_b,
            a_angle rotation_wide = Val angle_a /\ a_angle rotation_unit = Val angle_b
            /\ 0 < angle_a /\ 0 < angle_b
            /\ (is_conjugate rotvec_model rotation_wide (ConjAnalyzer rotation_unit)
                  = Ok AnsTrue <->
                Rabs (Rabs (angle_a / angle_b) - 1) <= conjugate_tolerance)).
Proof.
  split; [exact classified_rotation_wide |]. split; [exact classified_rotation_unit |].
  exact (is_conjugate_spec rotvec_model rotation_wide rotation_unit
           classified_rotation_wide classified_rotation_unit).
Defined.

(** C7 (as stated, refuted). Two rotations about z, of angles 1.010005 and
    1, both returned by the constructor: the ratio of their angles is not
    within [1e-2] of 1, and [is_conjugate] answers [True]. *)
Lemma is_conjugate_beyond_tolerance :
  classified rotvec_model rotation_wide /\ classified rotvec_model rotation_unit
  /\ a_type rotation_wide = Val Rotation /\ a_type rotation_unit = Val Rotation
  /\ a_angle rotation_wide = Val wide_angle /\ a_angle rotation_unit = Val 1
  /\ is_conjugate rotvec_model rotation_wide (ConjAnalyzer rotation_unit) = Ok AnsTrue
  /\ ~ Rabs (Rabs (wide_angle / 1) - 1) <= 1 / 100.
Proof.
  split; [exact classified_rotation_wide |]. split; [exact classified_rotation_unit |].
  repeat split.
  - unfold is_conjugate, rotation_wide, rotation_unit, rotation_state.
    cbn [a_type a_angle getval bind optype_eqb is_rotational].
    rewrite (proj2 (isclose_iff _ _ _ _)); [reflexivity |].
    rewrite Rabs_R1. unfold wide_angle, conjugate_atol, Np.default_rtol.
    apply Rabs_le. lra.
  - unfold wide_angle. intros H. apply Rabs_le_bounds in H.
    rewrite Rabs_right in H by lra. lra.
Qed.

(** Where the docstring promises [False], the method can fall off its end
    and answer [None]: two analyzers of type [general]. *)
Lemma twice_eye3_not_orthogonal : is_orthogonal twice_eye3 is_orthogonal_tol = false.
Proof.
  unfold is_orthogonal. cbv zeta.
  assert (E : allclose (dot_mm twice_eye3 (transpose twice_eye3)) eye3
                is_orthogonal_tol Np.default_atol = false).
  { unfold allclose, mat_to_list, vec_to_list, twice_eye3. mat_simpl.
    cbn [app combine forallb fst snd].
    rewrite (proj1 (Bool.not_true_iff_false _)); [reflexivity |].
    intros H. apply andb_prop in H as [H _].
    apply isclose_iff in H. rewrite Rabs_R1 in H.
    apply Rabs_le_bounds in H.
    unfold is_orthogonal_tol, Np.default_atol in H. lra. }
  now rewrite E.
Qed.

Lemma init_general f :
  init f (ArgArray3x3 twice_eye3) = ([], Ok (general_state twice_eye3)).
Proof.
  unfold init, classify.
  cbn [rotation_matrix from_rotation_and_translation a_m getval bind].
  now rewrite twice_eye3_not_orthogonal.
Qed.

Lemma is_conjugate_general_none f :
  classified f (general_state twice_eye3)
  /\ is_conjugate f (general_state twice_eye3) (ConjAnalyzer (general_state twice_eye3))
     = Ok AnsNone.
Proof.
  split; [| reflexivity].
  exists (ArgArray3x3 twice_eye3), []. apply init_general.
Qed.

(** ** C6: what the calls leave behind *)

Lemma zero_if_close_idem x : zero_if_close (zero_if_close x) = zero_if_close x.
Proof.
  unfold zero_if_close.
  destruct (Np.isclose x 0 Np.default_rtol Np.default_atol) eqn:E.
  - now rewrite isclose_zero_true.
  - now rewrite E.
Qed.

Lemma normalize_axis_idem v : normalize_axis (normalize_axis v) = normalize_axis v.
Proof.
  unfold normalize_axis; cbn [vx vy vz]. now rewrite !zero_if_close_idem.
Qed.

Lemma zero_if_close_spec x :
  (Rabs x <= 1 / 100000000 -> zero_if_close x = 0)
  /\ (1 / 100000000 < Rabs x -> zero_if_close x = x).
Proof.
  unfold zero_if_close.
  destruct (Np.isclose x 0 Np.default_rtol Np.default_atol) eqn:E.
  - split; [reflexivity |]. intros H. apply isclose_iff in E.
    rewrite Rminus_0_r, Rabs_R0 in E. unfold Np.default_atol in E. lra.
  - split; [| reflexivity]. intros H.
    rewrite (proj2 (isclose_iff x 0 Np.default_rtol Np.default_atol)) in E;
      [discriminate |].
    rewrite Rminus_0_r, Rabs_R0. unfold Np.default_atol. lra.
Qed.

(** C6 (amended). Rendering the summary never changes the operation, the
    matrix, the determinant, the type, the angle or the orders of an
    analyzer; an axis that is [None] or unset stays so, and of an axis
    that is a vector each component within [1e-8] of zero is overwritten
    with 0 and every other component is kept; a second rendering changes
    nothing more. *)
Theorem str_frame (self : Analyzer) :
  let self' := snd (str self) in
  a_op self' = a_op self /\ a_tol self' = a_tol self
  /\ a_affine_matrix self' = a_affine_matrix self
  /\ a_m self' = a_m self /\ a_det self' = a_det self
  /\ a_inverted self' = a_inverted self /\ a_type self' = a_type self
  /\ a_angle self' = a_angle self /\ a_order self' = a_order self
  /\ a_rotation_order self' = a_rotation_order self
  /\ match a_axis self with
     | Val v => exists v', a_axis self' = Val v'
         /\ (Rabs (vx v) <= 1 / 100000000 -> vx v' = 0)
         /\ (1 / 100000000 < Rabs (vx v) -> vx v' = vx v)
         /\ (Rabs (vy v) <= 1 / 100000000 -> vy v' = 0)
         /\ (1 / 100000000 < Rabs (vy v) -> vy v' = vy v)
         /\ (Rabs (vz v) <= 1 / 100000000 -> vz v' = 0)
         /\ (1 / 100000000 < Rabs (vz v) -> vz v' = vz v)
     | _ => a_axis self' = a_axis self
     end
  /\ snd (str self') = self'.
Proof.
  unfold str. destruct self as [op tol aff m d inv ty axis ang ord rord].
  cbn [a_axis]. destruct axis as [| |v]; cbn [getattr snd set_axis a_op a_tol
    a_affine_matrix a_m a_det a_inverted a_type a_axis a_angle a_order a_rotation_order];
    repeat (split; [reflexivity |]).
  - split; reflexivity.
  - split; reflexivity.
  - split; [| now rewrite normalize_axis_idem].
    exists (normalize_axis v). split; [reflexivity |]. cbn [normalize_axis vx vy vz].
    destruct (zero_if_close_spec (vx v)) as [X0 X1].
    destruct (zero_if_close_spec (vy v)) as [Y0 Y1].
    destruct (zero_if_close_spec (vz v)) as [Z0 Z1].
    repeat split; assumption.
Qed.

Lemma tilted_axis_unit : vdot tilted_axis tilted_axis = 1.
Proof.
  unfold vdot, tilted_axis; cbn [vx vy vz]. rewrite sqrt_sqrt by lra. lra.
Qed.

Lemma classified_tilted_rotation : classified rotvec_model tilted_rotation.
Proof.
  exists (ArgArray3x3 (aa2matrix tilted_axis (pi / 3))), [].
  apply init_rotation; [exact rotvec_model_contract | exact tilted_axis_unit |].
  pose proof pi_bounds. unfold pi in *. lra.
Qed.

(** C6 (as stated, refuted). The constructor returns, for the sixfold
    rotation about the unit axis (1e-9, 0, sqrt(1 - 1e-18)), an analyzer
    whose axis has first component 1e-9; after the summary is rendered the
    first component of its axis is 0. *)
Lemma str_changes_axis :
  classified rotvec_model tilted_rotation
  /\ a_axis tilted_rotation = Val tilted_axis
  /\ vx tilted_axis = 1 / 1000000000
  /\ (exists v', a_axis (snd (str tilted_rotation)) = Val v' /\ vx v' = 0)
  /\ a_axis (snd (str tilted_rotation)) <> a_axis tilted_rotation.
Proof.
  assert (Hz : zero_if_close (1 / 1000000000) = 0).
  { unfold zero_if_close. rewrite (proj2 (isclose_iff _ _ _ _)); [reflexivity |].
    rewrite Rminus_0_r, Rabs_R0, Rabs_right by lra.
    unfold Np.default_atol, Np.default_rtol. lra. }
  split; [exact classified_tilted_rotation |]. repeat split.
  - exists (normalize_axis tilted_axis). split; [reflexivity |]. exact Hz.
  - unfold str, tilted_rotation, rotation_state.
    cbn [a_axis getattr snd set_axis]. intros [= H _]. rewrite Hz in H. lra.
Qed.

(** [project_point]: what happens to the caller's [point].  A list or a
    tuple is never written to, nor is anything when some axis is periodic;
    an array passed with [PBC = [0,0,0]] comes back shifted by the
    translation of the operation. *)
Lemma project_point_list point op lattice P :
  snd (project_point PyList point op lattice P) = point.
Proof.
  unfold project_point. destruct (negb (pbc_nonzero P)).
  - now destruct (project_direct point op).
  - cbv zeta. now destruct (fold_left _ _ _) as [[? ?] ?].
Qed.

Lemma project_point_periodic kind point op lattice P :
  pbc_nonzero P = true -> snd (project_point kind point op lattice P) = point.
Proof.
  intros H. unfold project_point. rewrite H. cbn [negb]. cbv zeta.
  now destruct (fold_left _ _ _) as [[? ?] ?].
Qed.

Lemma project_point_array point op lattice P :
  pbc_nonzero P = false ->
  snd (project_point NdArray point op lattice P) = vsub point (translation_vector op).
Proof. intros H. unfold project_point. rewrite H. reflexivity. Qed.

Lemma project_point_array_shifted :
  snd (project_point NdArray (mkVec 1 1 1) shift_x eye3 no_pbc) <> mkVec 1 1 1.
Proof.
  rewrite project_point_array by reflexivity.
  unfold vsub, shift_x; cbn [translation_vector vx vy vz]. intros [= H _ _]. lra.
Qed.

(** * Further properties of the code *)

(** ** [create_matrix]: size and content *)

Ltac distinct_vectors :=
  repeat (apply NoDup_cons;
          [ cbn [In]; let H := fresh "H" in intros H;
            repeat (destruct H as [H|H]; [injection H; intros; lra |]); exact H
          | ]);
  apply NoDup_nil.

(** The translation set holds exactly the vectors with -1, 0 or 1 along
    every periodic axis and 0 along the others: three offsets per periodic
    axis and one per other axis, no vector twice, the zero vector always. *)
Theorem create_matrix_size (P : PBC) :
  (forall v, In v (create_matrix P) <->
     (if pbc0 P then vx v = -1 \/ vx v = 0 \/ vx v = 1 else vx v = 0)
     /\ (if pbc1 P then vy v = -1 \/ vy v = 0 \/ vy v = 1 else vy v = 0)
     /\ (if pbc2 P then vz v = -1 \/ vz v = 0 \/ vz v = 1 else vz v = 0))
  /\ length (create_matrix P)
     = ((if pbc0 P then 3 else 1) * (if pbc1 P then 3 else 1) * (if pbc2 P then 3 else 1))%nat
  /\ NoDup (create_matrix P)
  /\ In vzero (create_matrix P).
Proof.
  split; [| split; [| split]].
  - intros v. rewrite create_matrix_In, !offsets_explicit. reflexivity.
  - destruct P as [[] [] []]; reflexivity.
  - destruct P as [[] [] []]; cbn; distinct_vectors.
  - apply create_matrix_zero.
Qed.

(** ** [filtered_coords]: the unit cell and lattice translations *)

Lemma fold_coord_range x : 0 <= x - Np.floor x * flag true < 1.
Proof. pose proof (floor_bound x). cbn [flag]. lra. Qed.

Lemma fold_coord_shift (b : bool) x (n : Z) :
  (x + IZR n * flag b) - Np.floor (x + IZR n * flag b) * flag b
  = x - Np.floor x * flag b.
Proof.
  destruct b; cbn [flag].
  - unfold Np.floor. rewrite Rmult_1_r, Zfloor_addz, plus_IZR. ring.
  - ring.
Qed.

Lemma filter_vector_shift P v n0 n1 n2 :
  filter_vector P (periodic_image v P n0 n1 n2) = filter_vector P v.
Proof.
  apply vec_ext; cbn [vx vy vz filter_vector periodic_image]; apply fold_coord_shift.
Qed.

Lemma fold_coord_fixed (b : bool) x :
  (b = true -> 0 <= x < 1) -> x - Np.floor x * flag b = x.
Proof.
  intros H. destruct b; cbn [flag]; [| ring].
  rewrite (floor_eq 0) by (specialize (H eq_refl); lra). ring.
Qed.

(** Along a periodic axis the folded coordinate lies between 0 and 1,
    along any other axis it is the coordinate itself, and a point whose
    coordinates along the periodic axes are at least 0 and below 1 is
    returned as it is.  The bound 1 is reached in double precision:
    [-2^-60] folds to exactly 1. *)
Theorem filtered_coords_cell (coords : Vec3) (P : PBC) :
  let w := filtered_coords coords P in
  (if pbc0 P then 0 <= vx w <= 1 else vx w = vx coords)
  /\ (if pbc1 P then 0 <= vy w <= 1 else vy w = vy coords)
  /\ (if pbc2 P then 0 <= vz w <= 1 else vz w = vz coords)
  /\ ((pbc0 P = true -> 0 <= vx coords < 1) ->
      (pbc1 P = true -> 0 <= vy coords < 1) ->
      (pbc2 P = true -> 0 <= vz coords < 1) ->
      w = coords)
  /\ F64.filtered_coords (F64.mkVec (-0x1p-60) 0 2) full_pbc = F64.mkVec 1 0 0.
Proof.
  cbv zeta. unfold filtered_coords.
  split; [| split; [| split; [| split]]].
  - cbn [vx filter_vector]. destruct (pbc0 P); [| cbn [flag]; ring].
    pose proof (fold_coord_range (vx coords)). lra.
  - cbn [vy filter_vector]. destruct (pbc1 P); [| cbn [flag]; ring].
    pose proof (fold_coord_range (vy coords)). lra.
  - cbn [vz filter_vector]. destruct (pbc2 P); [| cbn [flag]; ring].
    pose proof (fold_coord_range (vz coords)). lra.
  - intros H0 H1 H2. apply vec_ext; cbn [vx vy vz filter_vector];
      now apply fold_coord_fixed.
  - vm_compute. reflexivity.
Qed.

(** ** [distance]: bounds and lattice translations *)

Lemma map_nonempty {A B} (f : A -> B) l : l <> [] -> map f l <> [].
Proof. intros H E. apply map_eq_nil in E. contradiction. Qed.

Lemma distance_nonneg xyz L P : 0 <= distance xyz L P.
Proof.
  destruct (distance_min_image_attained xyz L P) as (v & _ & ->). apply vnorm_nonneg.
Qed.

Lemma dot_vm_zero L : dot_vm vzero L = vzero.
Proof. vec_ring. Qed.

Lemma half_offset x :
  exists v, In v (offsets true) /\ Rabs (v + (x - Np.floor x * flag true)) <= 1 / 2.
Proof.
  pose proof (fold_coord_range x) as B.
  destruct (Rle_dec (x - Np.floor x * flag true) (1 / 2)) as [H|H].
  - exists 0. split; [cbn; auto |]. rewrite Rabs_right; lra.
  - exists (-1). split; [cbn; auto |]. rewrite Rabs_left; lra.
Qed.

Lemma sq_half u : Rabs u <= 1 / 2 -> u * u <= 1 / 4.
Proof. intros H. apply Rabs_le_bounds in H. nra. Qed.

(** The distance is never negative, never exceeds the Cartesian norm of the
    folded displacement, and is zero for a lattice translation; in an
    orthorhombic cell with full periodicity it is at most half the
    diagonal of the cell. *)
Theorem distance_lattice_translation (xyz : Vec3) (L : Mat3) (P : PBC) (n0 n1 n2 : Z) :
  0 <= distance xyz L P <= vnorm (dot_vm (filtered_coords xyz P) L)
  /\ distance (periodic_image vzero P n0 n1 n2) L P = 0
  /\ (forall a b c, L = diag a b c -> P = mkPBC true true true ->
        distance xyz L P <= sqrt (a * a + b * b + c * c) / 2).
Proof.
  split; [split |]; [apply distance_nonneg | | split].
  - replace (filtered_coords xyz P) with (vadd vzero (filtered_coords xyz P)) by vec_ring.
    apply distance_min_image_below, create_matrix_zero.
  - apply Rle_antisym; [| apply distance_nonneg].
    eapply Rle_trans;
      [apply (distance_min_image_below _ L P vzero), create_matrix_zero |].
    assert (E : vadd vzero (filtered_coords (periodic_image vzero P n0 n1 n2) P) = vzero).
    { unfold filtered_coords. rewrite filter_vector_shift.
      apply vec_ext; cbn [vx vy vz vadd vzero filter_vector];
        rewrite (floor_eq 0) by lra; ring. }
    rewrite E, dot_vm_zero, vnorm_zero. apply Rle_refl.
  - intros a b c -> ->.
    destruct (half_offset (vx xyz)) as (v0 & H0 & L0).
    destruct (half_offset (vy xyz)) as (v1 & H1 & L1).
    destruct (half_offset (vz xyz)) as (v2 & H2 & L2).
    eapply Rle_trans.
    + apply (distance_min_image_below xyz (diag a b c) (mkPBC true true true)
               (mkVec v0 v1 v2)).
      apply create_matrix_In; cbn [vx vy vz pbc0 pbc1 pbc2]; auto.
    + rewrite vnorm_diag.
      cbn [vx vy vz vadd filtered_coords filter_vector pbc0 pbc1 pbc2].
      apply sq_half in L0, L1, L2.
      pose proof (Rle_0_sqr a) as Ha. pose proof (Rle_0_sqr b) as Hb.
      pose proof (Rle_0_sqr c) as Hc. unfold Rsqr in *.
      pose proof (sqrt_pos (a * a + b * b + c * c)) as Hs.
      apply sqrt_le_c; [lra |].
      replace (sqrt (a * a + b * b + c * c) / 2 * (sqrt (a * a + b * b + c * c) / 2))
        with ((sqrt (a * a + b * b + c * c) * sqrt (a * a + b * b + c * c)) / 4) by field.
      rewrite sqrt_sqrt by lra. nra.
Qed.

(** Without any periodic axis the distance is the Cartesian norm of the
    displacement itself. *)
Theorem distance_no_pbc (xyz : Vec3) (L : Mat3) :
  distance xyz L (mkPBC false false false) = vnorm (dot_vm xyz L).
Proof.
  rewrite distance_unfold. cbn [create_matrix offsets pbc0 pbc1 pbc2 flat_map map app Np.min
                                fold_left].
  do 2 f_equal. apply vec_ext;
    cbn [vx vy vz vadd filtered_coords filter_vector pbc0 pbc1 pbc2 flag]; ring.
Qed.

(** ** [distance_matrix]: every entry in closed form *)

Lemma eqb_eq a b : Np.eqb a b = true -> a = b.
Proof. unfold Np.eqb. destruct (Req_dec_T a b); [auto | discriminate]. Qed.

Lemma vec_eqb_eq a b : vec_eqb a b = true -> a = b.
Proof.
  unfold vec_eqb. intros H. apply andb_prop in H as [H Hz]. apply andb_prop in H as [Hx Hy].
  apply vec_ext; now apply eqb_eq.
Qed.

Lemma mat_eqb_eq a b : mat_eqb a b = true -> a = b.
Proof.
  unfold mat_eqb. intros H. apply andb_prop in H as [H H2]. apply andb_prop in H as [H0 H1].
  apply mat_ext; now apply vec_eqb_eq.
Qed.

Lemma dot_vm_eye3 p : dot_vm p eye3 = p.
Proof. unfold eye3. vec_ring. Qed.

(** Skipping the multiplication by an identity lattice changes no point. *)
Lemma cart_effective lattice p : cart (effective_lattice lattice) p = cart lattice p.
Proof.
  destruct lattice as [L|]; [| reflexivity]. cbn [effective_lattice].
  destruct (mat_eqb L eye3) eqn:E; [| reflexivity].
  apply mat_eqb_eq in E. subst. cbn [cart]. now rewrite dot_vm_eye3.
Qed.

Lemma distance_matrix_cell_direct A B lattice P i j :
  (i < length A)%nat -> (j < length B)%nat ->
  cell (distance_matrix A B lattice P) i j =
  if pbc_nonzero P then
    Np.min (map (fun v => vnorm (vsub (cart lattice (vadd (filter_vector P (nth i A vzero)) v))
                                      (cart lattice (filter_vector P (nth j B vzero)))))
                (create_matrix P))
  else vnorm (vsub (cart lattice (nth i A vzero)) (cart lattice (nth j B vzero))).
Proof.
  intros Hi Hj. rewrite distance_matrix_cell by assumption. cbv zeta.
  destruct (pbc_nonzero P); [| now rewrite !cart_effective].
  f_equal. apply map_ext; intros v. now rewrite !cart_effective.
Qed.

Lemma distance_matrix_cell_nonneg A B lattice P i j :
  (i < length A)%nat -> (j < length B)%nat ->
  0 <= cell (distance_matrix A B lattice P) i j.
Proof.
  intros Hi Hj. rewrite distance_matrix_cell_direct by assumption.
  destruct (pbc_nonzero P); [| apply vnorm_nonneg].
  assert (Hne : map (fun v => vnorm (vsub (cart lattice (vadd (filter_vector P (nth i A vzero)) v))
                                      (cart lattice (filter_vector P (nth j B vzero)))))
                    (create_matrix P) <> [])
    by (apply map_nonempty, create_matrix_nonempty).
  apply min_in, in_map_iff in Hne as (v & <- & _). apply vnorm_nonneg.
Qed.

(** Every entry of the distance matrix is the least separation, over the
    translation set, between the folded first point translated and the
    folded second point, both mapped by the lattice given (the shortcut
    for an identity lattice changes no entry); without periodic axes it is
    the direct separation.  No entry is negative. *)
Theorem distance_matrix_entries (A B : list Vec3) (lattice : option Mat3) (P : PBC)
  (i j : nat) :
  (i < length A)%nat -> (j < length B)%nat ->
  cell (distance_matrix A B lattice P) i j =
    (if pbc_nonzero P then
       Np.min (map (fun v =>
                 vnorm (vsub (cart lattice (vadd (filter_vector P (nth i A vzero)) v))
                             (cart lattice (filter_vector P (nth j B vzero)))))
               (create_matrix P))
     else vnorm (vsub (cart lattice (nth i A vzero)) (cart lattice (nth j B vzero))))
  /\ 0 <= cell (distance_matrix A B lattice P) i j.
Proof.
  intros Hi Hj. split.
  - now apply distance_matrix_cell_direct.
  - now apply distance_matrix_cell_nonneg.
Qed.

Lemma distance_matrix_entries_witness :
  (0 < length sample_points1)%nat /\ (0 < length sample_points2)%nat
  /\ 0 <= cell (distance_matrix sample_points1 sample_points2 (Some sheared_lattice)
                  full_pbc) 0 0.
Proof.
  split; [simpl; lia |]. split; [simpl; lia |].
  apply (distance_matrix_entries sample_points1 sample_points2 (Some sheared_lattice)
           full_pbc 0 0); simpl; lia.
Defined.

Lemma vsub_self a : vsub a a = vzero.
Proof. vec_ring. Qed.

Lemma distance_matrix_diag_zero A lattice P i :
  (i < length A)%nat -> cell (distance_matrix A A lattice P) i i = 0.
Proof.
  intros Hi. apply Rle_antisym; [| now apply distance_matrix_cell_nonneg].
  rewrite distance_matrix_cell_direct by assumption.
  destruct (pbc_nonzero P).
  - eapply Rle_trans.
    + apply min_le, in_map_iff. exists vzero. split; [reflexivity | apply create_matrix_zero].
    + replace (vadd (filter_vector P (nth i A vzero)) vzero)
        with (filter_vector P (nth i A vzero)) by vec_ring.
      rewrite vsub_self, vnorm_zero. apply Rle_refl.
  - rewrite vsub_self, vnorm_zero. apply Rle_refl.
Qed.

(** The distance matrix of a point set with itself has one row and one
    column per point and zeros on its diagonal. *)
Theorem distance_matrix_self (A : list Vec3) (lattice : option Mat3) (P : PBC) (i : nat) :
  (i < length A)%nat ->
  length (distance_matrix A A lattice P) = length A
  /\ Forall (fun r => length r = length A) (distance_matrix A A lattice P)
  /\ cell (distance_matrix A A lattice P) i i = 0.
Proof.
  intros Hi. destruct (distance_matrix_shape A A lattice P) as [Hlen Hrows].
  split; [exact Hlen |]. split; [exact Hrows |]. now apply distance_matrix_diag_zero.
Qed.

Lemma distance_matrix_self_witness :
  (0 < length colinear_points)%nat
  /\ cell (distance_matrix colinear_points colinear_points (Some sheared_lattice) full_pbc)
       0 0 = 0.
Proof.
  split; [simpl; lia |].
  apply (distance_matrix_self colinear_points (Some sheared_lattice) full_pbc 0); simpl; lia.
Defined.

(** ** [get_order]: rational turns, symmetry and range *)

Lemma bool_eq_iff (a b : bool) : (a = true <-> b = true) -> a = b.
Proof.
  destruct a, b; intros [H1 H2]; try reflexivity.
  - symmetry. now apply H1.
  - now apply H2.
Qed.

Lemma order_loop_ext angle angle' tol ns :
  (forall n, order_test n angle tol = order_test n angle' tol) ->
  order_loop angle tol ns = order_loop angle' tol ns.
Proof.
  intros H. induction ns as [|n ns IH]; [reflexivity |].
  cbn [order_loop]. now rewrite H, IH.
Qed.

Lemma within_tol_opp x tol : within_tol_of_integer (- x) tol <-> within_tol_of_integer x tol.
Proof.
  unfold within_tol_of_integer. split; intros [k Hk]; exists (- k)%Z; rewrite opp_IZR.
  - replace (x - - IZR k) with (- (- x - IZR k)) by ring. now rewrite Rabs_Ropp.
  - replace (- x - - IZR k) with (- (x - IZR k)) by ring. now rewrite Rabs_Ropp.
Qed.

Lemma within_tol_shift x tol (z : Z) :
  within_tol_of_integer (x + IZR z) tol <-> within_tol_of_integer x tol.
Proof.
  unfold within_tol_of_integer. split; intros [k Hk].
  - exists (k - z)%Z. rewrite minus_IZR.
    now replace (x - (IZR k - IZR z)) with (x + IZR z - IZR k) by ring.
  - exists (k + z)%Z. rewrite plus_IZR.
    now replace (x + IZR z - (IZR k + IZR z)) with (x - IZR k) by ring.
Qed.

Lemma pi_pos : 0 < pi.
Proof. pose proof pi_bounds. lra. Qed.

(** The order of an angle and of its opposite are the same; and for
    angles of magnitude at most [10^6] the order does not change when
    whole turns are added. *)
Theorem get_order_symmetry (angle : R) (rotoinversion : bool) (tol : R) (k : Z) :
  get_order (- angle) rotoinversion tol = get_order angle rotoinversion tol
  /\ (Rabs angle <= 1000000 -> Rabs (angle + 2 * PI * IZR k) <= 1000000 ->
      get_order (angle + 2 * PI * IZR k) rotoinversion tol
      = get_order angle rotoinversion tol).
Proof.
  pose proof pi_pos as Hpi. unfold get_order. split.
  - rewrite (order_loop_ext (- angle) angle); [reflexivity |].
    intros n. apply bool_eq_iff. rewrite !order_test_iff.
    replace (turns n (- angle)) with (- turns n angle) by (unfold turns; field; lra).
    apply within_tol_opp.
  - intros _ _. change PI with pi.
    rewrite (order_loop_ext (angle + 2 * pi * IZR k) angle); [reflexivity |].
    intros n. apply bool_eq_iff. rewrite !order_test_iff.
    replace (turns n (angle + 2 * pi * IZR k)) with (turns n angle + IZR (n * k))
      by (unfold turns; rewrite mult_IZR; field; lra).
    apply within_tol_shift.
Qed.

(** An order that is a number lies between 1 and 60, or between 2 and 118
    for a rotoinversion. *)
Theorem get_order_range (angle : R) (rotoinversion : bool) (tol : R) (r : Z) :
  get_order angle rotoinversion tol = Finite r ->
  if rotoinversion then (2 <= r <= 118)%Z else (1 <= r <= 60)%Z.
Proof.
  unfold get_order. destruct (order_loop angle tol (range 1 61)) as [n|] eqn:E;
    [| discriminate].
  apply (order_loop_range angle tol 60 1 n) in E as (Hn & _ & _).
  destruct rotoinversion.
  - destruct (n mod 2 =? 1)%Z eqn:Em; intros [= <-].
    + apply Z.eqb_eq in Em. rewrite Zmod_odd in Em.
      destruct (Z.odd n) eqn:Eo; [| discriminate].
      assert (n <> 60)%Z by (intros ->; discriminate). lia.
    + rewrite Zmod_odd in Em. destruct (Z.odd n) eqn:Eo; [discriminate |].
      assert (n <> 1)%Z by (intros ->; discriminate). lia.
  - intros [= <-]. lia.
Qed.

Lemma get_order_range_witness :
  get_order (2 * pi) true get_order_tol = Finite 2 /\ (2 <= 2 <= 118)%Z.
Proof.
  split; [exact get_order_full_turn |].
  exact (get_order_range (2 * pi) true get_order_tol 2 get_order_full_turn).
Defined.

Lemma IZR_nonzero_abs (z : Z) : z <> 0%Z -> 1 <= Rabs (IZR z).
Proof.
  intros H. destruct (Z_lt_le_dec z 0) as [Hn|Hp].
  - assert (Hz : IZR z <= -1) by (apply IZR_le; lia). rewrite Rabs_left1; lra.
  - assert (Hz : 1 <= IZR z) by (apply IZR_le; lia). rewrite Rabs_right; lra.
Qed.

Lemma get_order_fraction (n k : Z) (rotoinversion : bool) :
  (1 <= n <= 60)%Z -> Z.gcd k n = 1%Z ->
  get_order (2 * pi * IZR k / IZR n) rotoinversion get_order_tol
  = Finite (if rotoinversion && Z.odd n then (2 * n)%Z else n).
Proof.
  intros Hn Hg. pose proof pi_pos as Hpi.
  assert (Hn1 : 1 <= IZR n) by (apply IZR_le; lia).
  assert (Hn60 : IZR n <= 60) by (apply IZR_le; lia).
  assert (Hturn : forall m, turns m (2 * pi * IZR k / IZR n) = IZR (m * k) / IZR n).
  { intros m. unfold turns. rewrite mult_IZR. field. lra. }
  apply get_order_least; [exact Hn | |].
  - apply order_test_iff. exists k. rewrite Hturn, mult_IZR.
    replace (IZR n * IZR k / IZR n - IZR k) with 0 by (field; lra).
    rewrite Rabs_R0. unfold get_order_tol. lra.
  - intros m Hm. apply order_test_false_iff. intros [j Hj]. rewrite Hturn in Hj.
    assert (Hz : (m * k - j * n <> 0)%Z).
    { intros Hz. assert (Hd : (n | k * m)%Z) by (exists j; lia).
      apply Z.gauss in Hd; [| now rewrite Z.gcd_comm].
      apply Z.divide_pos_le in Hd; lia. }
    apply IZR_nonzero_abs in Hz. rewrite minus_IZR, !mult_IZR in Hz.
    replace (IZR (m * k) / IZR n - IZR j)
      with ((IZR m * IZR k - IZR j * IZR n) / IZR n) in Hj
      by (rewrite mult_IZR; field; lra).
    unfold Rdiv in Hj. rewrite Rabs_mult, (Rabs_right (/ IZR n)) in Hj
      by (apply Rle_ge, Rlt_le, Rinv_0_lt_compat; lra).
    assert (Hinv : / 60 <= / IZR n) by (apply Rinv_le_contravar; lra).
    assert (Hpos : 0 < / IZR n) by (apply Rinv_0_lt_compat; lra).
    unfold get_order_tol in Hj. nra.
Qed.

(** With the default tolerance, a rotation by [k/n] of a turn with [k] and
    [n] coprime, [n] at most 60 and [k] at most [10^5] in magnitude has
    order [n], doubled for a rotoinversion when [n] is odd. *)
Theorem get_order_rational (n k : Z) (rotoinversion : bool) :
  (1 <= n <= 60)%Z -> Z.gcd k n = 1%Z -> (Z.abs k <= 100000)%Z ->
  get_order (2 * PI * IZR k / IZR n) rotoinversion (1 / 100)
  = Finite (if rotoinversion && Z.odd n then (2 * n)%Z else n).
Proof. intros Hn Hg _. now apply get_order_fraction. Qed.

Lemma get_order_rational_witness :
  (1 <= 3 <= 60)%Z /\ Z.gcd 1 3 = 1%Z /\ (Z.abs 1 <= 100000)%Z
  /\ get_order (2 * PI * IZR 1 / IZR 3) true (1 / 100) = Finite 6.
Proof.
  split; [lia |]. split; [reflexivity |]. split; [simpl; lia |].
  apply (get_order_rational 3 1 true); [lia | reflexivity | simpl; lia].
Defined.

(** ** [aa2matrix]: rotations about any axis *)

Lemma vnorm_pos axis : vdot axis axis <> 0 -> 0 < vnorm axis.
Proof.
  intros H. unfold vnorm. apply sqrt_lt_R0.
  pose proof (vdot_self_nonneg axis). lra.
Qed.

Lemma vdiv_normalized axis :
  vdot axis axis <> 0 -> vdot (vdiv axis (vnorm axis)) (vdiv axis (vnorm axis)) = 1.
Proof.
  intros H. pose proof (vnorm_pos axis H) as Hn.
  assert (Hs : vnorm axis * vnorm axis = vdot axis axis)
    by (unfold vnorm; apply sqrt_sqrt, vdot_self_nonneg).
  unfold vdot in *. cbn [vdiv vx vy vz].
  replace (vx axis / vnorm axis * (vx axis / vnorm axis)
           + vy axis / vnorm axis * (vy axis / vnorm axis)
           + vz axis / vnorm axis * (vz axis / vnorm axis))
    with ((vx axis * vx axis + vy axis * vy axis + vz axis * vz axis)
          / (vnorm axis * vnorm axis)) by (field; lra).
  rewrite Hs. field. exact H.
Qed.

(** The axis is normalised first: the matrix is that of the unit axis. *)
Lemma aa2matrix_normalized axis angle :
  vdot axis axis <> 0 ->
  aa2matrix axis angle = aa2matrix (vdiv axis (vnorm axis)) angle.
Proof.
  intros H. unfold aa2matrix at 2. now rewrite (vdiv_unit _ (vdiv_normalized axis H)).
Qed.

(** For every axis other than the zero vector and every angle, the matrix
    of [aa2matrix] times its transpose is the identity, its determinant is
    1, and [is_orthogonal] accepts it. *)
Theorem aa2matrix_rotation (axis : Vec3) (angle : R) :
  vdot axis axis <> 0 ->
  dot_mm (aa2matrix axis angle) (transpose (aa2matrix axis angle)) = eye3
  /\ dot_mm (transpose (aa2matrix axis angle)) (aa2matrix axis angle) = eye3
  /\ det (aa2matrix axis angle) = 1
  /\ is_orthogonal (aa2matrix axis angle) is_orthogonal_tol = true.
Proof.
  intros H. rewrite (aa2matrix_normalized axis angle H).
  pose proof (vdiv_normalized axis H) as Hu.
  destruct (aa2matrix_orthogonal _ angle Hu) as [H1 H2].
  repeat split; auto using aa2matrix_det, aa2matrix_is_orthogonal.
Qed.

Lemma aa2matrix_rotation_witness :
  vdot z_axis z_axis <> 0 /\ det (aa2matrix z_axis (pi / 3)) = 1.
Proof.
  assert (H : vdot z_axis z_axis <> 0) by (rewrite z_axis_unit; lra).
  split; [exact H |].
  exact (proj1 (proj2 (proj2 (aa2matrix_rotation z_axis (pi / 3) H)))).
Defined.

Lemma aa2matrix_unit_compose axis a b :
  vdot axis axis = 1 ->
  dot_mm (aa2matrix axis a) (aa2matrix axis b) = aa2matrix axis (a + b).
Proof.
  intros H. rewrite !(aa2matrix_unit axis _ H). cbv zeta.
  rewrite cos_plus, sin_plus.
  pose proof (sin_cos_unit a) as Ha. pose proof (sin_cos_unit b) as Hb.
  destruct axis as [x y z]. unfold vdot in H. cbn [vx vy vz] in *.
  generalize dependent (cos a). generalize dependent (sin a). intros sa ca Ha.
  generalize dependent (cos b). generalize dependent (sin b). intros sb cb Hb.
  apply mat_ext; apply vec_ext; mat_simpl; nsatz.
Qed.

Lemma aa2matrix_unit_transpose axis a :
  vdot axis axis = 1 -> transpose (aa2matrix axis a) = aa2matrix axis (- a).
Proof.
  intros H. rewrite !(aa2matrix_unit axis _ H). cbv zeta. rewrite cos_neg, sin_neg.
  apply mat_ext; apply vec_ext; mat_simpl; ring.
Qed.

Lemma aa2matrix_unit_fixes axis a :
  vdot axis axis = 1 -> dot_mv (aa2matrix axis a) axis = axis.
Proof.
  intros H. rewrite (aa2matrix_unit axis _ H). cbv zeta.
  destruct axis as [x y z]. unfold vdot in H. unfold dot_mv, vdot.
  cbn [vx vy vz row0 row1 row2] in *.
  generalize dependent (cos a). generalize dependent (sin a). intros s c.
  apply vec_ext; cbn [vx vy vz]; nsatz.
Qed.

(** About a fixed axis other than zero, the matrices of [aa2matrix]
    compose by adding their angles, the angle 0 gives the identity, the
    transpose is the rotation by the opposite angle, and every one of them
    leaves the normalised axis in place. *)
Theorem aa2matrix_group (axis : Vec3) (a b : R) :
  vdot axis axis <> 0 ->
  dot_mm (aa2matrix axis a) (aa2matrix axis b) = aa2matrix axis (a + b)
  /\ aa2matrix axis 0 = eye3
  /\ transpose (aa2matrix axis a) = aa2matrix axis (- a)
  /\ dot_mv (aa2matrix axis a) (vdiv axis (vnorm axis)) = vdiv axis (vnorm axis).
Proof.
  intros H. rewrite !(aa2matrix_normalized axis _ H).
  pose proof (vdiv_normalized axis H) as Hu.
  repeat split.
  - now apply aa2matrix_unit_compose.
  - now apply aa2matrix_zero.
  - now apply aa2matrix_unit_transpose.
  - now apply aa2matrix_unit_fixes.
Qed.

Lemma aa2matrix_group_witness :
  vdot z_axis z_axis <> 0
  /\ dot_mm (aa2matrix z_axis 1) (aa2matrix z_axis 2) = aa2matrix z_axis (1 + 2).
Proof.
  assert (H : vdot z_axis z_axis <> 0) by (rewrite z_axis_unit; lra).
  split; [exact H |]. exact (proj1 (aa2matrix_group z_axis 1 2 H)).
Defined.

(** ** [filtered_coords_euclidean]: the distance to the nearest integer *)

Lemma fold_euclidean_round x : fold_euclidean true x = Rabs (x - Np.round x).
Proof.
  unfold fold_euclidean, Np.floor, Np.round, Np.round_half_even. cbv zeta.
  pose proof (Zfloor_bound x) as B.
  destruct (Rlt_dec (x - IZR (Zfloor x)) (1 / 2)) as [H1|H1].
  - rewrite ltb_false by lra. rewrite Rabs_right; lra.
  - destruct (Rlt_dec (1 / 2) (x - IZR (Zfloor x))) as [H2|H2].
    + rewrite ltb_true by lra. rewrite plus_IZR, Rabs_left1; lra.
    + rewrite ltb_false by lra.
      destruct (Z.even (Zfloor x)); [| rewrite plus_IZR].
      * rewrite Rabs_right; lra.
      * rewrite Rabs_left1; lra.
Qed.

Lemma fold_euclidean_range x : 0 <= fold_euclidean true x <= 1 / 2.
Proof.
  rewrite fold_euclidean_round. split; [apply Rabs_pos | apply round_half].
Qed.

Lemma fold_euclidean_idem b x : fold_euclidean b (fold_euclidean b x) = fold_euclidean b x.
Proof.
  destruct b; [| reflexivity].
  pose proof (fold_euclidean_range x) as R.
  set (y := fold_euclidean true x) in *.
  unfold fold_euclidean. cbv zeta. rewrite (floor_eq 0) by lra.
  rewrite ltb_false by lra. ring.
Qed.

(** Along a periodic axis the result is the distance from the coordinate
    to the nearest integer, between 0 and one half; along any other axis
    it is the coordinate; filtering twice is filtering once. *)
Theorem filtered_coords_euclidean_nearest (coords : Vec3) (P : PBC) :
  let w := filtered_coords_euclidean coords P in
  (if pbc0 P then vx w = Rabs (vx coords - Np.round (vx coords)) /\ 0 <= vx w <= 1 / 2
   else vx w = vx coords)
  /\ (if pbc1 P then vy w = Rabs (vy coords - Np.round (vy coords)) /\ 0 <= vy w <= 1 / 2
      else vy w = vy coords)
  /\ (if pbc2 P then vz w = Rabs (vz coords - Np.round (vz coords)) /\ 0 <= vz w <= 1 / 2
      else vz w = vz coords)
  /\ filtered_coords_euclidean w P = w.
Proof.
  cbv zeta. unfold filtered_coords_euclidean, filter_vector_euclidean. cbn [vx vy vz].
  repeat split.
  - destruct (pbc0 P); [| reflexivity].
    split; [apply fold_euclidean_round | apply fold_euclidean_range].
  - destruct (pbc1 P); [| reflexivity].
    split; [apply fold_euclidean_round | apply fold_euclidean_range].
  - destruct (pbc2 P); [| reflexivity].
    split; [apply fold_euclidean_round | apply fold_euclidean_range].
  - now rewrite !fold_euclidean_idem.
Qed.

(** ** [distance_matrix_single]: the least entry of the distance matrix *)

Lemma concat_map_nil {A B} (l : list A) : concat (map (fun _ => @nil B) l) = [].
Proof. induction l as [|a l IH]; [reflexivity | exact IH]. Qed.

Lemma in_concat_cdist XA XB x :
  In x (concat (cdist XA XB)) <->
  exists a b, In a XA /\ In b XB /\ x = vnorm (vsub a b).
Proof.
  unfold cdist. rewrite in_concat. split.
  - intros (row & Hrow & Hx). apply in_map_iff in Hrow as (a & <- & Ha).
    apply in_map_iff in Hx as (b & <- & Hb). now exists a, b.
  - intros (a & b & Ha & Hb & ->). exists (map (fun b => vnorm (vsub a b)) XB). split.
    + apply in_map_iff. now exists a.
    + apply in_map_iff. now exists b.
Qed.

Lemma in_concat_cells d n1 n2 :
  length d = n1 -> Forall (fun r => length r = n2) d ->
  forall x, In x (concat d) <-> exists i j, (i < n1)%nat /\ (j < n2)%nat /\ x = cell d i j.
Proof.
  intros Hlen Hrows x. rewrite (matrix_cells d n1 n2 Hlen Hrows) at 1.
  rewrite in_concat. split.
  - intros (row & Hrow & Hx). apply in_map_iff in Hrow as (i & <- & Hi).
    apply in_map_iff in Hx as (j & <- & Hj). apply in_seq in Hi, Hj.
    exists i, j. repeat split; lia.
  - intros (i & j & Hi & Hj & ->). exists (map (fun j => cell d i j) (seq 0 n2)). split.
    + apply in_map_iff. exists i. split; [reflexivity | apply in_seq; lia].
    + apply in_map_iff. exists j. split; [reflexivity | apply in_seq; lia].
Qed.

Lemma in_nth_iff {A} (l : list A) d x :
  In x l <-> exists i, (i < length l)%nat /\ nth i l d = x.
Proof.
  split.
  - intros H. destruct (In_nth l x d H) as (i & Hi & E). now exists i.
  - intros (i & Hi & <-). now apply nth_In.
Qed.

(** For two point sets that are not empty, [distance_matrix_single]
    returns the least entry of [distance_matrix] for the same arguments;
    for an empty point set it raises. *)
Theorem distance_matrix_single_least (A B : list Vec3) (L : Mat3) (P : PBC) :
  (A <> [] -> B <> [] ->
   distance_matrix_single A B L P = Some (Np.min (concat (distance_matrix A B (Some L) P))))
  /\ distance_matrix_single [] B L P = None
  /\ distance_matrix_single A [] L P = None.
Proof.
  split; [| split].
  - intros HA HB.
    destruct (distance_matrix_shape A B (Some L) P) as [Hlen Hrows].
    pose proof (in_concat_cells _ _ _ Hlen Hrows) as Hcells.
    assert (HlA : (0 < length A)%nat) by (destruct A; [congruence | simpl; lia]).
    assert (HlB : (0 < length B)%nat) by (destruct B; [congruence | simpl; lia]).
    assert (Hdm : In (Np.min (concat (distance_matrix A B (Some L) P)))
                     (concat (distance_matrix A B (Some L) P))).
    { apply min_in. intros E.
      assert (H0 : In (cell (distance_matrix A B (Some L) P) 0 0)
                      (concat (distance_matrix A B (Some L) P)))
        by (apply Hcells; exists 0%nat, 0%nat; auto).
      now rewrite E in H0. }
    unfold distance_matrix_single. destruct (pbc_nonzero P) eqn:EP.
    + cbv zeta.
      set (g := fun (p q v : Vec3) =>
                  vnorm (vsub (dot_vm (vadd (filter_vector P p) v) L)
                              (dot_vm (filter_vector P q) L))).
      assert (Hflat : forall x,
        In x (flatten3
                (map (fun l => cdist l (map (fun p => dot_vm p L) (filtered_coords_array B P)))
                   (map (map (fun p => dot_vm p L))
                      (map (fun v => map (fun p => vadd p v) (filtered_coords_array A P))
                         (create_matrix P)))))
        <-> exists v p q, In v (create_matrix P) /\ In p A /\ In q B /\ x = g p q v).
      { intros x. unfold flatten3, filtered_coords_array. rewrite in_concat. split.
        - intros (l & Hl & Hx).
          apply in_map_iff in Hl as (mat & <- & Hmat).
          apply in_map_iff in Hmat as (l1v & <- & Hl1v).
          apply in_map_iff in Hl1v as (l1t & <- & Hl1t).
          apply in_map_iff in Hl1t as (v & <- & Hv).
          apply in_concat_cdist in Hx as (a & b & Ha & Hb & ->).
          apply in_map_iff in Ha as (a1 & <- & Ha1).
          apply in_map_iff in Ha1 as (a2 & <- & Ha2).
          apply in_map_iff in Ha2 as (p & <- & Hp).
          apply in_map_iff in Hb as (b1 & <- & Hb1).
          apply in_map_iff in Hb1 as (q & <- & Hq).
          now exists v, p, q.
        - intros (v & p & q & Hv & Hp & Hq & ->).
          exists (concat (cdist (map (fun p => dot_vm p L)
                                   (map (fun p => vadd p v) (map (filter_vector P) A)))
                                (map (fun p => dot_vm p L) (map (filter_vector P) B)))).
          split.
          + apply in_map.
            apply (in_map (fun l => cdist l (map (fun p => dot_vm p L)
                                               (map (filter_vector P) B)))).
            apply (in_map (map (fun p => dot_vm p L))).
            apply (in_map (fun v => map (fun p => vadd p v) (map (filter_vector P) A))).
            exact Hv.
          + apply in_concat_cdist.
            exists (dot_vm (vadd (filter_vector P p) v) L), (dot_vm (filter_vector P q) L).
            repeat split.
            * apply (in_map (fun p => dot_vm p L)).
              apply (in_map (fun p => vadd p v)). now apply in_map.
            * apply (in_map (fun p => dot_vm p L)). now apply in_map. }
      assert (Hcell : forall i j, (i < length A)%nat -> (j < length B)%nat ->
                cell (distance_matrix A B (Some L) P) i j
                = Np.min (map (g (nth i A vzero) (nth j B vzero)) (create_matrix P))).
      { intros i j Hi Hj. rewrite distance_matrix_cell_direct by assumption.
        now rewrite EP. }
      match goal with |- np_min_checked ?l = _ => set (flat := l) in * end.
      assert (Hmin : Np.min flat = Np.min (concat (distance_matrix A B (Some L) P))).
      { apply min_unique.
        - apply Hcells in Hdm as (i & j & Hi & Hj & E). rewrite E, Hcell by assumption.
          assert (Hne : map (g (nth i A vzero) (nth j B vzero)) (create_matrix P) <> [])
            by (apply map_nonempty, create_matrix_nonempty).
          apply min_in, in_map_iff in Hne as (v & <- & Hv).
          apply Hflat. exists v, (nth i A vzero), (nth j B vzero).
          repeat split; auto using nth_In.
        - intros x Hx. apply Hflat in Hx as (v & p & q & Hv & Hp & Hq & ->).
          apply (in_nth_iff A vzero) in Hp as (i & Hi & <-).
          apply (in_nth_iff B vzero) in Hq as (j & Hj & <-).
          eapply Rle_trans.
          + apply min_le, Hcells. exists i, j. repeat split; eauto.
          + rewrite Hcell by assumption. apply min_le, in_map_iff. now exists v. }
      assert (Hne : flat <> []).
      { intros E. destruct A as [|p A']; [congruence |]. destruct B as [|q B']; [congruence |].
        assert (Hin : In (g p q vzero) flat).
        { apply Hflat. exists vzero, p, q. repeat split; simpl; auto using create_matrix_zero. }
        now rewrite E in Hin. }
      unfold np_min_checked. destruct flat; [congruence | now rewrite <- Hmin].
    + cbv zeta.
      assert (Hsame : forall x,
        In x (concat (cdist (map (fun p => dot_vm p L) A) (map (fun p => dot_vm p L) B)))
        <-> In x (concat (distance_matrix A B (Some L) P))).
      { intros x. rewrite in_concat_cdist, Hcells. split.
        - intros (a & b & Ha & Hb & ->).
          apply in_map_iff in Ha as (p & <- & Hp). apply in_map_iff in Hb as (q & <- & Hq).
          apply (in_nth_iff A vzero) in Hp as (i & Hi & <-).
          apply (in_nth_iff B vzero) in Hq as (j & Hj & <-).
          exists i, j. repeat split; auto.
          rewrite distance_matrix_cell_direct by assumption. now rewrite EP.
        - intros (i & j & Hi & Hj & ->).
          exists (dot_vm (nth i A vzero) L), (dot_vm (nth j B vzero) L). repeat split.
          + apply in_map_iff. exists (nth i A vzero). auto using nth_In.
          + apply in_map_iff. exists (nth j B vzero). auto using nth_In.
          + rewrite distance_matrix_cell_direct by assumption. now rewrite EP. }
      match goal with |- np_min_checked ?l = _ => set (flat := l) in * end.
      assert (Hne : flat <> []).
      { intros E. apply Hsame in Hdm. now rewrite E in Hdm. }
      unfold np_min_checked. destruct flat as [|x0 flat'] eqn:Ef; [congruence |].
      f_equal. apply min_same_elements; [congruence | exact Hsame].
  - unfold distance_matrix_single, flatten3, filtered_coords_array.
    destruct (pbc_nonzero P); cbn [map cdist concat]; [| reflexivity].
    induction (create_matrix P) as [|v l IH]; [reflexivity | exact IH].
  - unfold distance_matrix_single, flatten3, filtered_coords_array, cdist.
    destruct (pbc_nonzero P); cbn [map].
    + rewrite (map_map _ (@concat R)).
      rewrite (map_ext _ (fun _ => @nil R)) by (intros l; apply concat_map_nil).
      now rewrite concat_map_nil.
    + now rewrite concat_map_nil.
Qed.

(** ** [check_distance] *)

Lemma broadcast_dim_same n : broadcast_dim n n = Some n.
Proof. unfold broadcast_dim. now rewrite Nat.eqb_refl. Qed.

Lemma bindex_below n i : (i < n)%nat -> bindex n i = i.
Proof.
  intros H. unfold bindex. destruct (n =? 1)%nat eqn:E; [| reflexivity].
  apply Nat.eqb_eq in E. lia.
Qed.

Lemma existsb_seq_iff (f : nat -> bool) n :
  existsb f (seq 0 n) = true <-> exists i, (i < n)%nat /\ f i = true.
Proof.
  rewrite existsb_exists. split.
  - intros (i & Hi & Hf). apply in_seq in Hi. exists i. split; [lia | exact Hf].
  - intros (i & Hi & Hf). exists i. split; [apply in_seq; lia | exact Hf].
Qed.

Lemma cell_tolerance_table get_tol s1 s2 i j :
  (i < length s1)%nat -> (j < length s2)%nat ->
  cell (tolerance_table get_tol s1 s2) i j
  = get_tol (nth i s1 ""%string) (nth j s2 ""%string).
Proof.
  intros Hi Hj. unfold cell, tolerance_table.
  rewrite (nth_map_in _ s1 i ""%string) by exact Hi.
  now rewrite (nth_map_in _ s2 j ""%string) by exact Hj.
Qed.

(** The comparison of two arrays of one shape finds a cell exactly when
    some cell of the first is below the same cell of the second. *)
Lemma any_less_same n1 n2 d t :
  exists b, any_less n1 n2 d n1 n2 t = Some b
    /\ (b = true <-> exists i j, (i < n1)%nat /\ (j < n2)%nat /\ cell d i j < cell t i j).
Proof.
  unfold any_less. rewrite !broadcast_dim_same. eexists. split; [reflexivity |].
  rewrite existsb_seq_iff. split.
  - intros (i & Hi & H). apply existsb_seq_iff in H as (j & Hj & H).
    apply ltb_iff in H. rewrite !bindex_below in H by assumption. now exists i, j.
  - intros (i & j & Hi & Hj & H). exists i. split; [exact Hi |].
    apply existsb_seq_iff. exists j. split; [exact Hj |].
    apply ltb_iff. now rewrite !bindex_below by assumption.
Qed.

Lemma check_distance_cells coord1 coord2 species1 species2 lattice P get_tol d_factor :
  coord1 <> [] -> coord2 <> [] ->
  length species1 = length coord1 -> length species2 = length coord2 ->
  exists b, check_distance coord1 coord2 species1 species2 lattice P get_tol d_factor
            = Some b
    /\ (b = false <->
        exists i j, (i < length coord1)%nat /\ (j < length coord2)%nat
          /\ cell (distance_matrix coord1 coord2 lattice P) i j
             < get_tol (nth i species1 ""%string) (nth j species2 ""%string)).
Proof.
  intros H1 H2 L1 L2. unfold check_distance.
  assert (E1 : (length coord1 <? 1)%nat = false)
    by (destruct coord1; [congruence | reflexivity]).
  assert (E2 : (length coord2 <? 1)%nat = false)
    by (destruct coord2; [congruence | reflexivity]).
  rewrite E1, E2. cbn [orb]. cbv zeta. rewrite L1, L2.
  destruct (any_less_same (length coord1) (length coord2)
              (distance_matrix coord1 coord2 lattice P)
              (tolerance_table get_tol species1 species2)) as (b & -> & Hb).
  exists (negb b). split; [now destruct b |].
  assert (Hiff : b = true <->
            exists i j, (i < length coord1)%nat /\ (j < length coord2)%nat
              /\ cell (distance_matrix coord1 coord2 lattice P) i j
                 < get_tol (nth i species1 ""%string) (nth j species2 ""%string)).
  { rewrite Hb. split; intros (i & j & Hi & Hj & H); exists i, j; repeat split; auto.
    - now rewrite cell_tolerance_table in H by lia.
    - now rewrite cell_tolerance_table by lia. }
  rewrite <- Hiff. destruct b; simpl; intuition congruence.
Qed.

(** With one species per point and two point sets that are not empty,
    [check_distance] returns [False] exactly when some entry of the
    distance matrix is below the tolerance of its pair of species; the
    value of [d_factor] plays no part.  With an empty point set it
    returns [True]. *)
Theorem check_distance_spec (coord1 coord2 : list Vec3) (species1 species2 : list Species)
  (lattice : option Mat3) (P : PBC) (get_tol : Species -> Species -> R) (d_factor : R) :
  (coord1 <> [] -> coord2 <> [] ->
   length species1 = length coord1 -> length species2 = length coord2 ->
   exists b, check_distance coord1 coord2 species1 species2 lattice P get_tol d_factor
             = Some b
     /\ (b = false <->
         exists i j, (i < length coord1)%nat /\ (j < length coord2)%nat
           /\ cell (distance_matrix coord1 coord2 lattice P) i j
              < get_tol (nth i species1 ""%string) (nth j species2 ""%string)))
  /\ check_distance [] coord2 species1 species2 lattice P get_tol d_factor = Some true
  /\ check_distance coord1 [] species1 species2 lattice P get_tol d_factor = Some true.
Proof.
  split; [apply check_distance_cells |]. split; [reflexivity |].
  unfold check_distance. cbn [length Nat.ltb Nat.leb]. now rewrite orb_true_r.
Qed.




(** ** [are_equal] *)

Lemma fold_if_zero b : fold_if b 0 = 0.
Proof. destruct b; cbn [fold_if]; [rewrite (floor_eq 0) by lra |]; ring. Qed.

Lemma fold_if_integer b (n : Z) : fold_if b (IZR n * flag b) = 0.
Proof.
  destruct b; cbn [fold_if flag].
  - rewrite Rmult_1_r. unfold Np.floor. rewrite ZfloorZ. ring.
  - ring.
Qed.

(** Two operations with the same linear part whose translations differ by
    integers along periodic axes, and not at all along the others, are
    equal for [are_equal]; in particular every operation equals itself. *)
Theorem are_equal_translations (op1 op2 : SymmOp) (P : PBC) (rtol atol : R)
  (n0 n1 n2 : Z) :
  0 < rtol -> 0 <= atol ->
  rotation_matrix op2 = rotation_matrix op1 ->
  translation_vector op2 = periodic_image (translation_vector op1) P n0 n1 n2 ->
  are_equal op1 op2 P rtol atol = true.
Proof.
  intros Hr Ha Hm Hv. unfold are_equal. cbv zeta.
  rewrite Hm, allclose_refl by lra. cbn [negb]. rewrite Hv.
  cbn [vsub periodic_image vx vy vz].
  replace (vx (translation_vector op1) + IZR n0 * flag (pbc0 P) - vx (translation_vector op1))
    with (IZR n0 * flag (pbc0 P)) by ring.
  replace (vy (translation_vector op1) + IZR n1 * flag (pbc1 P) - vy (translation_vector op1))
    with (IZR n1 * flag (pbc1 P)) by ring.
  replace (vz (translation_vector op1) + IZR n2 * flag (pbc2 P) - vz (translation_vector op1))
    with (IZR n2 * flag (pbc2 P)) by ring.
  rewrite !fold_if_integer. fold vzero. rewrite vnorm_zero, Rabs_R0.
  now rewrite ltb_true by lra.
Qed.

Lemma are_equal_translations_witness :
  0 < 1 / 1000 /\ 0 <= 1 / 1000
  /\ are_equal shift_x (mkSymmOp eye3 (periodic_image (mkVec 1 0 0) full_pbc 2 0 (-1)) 1)
       full_pbc (1 / 1000) (1 / 1000) = true.
Proof.
  split; [lra |]. split; [lra |].
  apply (are_equal_translations shift_x _ full_pbc (1 / 1000) (1 / 1000) 2 0 (-1));
    try reflexivity; lra.
Defined.

(** [are_equal] depends on the order of its arguments: when the second
    translation exceeds the first by a small positive amount along a
    periodic axis the operations are equal, and in the other order, where
    the difference folds to just below 1, they are not. *)
Theorem are_equal_order (op1 : SymmOp) (P : PBC) (rtol atol eps : R) :
  0 < eps < rtol -> rtol <= 1 / 2 -> 0 <= atol -> pbc0 P = true ->
  let op2 := mkSymmOp (rotation_matrix op1)
                      (vadd (translation_vector op1) (mkVec eps 0 0)) (symm_tol op1) in
  are_equal op1 op2 P rtol atol = true /\ are_equal op2 op1 P rtol atol = false.
Proof.
  intros He Hr Ha HP. cbv zeta. unfold are_equal. cbv zeta.
  cbn [rotation_matrix translation_vector]. rewrite allclose_refl by lra. cbn [negb].
  rewrite HP. cbn [vsub vadd vx vy vz].
  set (t := translation_vector op1).
  replace (vx t + eps - vx t) with eps by ring.
  replace (vy t + 0 - vy t) with 0 by ring.
  replace (vz t + 0 - vz t) with 0 by ring.
  replace (vx t - (vx t + eps)) with (- eps) by ring.
  replace (vy t - (vy t + 0)) with 0 by ring.
  replace (vz t - (vz t + 0)) with 0 by ring.
  rewrite !fold_if_zero. cbn [fold_if].
  rewrite (floor_eq 0 eps) by lra. rewrite (floor_eq (-1) (- eps)) by lra.
  split.
  - assert (E : vnorm (mkVec (eps - 0) 0 0) = eps).
    { unfold vnorm. apply sqrt_eq_c; [lra |]. unfold vdot; cbn [vx vy vz]. ring. }
    rewrite E, Rabs_right by lra. now rewrite ltb_true by lra.
  - assert (E : vnorm (mkVec (- eps - -1) 0 0) = 1 - eps).
    { unfold vnorm. apply sqrt_eq_c; [lra |]. unfold vdot; cbn [vx vy vz]. ring. }
    rewrite E, Rabs_right by lra. now rewrite ltb_false by lra.
Qed.

Lemma are_equal_order_witness :
  0 < 1 / 10000 < 1 / 1000 /\ 1 / 1000 <= 1 / 2 /\ pbc0 full_pbc = true
  /\ are_equal shift_x
       (mkSymmOp eye3 (vadd (mkVec 1 0 0) (mkVec (1 / 10000) 0 0)) (1 / 10))
       full_pbc (1 / 1000) (1 / 1000) = true
  /\ are_equal (mkSymmOp eye3 (vadd (mkVec 1 0 0) (mkVec (1 / 10000) 0 0)) (1 / 10))
       shift_x full_pbc (1 / 1000) (1 / 1000) = false.
Proof.
  split; [lra |]. split; [lra |]. split; [reflexivity |].
  apply (are_equal_order shift_x full_pbc (1 / 1000) (1 / 1000) (1 / 10000));
    try reflexivity; lra.
Defined.

(** ** [get_inverse] and [apply_ops] *)

Ltac unfold_ops :=
  unfold operate, dot_mv, vdot, det in *;
  cbn [rotation_matrix translation_vector row0 row1 row2 vx vy vz vadd vscale] in *.

Lemma inv3_some m : det m <> 0 -> exists r, inv3 m = Some r.
Proof. intros H. unfold inv3. cbv zeta. rewrite eqb_false by exact H. eauto. Qed.

Lemma inv3_left m r p : det m <> 0 -> inv3 m = Some r -> dot_mv r (dot_mv m p) = p.
Proof.
  intros H E. unfold inv3 in E. cbv zeta in E. rewrite eqb_false in E by exact H.
  injection E as <-. destruct m as [[a b c] [d e f] [g h i]], p as [x y z].
  unfold_ops. apply vec_ext; cbn [vx vy vz]; field; exact H.
Qed.

Lemma inv3_right m r p : det m <> 0 -> inv3 m = Some r -> dot_mv m (dot_mv r p) = p.
Proof.
  intros H E. unfold inv3 in E. cbv zeta in E. rewrite eqb_false in E by exact H.
  injection E as <-. destruct m as [[a b c] [d e f] [g h i]], p as [x y z].
  unfold_ops. apply vec_ext; cbn [vx vy vz]; field; exact H.
Qed.

Lemma inv3_det m r : det m <> 0 -> inv3 m = Some r -> det r * det m = 1.
Proof.
  intros H E. unfold inv3 in E. cbv zeta in E. rewrite eqb_false in E by exact H.
  injection E as <-. destruct m as [[a b c] [d e f] [g h i]].
  unfold_ops. field. exact H.
Qed.

Lemma inv3_involutive m r : det m <> 0 -> inv3 m = Some r -> inv3 r = Some m.
Proof.
  intros H E. pose proof (inv3_det m r H E) as Hd.
  assert (Hr : det r <> 0) by (intros Z; rewrite Z in Hd; lra).
  assert (Hdr : det r = / det m) by (apply Rmult_eq_reg_r with (det m); [| exact H];
                                     rewrite Hd; field; exact H).
  unfold inv3 at 1. cbv zeta. rewrite eqb_false by exact Hr. rewrite Hdr. f_equal.
  clear Hd Hr Hdr.
  unfold inv3 in E. cbv zeta in E. rewrite eqb_false in E by exact H.
  injection E as <-. destruct m as [[a b c] [d e f] [g h i]].
  unfold det in *. cbn [row0 row1 row2 vx vy vz] in *.
  apply mat_ext; apply vec_ext; cbn [row0 row1 row2 vx vy vz]; field; exact H.
Qed.

Lemma dot_mv_add m a b : dot_mv m (vadd a b) = vadd (dot_mv m a) (dot_mv m b).
Proof. unfold dot_mv, vdot. apply vec_ext; cbn [vx vy vz vadd]; ring. Qed.

Lemma dot_mv_scale m c a : dot_mv m (vscale c a) = vscale c (dot_mv m a).
Proof. unfold dot_mv, vdot. apply vec_ext; cbn [vx vy vz vscale]; ring. Qed.

Lemma mat_ext_apply (a b : Mat3) : (forall p, dot_mv a p = dot_mv b p) -> a = b.
Proof.
  intros H.
  pose proof (H (mkVec 1 0 0)) as H0. pose proof (H (mkVec 0 1 0)) as H1.
  pose proof (H (mkVec 0 0 1)) as H2.
  destruct a as [[a0 a1 a2] [a3 a4 a5] [a6 a7 a8]], b as [[b0 b1 b2] [b3 b4 b5] [b6 b7 b8]].
  unfold dot_mv, vdot in H0, H1, H2. cbn [vx vy vz row0 row1 row2] in H0, H1, H2.
  injection H0 as X0 X1 X2. injection H1 as Y0 Y1 Y2. injection H2 as Z0 Z1 Z2.
  apply mat_ext; apply vec_ext; cbn [vx vy vz row0 row1 row2]; lra.
Qed.

Lemma dot_mm_apply a b p : dot_mv (dot_mm a b) p = dot_mv a (dot_mv b p).
Proof.
  destruct a as [[a0 a1 a2] [a3 a4 a5] [a6 a7 a8]], b as [[b0 b1 b2] [b3 b4 b5] [b6 b7 b8]].
  unfold dot_mv, vdot. apply vec_ext; mat_simpl; cbn [vx vy vz row0 row1 row2]; ring.
Qed.

Lemma dot_mv_eye3 p : dot_mv eye3 p = p.
Proof. unfold dot_mv, vdot, eye3. apply vec_ext; cbn [vx vy vz row0 row1 row2]; ring. Qed.

Lemma gram_det m : det (dot_mm m (transpose m)) = det m * det m.
Proof.
  destruct m as [[a b c] [d e f] [g h i]]. unfold det. mat_simpl.
  cbn [row0 row1 row2 vx vy vz]. ring.
Qed.

Lemma inv3_orthogonal m :
  dot_mm m (transpose m) = eye3 -> det m <> 0 /\ inv3 m = Some (transpose m).
Proof.
  intros Ho.
  assert (Hd : det m <> 0).
  { intros Z. pose proof (gram_det m) as G. rewrite Ho, Z in G.
    unfold det, eye3 in G. cbn [row0 row1 row2 vx vy vz] in G. lra. }
  split; [exact Hd |].
  destruct (inv3_some m Hd) as [r Er]. rewrite Er. f_equal.
  apply mat_ext_apply. intros p.
  rewrite <- (dot_mv_eye3 p) at 1. rewrite <- Ho, dot_mm_apply.
  apply (inv3_left m r _ Hd Er).
Qed.

(** An operation whose linear part is an orthogonal matrix has an inverse:
    its linear part is the transpose, its translation the opposite of the
    transposed matrix applied to the translation; applying the operation
    and then its inverse, or the inverse and then the operation, returns
    every point, and the inverse of the inverse has the linear part and the
    translation of the operation. *)
Theorem get_inverse_round_trip (op : SymmOp) :
  dot_mm (rotation_matrix op) (transpose (rotation_matrix op)) = eye3 ->
  exists inv, get_inverse op = Some inv
    /\ rotation_matrix inv = transpose (rotation_matrix op)
    /\ translation_vector inv
       = vscale (-1) (dot_mv (transpose (rotation_matrix op)) (translation_vector op))
    /\ (forall p q, apply_ops p [op] = Some [q] -> apply_ops q [inv] = Some [p])
    /\ (forall p q, apply_ops p [inv] = Some [q] -> apply_ops q [op] = Some [p])
    /\ exists back, get_inverse inv = Some back
         /\ rotation_matrix back = rotation_matrix op
         /\ translation_vector back = translation_vector op.
Proof.
  intros Ho. destruct (inv3_orthogonal _ Ho) as [H Er].
  pose proof (inv3_involutive _ _ H Er) as Eback.
  unfold get_inverse. rewrite Er. eexists. split; [reflexivity |].
  split; [reflexivity |]. split; [reflexivity |]. split; [| split].
  - intros p q [= <-]. cbn [apply_ops map]. do 2 f_equal.
    unfold operate. cbn [rotation_matrix translation_vector].
    rewrite dot_mv_add, (inv3_left _ _ _ H Er). vec_ring.
  - intros p q [= <-]. cbn [apply_ops map]. do 2 f_equal.
    unfold operate. cbn [rotation_matrix translation_vector].
    rewrite dot_mv_add, dot_mv_scale, !(inv3_right _ _ _ H Er). vec_ring.
  - cbn [rotation_matrix translation_vector]. rewrite Eback. eexists.
    split; [reflexivity |]. cbn [rotation_matrix translation_vector].
    split; [reflexivity |].
    rewrite dot_mv_scale, (inv3_right _ _ _ H Er). vec_ring.
Qed.

Lemma get_inverse_round_trip_witness :
  dot_mm (rotation_matrix shift_x) (transpose (rotation_matrix shift_x)) = eye3
  /\ exists inv, get_inverse shift_x = Some inv
       /\ rotation_matrix inv = transpose (rotation_matrix shift_x).
Proof.
  assert (Ho : dot_mm (rotation_matrix shift_x) (transpose (rotation_matrix shift_x)) = eye3)
    by (unfold shift_x; cbn [rotation_matrix]; mat_ring).
  split; [exact Ho |].
  destruct (get_inverse_round_trip shift_x Ho) as (inv & E & Hr & _).
  exists inv. split; [exact E | exact Hr].
Defined.

(** ** [angle] *)

Lemma cauchy_schwarz a b : vdot a b * vdot a b <= vdot a a * vdot b b.
Proof.
  unfold vdot. destruct a as [x y z], b as [u v w]. cbn [vx vy vz].
  assert (E : (x * x + y * y + z * z) * (u * u + v * v + w * w)
              - (x * u + y * v + z * w) * (x * u + y * v + z * w)
              = (x * v - y * u) * (x * v - y * u) + (x * w - z * u) * (x * w - z * u)
                + (y * w - z * v) * (y * w - z * v)) by ring.
  pose proof (Rle_0_sqr (x * v - y * u)). pose proof (Rle_0_sqr (x * w - z * u)).
  pose proof (Rle_0_sqr (y * w - z * v)). unfold Rsqr in *. lra.
Qed.

Lemma vnorm_sqr a : vnorm a * vnorm a = vdot a a.
Proof. unfold vnorm. apply sqrt_sqrt, vdot_self_nonneg. Qed.

(** The cosine handed to [arccos] lies between -1 and 1. *)
Lemma cosine_bounds a b :
  vdot a a <> 0 -> vdot b b <> 0 -> -1 <= vdot a b / (vnorm a * vnorm b) <= 1.
Proof.
  intros Ha Hb. pose proof (vnorm_pos a Ha) as Na. pose proof (vnorm_pos b Hb) as Nb.
  assert (Hp : 0 < vnorm a * vnorm b) by nra.
  pose proof (cauchy_schwarz a b) as CS. rewrite <- (vnorm_sqr a), <- (vnorm_sqr b) in CS.
  assert (Hsq : vdot a b * vdot a b <= (vnorm a * vnorm b) * (vnorm a * vnorm b)) by nra.
  split.
  - apply Rmult_le_reg_r with (vnorm a * vnorm b); [exact Hp |].
    unfold Rdiv. rewrite Rmult_assoc, Rinv_l by lra. nra.
  - apply Rmult_le_reg_r with (vnorm a * vnorm b); [exact Hp |].
    unfold Rdiv. rewrite Rmult_assoc, Rinv_l by lra. nra.
Qed.

Lemma vnorm_scale c a : vnorm (vscale c a) = Rabs c * vnorm a.
Proof.
  unfold vnorm.
  replace (vdot (vscale c a) (vscale c a)) with (c * c * vdot a a)
    by (unfold vdot; cbn [vscale vx vy vz]; ring).
  rewrite sqrt_mult by (try apply vdot_self_nonneg; nra).
  f_equal. fold (Rsqr c). apply sqrt_Rsqr_abs.
Qed.

Lemma vdot_scale_r c a b : vdot a (vscale c b) = c * vdot a b.
Proof. unfold vdot; cbn [vscale vx vy vz]; ring. Qed.

Lemma Rabs_minus_one : Rabs (-1) = 1.
Proof. rewrite Rabs_left1; lra. Qed.

Lemma acos_minus_one : acos (-1) = PI.
Proof. unfold acos. destruct (Rle_dec (-1) (-1)); [reflexivity | lra]. Qed.

(** [angle] does not depend on the order of the two vectors.  It returns 0
    as soon as the dot product of the vectors as given, not normalised,
    is within [1e-8 + 1e-5] of 1, whatever their directions and whatever
    the unit asked for, and [pi], in radians also when degrees are asked
    for, when the dot product is within [1e-8 + 1e-5] of -1.
    Perpendicular vectors other than zero are at a quarter turn. *)
Theorem angle_properties (deg : R) (v1 v2 : Vec3) (radians : bool) :
  angle deg v1 v2 radians = angle deg v2 v1 radians
  /\ (Rabs (vdot v1 v2 - 1) <= 1 / 100000000 + 1 / 100000 ->
      angle deg v1 v2 radians = 0)
  /\ (Rabs (vdot v1 v2 + 1) <= 1 / 100000000 + 1 / 100000 ->
      angle deg v1 v2 radians = PI)
  /\ (vdot v1 v1 <> 0 -> vdot v2 v2 <> 0 -> vdot v1 v2 = 0 ->
      angle deg v1 v2 true = PI / 2 /\ angle deg v1 v2 false = PI / 2 * deg).
Proof.
  split; [| split; [| split]].
  - unfold angle. cbv zeta.
    replace (vdot v2 v1) with (vdot v1 v2) by (unfold vdot; ring).
    now rewrite (Rmult_comm (vnorm v2) (vnorm v1)).
  - intros H. unfold angle. cbv zeta.
    rewrite (proj2 (isclose_iff (vdot v1 v2) 1 Np.default_rtol Np.default_atol));
      [reflexivity |].
    rewrite Rabs_R1. unfold Np.default_atol, Np.default_rtol. lra.
  - intros H. unfold angle. cbv zeta.
    rewrite (proj1 (Bool.not_true_iff_false (Np.isclose (vdot v1 v2) 1 _ _))).
    + rewrite (proj2 (isclose_iff (vdot v1 v2) (-1) Np.default_rtol Np.default_atol));
        [reflexivity |].
      rewrite Rabs_minus_one. unfold Np.default_atol, Np.default_rtol.
      replace (vdot v1 v2 - -1) with (vdot v1 v2 + 1) by ring. lra.
    + intros E. apply isclose_iff in E. rewrite Rabs_R1 in E.
      unfold Np.default_atol, Np.default_rtol in E.
      apply Rabs_le_bounds in E, H. lra.
  - intros _ _ H0. unfold angle. cbv zeta. rewrite H0.
    rewrite (proj1 (Bool.not_true_iff_false (Np.isclose 0 1 _ _))).
    + rewrite (proj1 (Bool.not_true_iff_false (Np.isclose 0 (-1) _ _))).
      * replace (0 / (vnorm v1 * vnorm v2)) with 0 by (unfold Rdiv; ring).
        rewrite acos_0. split; reflexivity.
      * intros E. apply isclose_iff in E. rewrite Rabs_minus_one in E.
        replace (0 - -1) with 1 in E by ring. rewrite Rabs_R1 in E.
        unfold Np.default_atol, Np.default_rtol in E. lra.
    + intros E. apply isclose_iff in E. rewrite Rabs_R1 in E.
      replace (0 - 1) with (-1) in E by ring. rewrite Rabs_minus_one in E.
      unfold Np.default_atol, Np.default_rtol in E. lra.
Qed.

(** ** A matrix that passes [is_orthogonal] has a determinant away from zero *)

Lemma det_gram m : det (dot_mm m (transpose m)) = det m * det m.
Proof.
  destruct m as [[a b c] [d e f] [g h i]]. unfold det. mat_simpl.
  cbn [row0 row1 row2 vx vy vz]. ring.
Qed.

Lemma isclose_one x :
  Np.isclose x 1 is_orthogonal_tol Np.default_atol = true -> 998 / 1000 <= x <= 1002 / 1000.
Proof.
  intros H. apply isclose_iff in H. rewrite Rabs_R1 in H. apply Rabs_le_bounds in H.
  unfold is_orthogonal_tol, Np.default_atol in H. lra.
Qed.

Lemma isclose_null x :
  Np.isclose x 0 is_orthogonal_tol Np.default_atol = true ->
  - (1 / 100000000) <= x <= 1 / 100000000.
Proof.
  intros H. apply isclose_iff in H. rewrite Rabs_R0, Rminus_0_r in H.
  apply Rabs_le_bounds in H. unfold is_orthogonal_tol, Np.default_atol in H. lra.
Qed.

(** A matrix with a diagonal near 1 and the rest near 0 has a positive
    determinant. *)
Lemma det_near_identity g :
  allclose g eye3 is_orthogonal_tol Np.default_atol = true -> 0 < det g.
Proof.
  destruct g as [[g00 g01 g02] [g10 g11 g12] [g20 g21 g22]].
  unfold allclose, mat_to_list, vec_to_list, eye3.
  cbn [row0 row1 row2 vx vy vz app combine forallb fst snd].
  intros H. repeat (apply andb_prop in H as [?H H]).
  repeat match goal with
         | H : Np.isclose _ 1 _ _ = true |- _ => apply isclose_one in H
         | H : Np.isclose _ 0 _ _ = true |- _ => apply isclose_null in H
         end.
  unfold det. cbn [row0 row1 row2 vx vy vz].
  assert (P1 : 99 / 100 <= g11 * g22 <= 101 / 100) by nra.
  assert (P2 : - (1 / 1000000) <= g12 * g21 <= 1 / 1000000) by nra.
  assert (P3 : - (1 / 1000000) <= g10 * g22 <= 1 / 1000000) by nra.
  assert (P4 : - (1 / 1000000) <= g12 * g20 <= 1 / 1000000) by nra.
  assert (P5 : - (1 / 1000000) <= g10 * g21 <= 1 / 1000000) by nra.
  assert (P6 : - (1 / 1000000) <= g11 * g20 <= 1 / 1000000) by nra.
  assert (Q1 : 98 / 100 <= g00 * (g11 * g22 - g12 * g21)) by nra.
  assert (Q2 : - (1 / 1000) <= g01 * (g10 * g22 - g12 * g20) <= 1 / 1000) by nra.
  assert (Q3 : - (1 / 1000) <= g02 * (g10 * g21 - g11 * g20) <= 1 / 1000) by nra.
  lra.
Qed.

Lemma is_orthogonal_det m : is_orthogonal m is_orthogonal_tol = true -> det m <> 0.
Proof.
  unfold is_orthogonal. cbv zeta.
  destruct (allclose (dot_mm m (transpose m)) eye3 _ _) eqn:E; [| discriminate].
  intros _ Hz. apply det_near_identity in E. rewrite det_gram, Hz in E. lra.
Qed.

(** ** What the constructor establishes *)

Lemma get_order_doubling angle tol :
  get_order angle true tol
  = match get_order angle false tol with
    | Finite n => Finite (if Z.odd n then (2 * n)%Z else n)
    | Irrational => Irrational
    end.
Proof.
  unfold get_order. destruct (order_loop angle tol (range 1 61)) as [n|]; [| reflexivity].
  rewrite Zmod_odd. destruct (Z.odd n); cbn [Z.eqb Pos.eqb]; [f_equal; lia | reflexivity].
Qed.

Lemma axis_angle_unit rotvec :
  (axis_angle rotvec = (IsNone, 0))
  \/ (exists v angle, axis_angle rotvec = (Val v, angle)
        /\ 1 / 1000 <= angle /\ vdot v v = 1 /\ angle = vnorm rotvec).
Proof.
  unfold axis_angle. destruct (Np.ltb (vdot rotvec rotvec) (1 / 1000000)) eqn:E.
  - now left.
  - right. eexists _, _. split; [reflexivity |].
    assert (H : ~ vdot rotvec rotvec < 1 / 1000000).
    { intros H. apply ltb_true in H. congruence. }
    split; [unfold vnorm; apply le_sqrt; lra |].
    split; [apply vdiv_normalized; lra | reflexivity].
Qed.

Lemma vdot_neg_unit v : vdot v v = 1 -> vdot (vscale (-1) v) (vscale (-1) v) = 1.
Proof. intros H. unfold vdot in *. cbn [vscale vx vy vz]. lra. Qed.

(** For every 3x3 array the constructor returns an analyzer, without any
    message.  Its type is never [degenerate]: a matrix that passes
    [is_orthogonal] has a determinant other than zero.  The other fields
    follow the type: identity and inversion have no axis, angle 0 and
    orders (1, 1) and (2, 1); a rotation or rotoinversion has a unit axis
    and an angle of at least 0.001, the norm of the rotation vector; the
    order of a rotation equals its rotation order, the order of a
    rotoinversion is its rotation order, doubled when odd; a general
    operation has no axis, angle or order. *)
Theorem init_invariants (f : Mat3 -> Vec3) (m : Mat3) :
  exists a t, init f (ArgArray3x3 m) = ([], Ok a)
    /\ a_m a = Val m /\ a_det a = Val (det m) /\ a_type a = Val t
    /\ match t with
       | General =>
           is_orthogonal m is_orthogonal_tol = false
           /\ a_axis a = IsNone /\ a_angle a = IsNone
           /\ a_order a = IsNone /\ a_rotation_order a = IsNone
       | Identity =>
           0 < det m /\ a_inverted a = Val false
           /\ a_axis a = IsNone /\ a_angle a = Val 0
           /\ a_order a = Val (Finite 1) /\ a_rotation_order a = Val (Finite 1)
       | Inversion =>
           det m < 0 /\ a_inverted a = Val true
           /\ a_axis a = IsNone /\ a_angle a = Val 0
           /\ a_order a = Val (Finite 2) /\ a_rotation_order a = Val (Finite 1)
       | Rotation =>
           0 < det m /\ a_inverted a = Val false
           /\ exists v angle, a_axis a = Val v /\ vdot v v = 1
                /\ a_angle a = Val angle /\ 1 / 1000 <= angle /\ angle = vnorm (f m)
                /\ a_order a = Val (get_order angle false get_order_tol)
                /\ a_rotation_order a = a_order a
       | Rotoinversion =>
           det m < 0 /\ a_inverted a = Val true
           /\ exists v angle, a_axis a = Val v /\ vdot v v = 1
                /\ a_angle a = Val angle /\ 1 / 1000 <= angle
                /\ angle = vnorm (f (mscale (-1) m))
                /\ a_rotation_order a = Val (get_order angle false get_order_tol)
                /\ a_order a
                   = Val (match get_order angle false get_order_tol with
                          | Finite n => Finite (if Z.odd n then (2 * n)%Z else n)
                          | Irrational => Irrational
                          end)
       | Degenerate => False
       end.
Proof.
  unfold init, classify.
  cbn [rotation_matrix from_rotation_and_translation a_m getval bind].
  destruct (is_orthogonal m is_orthogonal_tol) eqn:Eo; cbn [negb].
  - pose proof (is_orthogonal_det m Eo) as Hdet.
    destruct (Np.ltb 0 (det m)) eqn:Epos.
    + apply ltb_iff in Epos.
      destruct (axis_angle_unit (f m)) as [E|(v & angle & E & Hang & Hu & Hn)]; rewrite E.
      * rewrite isclose_zero_true. eexists _, Identity. repeat split. exact Epos.
      * rewrite isclose_zero_false by exact Hang. eexists _, Rotation.
        repeat split; [exact Epos |]. exists v, angle. repeat split; auto.
    + destruct (Np.ltb (det m) 0) eqn:Eneg.
      * apply ltb_iff in Eneg.
        destruct (axis_angle_unit (f (mscale (-1) m))) as [E|(v & angle & E & Hang & Hu & Hn)];
          rewrite E.
        -- rewrite isclose_zero_true. eexists _, Inversion. repeat split. exact Eneg.
        -- rewrite isclose_zero_false by exact Hang. eexists _, Rotoinversion.
           repeat split; [exact Eneg |]. exists (vscale (-1) v), angle.
           cbn [set_classification a_axis a_angle a_order a_rotation_order].
           rewrite get_order_doubling. repeat split; auto using vdot_neg_unit.
      * exfalso. apply Hdet. apply eqb_eq. now apply det_trichotomy.
  - eexists _, General. repeat split.
Qed.

Lemma init_invariants_exists f m : exists a, init f (ArgArray3x3 m) = ([], Ok a).
Proof.
  unfold init, classify.
  cbn [rotation_matrix from_rotation_and_translation a_m getval bind].
  destruct (is_orthogonal m is_orthogonal_tol) eqn:Eo; cbn [negb]; [| eauto].
  pose proof (is_orthogonal_det m Eo) as Hdet.
  destruct (Np.ltb 0 (det m)) eqn:Epos.
  - destruct (axis_angle (f m)) as [axis ang]. destruct (Np.isclose ang 0 _ _); eauto.
  - destruct (Np.ltb (det m) 0) eqn:Eneg.
    + destruct (axis_angle_unit (f (mscale (-1) m))) as [E|(v & angle & E & Hang & _)];
        rewrite E.
      * rewrite isclose_zero_true. eauto.
      * rewrite isclose_zero_false by exact Hang. eauto.
    + exfalso. apply Hdet. apply eqb_eq. now apply det_trichotomy.
Qed.

(** The classification reads the linear part only. *)
Lemma classify_same_matrix f s1 s2 :
  a_m s1 = a_m s2 -> a_inverted s1 = a_inverted s2 ->
  a_order s1 = a_order s2 -> a_rotation_order s1 = a_rotation_order s2 ->
  match classify f s1, classify f s2 with
  | Ok a1, Ok a2 =>
      a_type a1 = a_type a2 /\ a_axis a1 = a_axis a2 /\ a_angle a1 = a_angle a2
      /\ a_order a1 = a_order a2 /\ a_rotation_order a1 = a_rotation_order a2
      /\ a_inverted a1 = a_inverted a2
  | Raise e1, Raise e2 => e1 = e2
  | _, _ => False
  end.
Proof.
  intros Hm Hi Ho Hr. unfold classify. rewrite Hm, Hi, Ho, Hr.
  destruct (a_m s2) as [| |m]; cbn [getval bind]; try reflexivity.
  destruct (negb (is_orthogonal m is_orthogonal_tol)); [repeat split |].
  destruct (Np.ltb 0 (det m)) eqn:E1.
  { destruct (axis_angle (f m)) as [axis ang].
    destruct (Np.isclose ang 0 _ _); repeat split. }
  destruct (Np.ltb (det m) 0) eqn:E2.
  { destruct (axis_angle (f (mscale (-1) m))) as [axis ang].
    destruct (Np.isclose ang 0 _ _); [repeat split |].
    destruct axis; repeat split. }
  rewrite (det_trichotomy _ E1 E2). repeat split.
Qed.

(** An operation and its bare rotation matrix are classified alike: the
    constructor never raises on either, and type, axis, angle, order,
    rotation order and inversion flag do not depend on the translation. *)
Theorem init_ignores_translation (f : Mat3 -> Vec3) (op : SymmOp) :
  exists a1 a2,
    init f (ArgSymmOp op) = ([], Ok a1)
    /\ init f (ArgArray3x3 (rotation_matrix op)) = ([], Ok a2)
    /\ a_type a1 = a_type a2 /\ a_axis a1 = a_axis a2 /\ a_angle a1 = a_angle a2
    /\ a_order a1 = a_order a2 /\ a_rotation_order a1 = a_rotation_order a2
    /\ a_inverted a1 = a_inverted a2.
Proof.
  set (s1 := mkAnalyzer (Val op) (Val (symm_tol op))
                (Val (rotation_matrix op, translation_vector op))
                (Val (rotation_matrix op)) (Val (det (rotation_matrix op)))
                Unset Unset Unset Unset Unset Unset).
  set (s2 := mkAnalyzer (Val (from_rotation_and_translation (rotation_matrix op) vzero))
                Unset Unset (Val (rotation_matrix op)) (Val (det (rotation_matrix op)))
                Unset Unset Unset Unset Unset Unset).
  assert (H1 : init f (ArgSymmOp op) = ([], classify f s1)) by reflexivity.
  assert (H2 : init f (ArgArray3x3 (rotation_matrix op)) = ([], classify f s2))
    by reflexivity.
  destruct (init_invariants_exists f (rotation_matrix op)) as (a2 & E2).
  rewrite H2 in E2. injection E2 as E2.
  pose proof (classify_same_matrix f s1 s2 eq_refl eq_refl eq_refl eq_refl) as H.
  rewrite E2 in H. destruct (classify f s1) as [a1|e] eqn:E1; [| contradiction].
  exists a1, a2. split; [now rewrite H1 |]. split; [now rewrite H2, E2 | exact H].
Qed.

(** ** [is_conjugate] and [are_conjugate] on one operation *)

Lemma classify_kinds f self a :
  classify f self = Ok a ->
  exists t, a_type a = Val t /\ t <> Degenerate
    /\ (is_rotational t = true -> exists angle, a_angle a = Val angle /\ 1 / 1000 <= angle).
Proof.
  unfold classify. destruct (a_m self) as [| |m]; cbn [getval bind]; try discriminate.
  destruct (is_orthogonal m is_orthogonal_tol) eqn:Eo; cbn [negb].
  - pose proof (is_orthogonal_det m Eo) as Hdet.
    destruct (Np.ltb 0 (det m)) eqn:Epos.
    + destruct (axis_angle_cases (f m)) as [E|(v & angle & E & Hang)]; rewrite E.
      * rewrite isclose_zero_true. intros [= <-]. exists Identity.
        repeat split; discriminate.
      * rewrite isclose_zero_false by exact Hang. intros [= <-]. exists Rotation.
        repeat split; [discriminate |]. intros _. exists angle. now split.
    + destruct (Np.ltb (det m) 0) eqn:Eneg.
      * destruct (axis_angle_cases (f (mscale (-1) m))) as [E|(v & angle & E & Hang)];
          rewrite E.
        -- rewrite isclose_zero_true. intros [= <-]. exists Inversion.
           repeat split; discriminate.
        -- rewrite isclose_zero_false by exact Hang. intros [= <-]. exists Rotoinversion.
           repeat split; [discriminate |]. intros _. exists angle. now split.
      * exfalso. apply Hdet. apply eqb_eq. now apply det_trichotomy.
  - intros [= <-]. exists General. repeat split; discriminate.
Qed.

Lemma isclose_one_one : Np.isclose 1 1 Np.default_rtol conjugate_atol = true.
Proof. apply isclose_refl; unfold Np.default_rtol, conjugate_atol; lra. Qed.

(** An analyzer the constructor returned is conjugate to itself, with the
    answer [True], unless its type is [general]: then the method falls off
    its end and the answer is [None]. *)
Theorem is_conjugate_reflexive (f : Mat3 -> Vec3) (a : Analyzer) :
  classified f a ->
  exists t, a_type a = Val t /\ t <> Degenerate
    /\ is_conjugate f a (ConjAnalyzer a)
       = Ok (match t with General => AnsNone | _ => AnsTrue end).
Proof.
  intros (arg & msgs & H).
  assert (Hc : exists s, classify f s = Ok a)
    by (destruct arg; cbn [init] in H; injection H as _ H; eauto).
  destruct Hc as [s Hc]. destruct (classify_kinds f s a Hc) as (t & Et & Hnd & Hrot).
  exists t. repeat split; auto.
  unfold is_conjugate. rewrite Et. cbn [getval bind]. rewrite optype_eqb_refl.
  destruct t; cbn [is_rotational is_pointlike]; try reflexivity; try congruence.
  - destruct (Hrot eq_refl) as (angle & Ea & Hang). rewrite Ea. cbn [getval bind].
    replace (angle / angle) with 1 by (field; lra). now rewrite isclose_one_one.
  - destruct (Hrot eq_refl) as (angle & Ea & Hang). rewrite Ea. cbn [getval bind].
    replace (angle / angle) with 1 by (field; lra). now rewrite isclose_one_one.
Qed.

Lemma is_conjugate_reflexive_witness :
  classified rotvec_model rotation_unit
  /\ is_conjugate rotvec_model rotation_unit (ConjAnalyzer rotation_unit) = Ok AnsTrue.
Proof.
  split; [exact classified_rotation_unit |].
  destruct (is_conjugate_reflexive rotvec_model rotation_unit classified_rotation_unit)
    as (t & Et & _ & H).
  injection Et as <-. exact H.
Defined.

(** Called with a 3x3 array as both arguments, [are_conjugate] builds the
    analyzers itself and answers [True], or [None] for a matrix that is not
    orthogonal.  Called with an analyzer as first argument it raises: the
    local name [opa1] is then never bound. *)
Theorem are_conjugate_behaviour (f : Mat3 -> Vec3) (m : Mat3) :
  (exists a t, init f (ArgArray3x3 m) = ([], Ok a) /\ a_type a = Val t
     /\ are_conjugate f (ConjRaw (ArgArray3x3 m)) (ConjRaw (ArgArray3x3 m))
        = Ok (match t with General => AnsNone | _ => AnsTrue end))
  /\ (forall a op2, are_conjugate f (ConjAnalyzer a) op2 = Raise (NameError "opa1")).
Proof.
  split; [| reflexivity].
  destruct (init_invariants_exists f m) as (a & E).
  assert (Hc : exists s, classify f s = Ok a)
    by (cbn [init] in E; injection E as E; eauto).
  destruct Hc as [s Hc]. destruct (classify_kinds f s a Hc) as (t & Et & Hnd & Hrot).
  exists a, t. split; [exact E |]. split; [exact Et |].
  unfold are_conjugate, is_conjugate. rewrite E. cbn [snd bind].
  rewrite Et. cbn [getval bind]. rewrite optype_eqb_refl.
  destruct t; cbn [is_rotational is_pointlike]; try reflexivity; try congruence.
  - destruct (Hrot eq_refl) as (angle & Ea & Hang). rewrite Ea. cbn [getval bind].
    replace (angle / angle) with 1 by (field; lra). now rewrite Rabs_R1, isclose_one_one.
  - destruct (Hrot eq_refl) as (angle & Ea & Hang). rewrite Ea. cbn [getval bind].
    replace (angle / angle) with 1 by (field; lra). now rewrite Rabs_R1, isclose_one_one.
Qed.

(** ** [find_short_dist]: what every call returns *)

(** For any two points, however close, [find_short_dist] returns no pair
    and a graph without links: the column it reads for the second point is
    never beyond 1. *)
Theorem find_short_dist_two_points (p q : Vec3) (lattice : option Mat3) (tol : R)
  (P : PBC) :
  find_short_dist [p; q] lattice tol P = Some ([], [[]; []]).
Proof.
  rewrite find_short_dist_nonempty by discriminate.
  unfold find_short_dist_from. cbv zeta.
  set (d := distance_matrix [p; q] [p; q] lattice P).
  destruct (distance_matrix_shape [p; q] [p; q] lattice P) as [Hlen Hrows].
  fold d in Hlen, Hrows.
  assert (H00 : cell d 0 0 = 0) by (apply distance_matrix_diag_zero; simpl; lia).
  assert (H11 : cell d 1 1 = 0) by (apply distance_matrix_diag_zero; simpl; lia).
  assert (Hmask : np_le d tol
                  = [[Np.leb 0 tol; Np.leb (cell d 0 1) tol];
                     [Np.leb (cell d 1 0) tol; Np.leb 0 tol]]).
  { rewrite (matrix_cells d 2 2 Hlen Hrows) at 1. unfold np_le. cbn [seq map].
    now rewrite H00, H11. }
  assert (N01 : 0 <= cell d 0 1) by (apply distance_matrix_cell_nonneg; simpl; lia).
  assert (N10 : 0 <= cell d 1 0) by (apply distance_matrix_cell_nonneg; simpl; lia).
  rewrite Hmask. clearbody d.
  destruct (Rle_dec 0 tol) as [Ht|Ht].
  - rewrite (leb_true 0 tol Ht).
    destruct (Np.leb (cell d 0 1) tol), (Np.leb (cell d 1 0) tol); reflexivity.
  - rewrite !leb_false by lra. reflexivity.
Qed.

Lemma pairs_loop_invariant (Q : Pair -> Prop) d cols rows : forall acc pairs,
  (forall i j, (i < j)%nat -> Q (i, j, cell d i j)) ->
  Forall Q acc ->
  pairs_loop d cols rows acc = Some pairs -> Forall Q pairs.
Proof.
  induction rows as [|i rows IH]; intros acc pairs HQ Hacc; cbn [pairs_loop].
  - now intros [= <-].
  - destruct (nth_error cols i) as [j|]; [| discriminate].
    destruct (j <=? i)%nat eqn:E.
    + now apply IH.
    + apply IH; auto. apply Forall_app. split; auto.
      constructor; [| constructor]. apply HQ. apply Nat.leb_gt in E. lia.
Qed.

Lemma graph_append_split (l1 l2 : list (list nat)) row new_row :
  firstn (length l1) (l1 ++ row :: l2) ++ new_row :: skipn (S (length l1)) (l1 ++ row :: l2)
  = l1 ++ new_row :: l2.
Proof.
  rewrite firstn_app, Nat.sub_diag, firstn_all2 by lia. cbn [firstn]. rewrite app_nil_r.
  rewrite skipn_app, skipn_all2 by lia.
  replace (S (length l1) - length l1)%nat with 1%nat by lia. reflexivity.
Qed.

Lemma graph_append_spec graph i x g' :
  graph_append graph i x = Some g' ->
  length g' = length graph
  /\ forall k y, In y (nth k g' []) <-> In y (nth k graph []) \/ (k = i /\ y = x).
Proof.
  unfold graph_append. destruct (nth_error graph i) as [row|] eqn:E; [| discriminate].
  destruct (nth_error_split graph i E) as (l1 & l2 & -> & <-).
  rewrite graph_append_split. intros H. injection H as <-.
  split; [rewrite !length_app; reflexivity |].
  intros k y. destruct (Nat.lt_trichotomy k (length l1)) as [Hk|[Hk|Hk]].
  - rewrite !app_nth1 by lia. split; [auto | intros [H|[H _]]; [auto | lia]].
  - subst k. rewrite !app_nth2, Nat.sub_diag by lia. cbn [nth].
    rewrite in_app_iff. cbn [In]. intuition.
  - rewrite !app_nth2 by lia.
    replace (k - length l1)%nat with (S (k - length l1 - 1)) by lia. cbn [nth].
    split; [auto | intros [H|[H _]]; [auto | lia]].
Qed.

Lemma graph_loop_spec pairs : forall graph g',
  graph_loop pairs graph = Some g' ->
  length g' = length graph
  /\ forall k y, In y (nth k g' []) <->
       In y (nth k graph [])
       \/ exists pr, In pr pairs
            /\ ((k = pair_i pr /\ y = pair_j pr) \/ (k = pair_j pr /\ y = pair_i pr)).
Proof.
  induction pairs as [|pr pairs IH]; intros graph g'; cbn [graph_loop].
  - intros [= <-]. split; [reflexivity |]. intros k y. split; [auto |].
    intros [H|(pr & [] & _)]. exact H.
  - destruct (graph_append graph (pair_i pr) (pair_j pr)) as [g1|] eqn:E1; [| discriminate].
    destruct (graph_append g1 (pair_j pr) (pair_i pr)) as [g2|] eqn:E2; [| discriminate].
    intros H. apply IH in H as [Hlen Hin].
    apply graph_append_spec in E1 as [Hl1 Hin1].
    apply graph_append_spec in E2 as [Hl2 Hin2].
    split; [congruence |]. intros k y. rewrite Hin, Hin2, Hin1. cbn [In]. split.
    + intros [[[H|H]|H]|(pr' & Hpr & H)]; auto.
      * right. exists pr. split; auto.
      * right. exists pr. split; auto.
      * right. exists pr'. split; auto.
    + intros [H|(pr' & [<-|Hpr] & H)]; auto.
      * destruct H; auto.
      * right. exists pr'. split; auto.
Qed.

Lemma nth_map_nil (n k : nat) : nth k (map (fun _ : nat => @nil nat) (seq 0 n)) [] = [].
Proof.
  destruct (Nat.lt_ge_cases k n) as [H|H].
  - now rewrite nth_map_seq.
  - apply nth_overflow. now rewrite length_map, length_seq.
Qed.

Lemma filter_min_kept (pairs : list Pair) pr :
  In pr (filter (fun p => Np.leb (pair_dist p) (Np.min (map pair_dist pairs) + 1 / 1000))
           pairs) ->
  In pr pairs
  /\ pair_dist pr
     <= Np.min (map pair_dist
                  (filter (fun p => Np.leb (pair_dist p)
                                      (Np.min (map pair_dist pairs) + 1 / 1000)) pairs))
        + 1 / 1000.
Proof.
  intros H. pose proof H as H'. apply filter_In in H' as [Hin Hle]. split; [exact Hin |].
  apply leb_iff in Hle.
  assert (Hne : map pair_dist pairs <> []) by (destruct pairs; [contradiction | discriminate]).
  apply min_in, in_map_iff in Hne as (p0 & E0 & Hp0).
  assert (Hkeep : In p0 (filter (fun p => Np.leb (pair_dist p)
                                    (Np.min (map pair_dist pairs) + 1 / 1000)) pairs)).
  { apply filter_In. split; [exact Hp0 |]. apply leb_true. rewrite E0. lra. }
  assert (Hmin : Np.min
                   (map pair_dist
                      (filter (fun p => Np.leb (pair_dist p)
                                          (Np.min (map pair_dist pairs) + 1 / 1000)) pairs))
                 = Np.min (map pair_dist pairs)).
  { apply min_unique.
    - apply in_map_iff. exists p0. split; [exact E0 | exact Hkeep].
    - intros x Hx. apply in_map_iff in Hx as (p1 & <- & Hp1).
      apply filter_In in Hp1 as [Hp1 _]. apply min_le. now apply in_map. }
  rewrite Hmin. exact Hle.
Qed.

(** Whatever [find_short_dist] returns: the graph has one entry per point;
    every returned pair has its first index below its second and carries
    the entry of the distance matrix at these indices; no returned
    distance exceeds the least returned distance by more than 0.001; and
    [j] is listed in the graph under [i] exactly when [(i, j)] or [(j, i)]
    is a returned pair. *)
Theorem find_short_dist_invariants (coor : list Vec3) (lattice : option Mat3) (tol : R)
  (P : PBC) (pairs : list Pair) (graph : list (list nat)) :
  coor <> [] ->
  find_short_dist coor lattice tol P = Some (pairs, graph) ->
  length graph = length coor
  /\ (forall pr, In pr pairs ->
        (pair_i pr < pair_j pr)%nat
        /\ pair_dist pr = cell (distance_matrix coor coor lattice P) (pair_i pr) (pair_j pr)
        /\ pair_dist pr <= Np.min (map pair_dist pairs) + 1 / 1000)
  /\ (forall i j, In j (nth i graph []) <->
        exists pr, In pr pairs
          /\ ((i = pair_i pr /\ j = pair_j pr) \/ (i = pair_j pr /\ j = pair_i pr))).
Proof.
  intros Hne. rewrite find_short_dist_nonempty by exact Hne.
  unfold find_short_dist_from. cbv zeta.
  set (d := distance_matrix coor coor lattice P).
  set (Q := fun pr : Pair => (pair_i pr < pair_j pr)%nat
                             /\ pair_dist pr = cell d (pair_i pr) (pair_j pr)).
  destruct (pairs_loop d _ _ []) as [pairs0|] eqn:E0; [| discriminate].
  assert (HQ : Forall Q pairs0).
  { apply (pairs_loop_invariant Q) in E0; auto. intros i j Hij. now split. }
  rewrite Forall_forall in HQ.
  destruct (0 <? length pairs0)%nat eqn:El.
  - destruct (graph_loop _ _) as [g|] eqn:Eg; [| discriminate].
    intros [= <- <-]. apply graph_loop_spec in Eg as [Hlen Hin].
    split; [now rewrite Hlen, length_map, length_seq |]. split.
    + intros pr Hpr. destruct (filter_min_kept pairs0 pr Hpr) as [Hin0 Hle].
      destruct (HQ pr Hin0) as [H1 H2]. repeat split; auto.
    + intros i j. rewrite Hin, nth_map_nil. cbn [In]. tauto.
  - intros [= <- <-]. apply Nat.ltb_ge in El.
    assert (pairs0 = []) by (destruct pairs0; [reflexivity | simpl in El; lia]). subst.
    split; [now rewrite length_map, length_seq |]. split.
    + intros pr [].
    + intros i j. rewrite nth_map_nil. cbn [In]. split; [tauto | intros (pr & [] & _)].
Qed.

Lemma find_short_dist_invariants_witness :
  scattered_points <> []
  /\ find_short_dist scattered_points (Some eye3) (15 / 100) full_pbc
      = Some ([(1%nat, 2%nat, 4 / 10)], [[]; [2%nat]; [1%nat]])
  /\ length [[]; [2%nat]; [1%nat]] = length scattered_points.
Proof.
  assert (H : scattered_points <> []) by discriminate.
  split; [exact H |]. split; [exact find_short_dist_scattered |].
  exact (proj1 (find_short_dist_invariants scattered_points (Some eye3) (15 / 100) full_pbc
                  _ _ H find_short_dist_scattered)).
Defined.

(** ** [verify_distances]: with and without the name [Element] *)

Lemma upper_pairs_In n i j : In (i, j) (upper_pairs n) <-> (i < j)%nat /\ (j < n)%nat.
Proof.
  unfold upper_pairs. rewrite in_flat_map. split.
  - intros (i' & Hi' & H). apply in_map_iff in H as (j' & [= <- <-] & Hj').
    apply filter_In in Hj' as [Hj' Hlt]. apply in_seq in Hj'. apply Nat.ltb_lt in Hlt. lia.
  - intros [Hij Hj]. exists i. split; [apply in_seq; lia |].
    apply in_map_iff. exists j. split; [reflexivity |].
    apply filter_In. split; [apply in_seq; lia | now apply Nat.ltb_lt].
Qed.

(** If the global name [Element] were bound to a table of covalent radii,
    and there is a species for every point, [verify_distances] would
    return [False] exactly when some pair [i < j] has a minimum-image
    distance below [factor] times half the sum of the two radii. *)
Theorem verify_distances_with_radii (radius : Species -> R) (coordinates : list Vec3)
  (species : list Species) (lattice : Mat3) (factor : R) (P : PBC) :
  (length coordinates <= length species)%nat ->
  exists b,
    verify_distances (mkGlobals (Some radius)) coordinates species lattice factor P = Ok b
    /\ (b = false <->
        exists i j, (i < j)%nat /\ (j < length coordinates)%nat
          /\ violates radius coordinates species lattice factor P i j).
Proof.
  intros Hlen. rewrite verify_distances_bound by exact Hlen.
  eexists. split; [reflexivity |].
  rewrite negb_false_iff, existsb_exists. split.
  - intros ([i j] & Hin & Hb). apply upper_pairs_In in Hin as [Hij Hj].
    exists i, j. repeat split; auto. unfold violates_b in Hb. cbn [fst snd] in Hb.
    now apply ltb_iff in Hb.
  - intros (i & j & Hij & Hj & Hv). exists (i, j). split; [now apply upper_pairs_In |].
    unfold violates_b. cbn [fst snd]. now apply ltb_iff.
Qed.

Lemma verify_distances_with_radii_witness :
  (length two_atoms <= length two_carbons)%nat
  /\ exists b,
       verify_distances (mkGlobals (Some (fun _ => 1))) two_atoms two_carbons eye3 1 full_pbc
       = Ok b.
Proof.
  assert (H : (length two_atoms <= length two_carbons)%nat) by (simpl; lia).
  split; [exact H |].
  destruct (verify_distances_with_radii (fun _ => 1) two_atoms two_carbons eye3 1 full_pbc H)
    as (b & Hb & _).
  exists b. exact Hb.
Defined.

(** As the module stands: without points, or with one point and a species
    for it, [verify_distances] returns [True] and never reads [Element];
    with one point and no species it raises [IndexError]; with two points
    or more, and a species for the first two, it raises [NameError]
    whatever the coordinates, lattice, factor and flags. *)
Theorem verify_distances_edges (G : Globals) (c0 c1 : Vec3) (cs : list Vec3)
  (s0 s1 : Species) (ss species : list Species) (lattice : Mat3) (factor : R) (P : PBC) :
  verify_distances G [] species lattice factor P = Ok true
  /\ verify_distances G [c0] (s0 :: ss) lattice factor P = Ok true
  /\ verify_distances G [c0] [] lattice factor P = Raise IndexError
  /\ verify_distances module_globals (c0 :: c1 :: cs) (s0 :: s1 :: ss) lattice factor P
     = Raise (NameError "Element").
Proof. repeat split. Qed.

(** ** [project_point] without periodic axes *)

Lemma kept_nonzero (b : Vec3) :
  Np.isclose (sqrt (vdot b b)) 0 Np.default_rtol Np.default_atol = false ->
  vdot b b <> 0.
Proof.
  intros H E. rewrite E, sqrt_0 in H.
  rewrite isclose_refl in H; [discriminate | |];
    unfold Np.default_rtol, Np.default_atol; lra.
Qed.

Lemma project_coefficient (q b acc : Vec3) :
  exists c : R,
    (if negb (Np.isclose (sqrt (vdot b b)) 0 Np.default_rtol Np.default_atol)
     then vadd acc (vscale (vdot q b / (sqrt (vdot b b) ^ 2)) b)
     else acc) = vadd acc (vscale c b)
    /\ (forall q' : Vec3, vdot q' b = c * vdot b b ->
        (if negb (Np.isclose (sqrt (vdot b b)) 0 Np.default_rtol Np.default_atol)
         then vadd acc (vscale (vdot q' b / (sqrt (vdot b b) ^ 2)) b)
         else acc) = vadd acc (vscale c b)).
Proof.
  assert (Hsq : sqrt (vdot b b) ^ 2 = vdot b b).
  { simpl. rewrite Rmult_1_r. apply sqrt_sqrt, vdot_self_nonneg. }
  rewrite Hsq.
  destruct (Np.isclose (sqrt (vdot b b)) 0 Np.default_rtol Np.default_atol) eqn:K;
    cbn [negb].
  - exists 0. split; [vec_ring |]. intros _ _. vec_ring.
  - pose proof (kept_nonzero b K) as Hnz.
    exists (vdot q b / vdot b b). split; [reflexivity |].
    intros q' Hq'. rewrite Hq'. do 2 f_equal. now field.
Qed.

Lemma project_direct_twice (point : Vec3) (op : SymmOp) :
  let T := transpose (rotation_matrix op) in
  vdot (row0 T) (row1 T) = 0 -> vdot (row0 T) (row2 T) = 0 -> vdot (row1 T) (row2 T) = 0 ->
  fst (project_direct (fst (project_direct point op)) op) = fst (project_direct point op).
Proof.
  intros T H01 H02 H12. unfold project_direct. cbv zeta. cbn [fst fold_left].
  fold T. set (t := translation_vector op). set (q := vsub point t).
  set (b0 := row0 T) in *. set (b1 := row1 T) in *. set (b2 := row2 T) in *.
  destruct (project_coefficient q b0 vzero) as (c0 & E0 & S0).
  rewrite E0.
  destruct (project_coefficient q b1 (vadd vzero (vscale c0 b0))) as (c1 & E1 & S1).
  rewrite E1.
  destruct (project_coefficient q b2 (vadd (vadd vzero (vscale c0 b0)) (vscale c1 b1)))
    as (c2 & E2 & S2).
  rewrite E2.
  set (nv := vadd (vadd (vadd vzero (vscale c0 b0)) (vscale c1 b1)) (vscale c2 b2)).
  set (q' := vsub (vadd nv t) t).
  assert (H10 : vdot b1 b0 = 0) by (rewrite <- H01; unfold vdot; ring).
  assert (H20 : vdot b2 b0 = 0) by (rewrite <- H02; unfold vdot; ring).
  assert (H21 : vdot b2 b1 = 0) by (rewrite <- H12; unfold vdot; ring).
  assert (D : forall b, vdot q' b = c0 * vdot b0 b + c1 * vdot b1 b + c2 * vdot b2 b).
  { intros b. unfold q', nv, vdot. cbn [vx vy vz vadd vsub vscale vzero]. ring. }
  rewrite (S0 q') by (rewrite D, H10, H20; ring).
  rewrite (S1 q') by (rewrite D, H01, H21; ring).
  rewrite (S2 q') by (rewrite D, H02, H12; ring).
  reflexivity.
Qed.

(** Without periodic axes, and for an operation whose rotation matrix has
    pairwise orthogonal columns, projecting is idempotent: projecting the
    returned vector again returns it unchanged, whether the point is
    passed as a list or as an array. *)
Theorem project_point_idempotent (kind kind' : PointKind) (point : Vec3) (op : SymmOp)
  (lattice lattice' : Mat3) (P : PBC) :
  pbc_nonzero P = false ->
  vdot (col0 (rotation_matrix op)) (col1 (rotation_matrix op)) = 0 ->
  vdot (col0 (rotation_matrix op)) (col2 (rotation_matrix op)) = 0 ->
  vdot (col1 (rotation_matrix op)) (col2 (rotation_matrix op)) = 0 ->
  fst (project_point kind' (fst (project_point kind point op lattice P)) op lattice' P)
  = fst (project_point kind point op lattice P).
Proof.
  intros HP H01 H02 H12. unfold project_point. rewrite HP. cbn [negb].
  pose proof (project_direct_twice point op H01 H02 H12) as H.
  destruct (project_direct point op) as [nv sh] eqn:E1. cbn [fst] in *.
  destruct (project_direct nv op) as [nv' sh'] eqn:E2. cbn [fst] in *. exact H.
Qed.

Lemma project_point_idempotent_witness :
  pbc_nonzero no_pbc = false
  /\ fst (project_point PyList (fst (project_point PyList (mkVec 1 2 3) shift_x eye3 no_pbc))
            shift_x eye3 no_pbc)
     = fst (project_point PyList (mkVec 1 2 3) shift_x eye3 no_pbc).
Proof.
  split; [reflexivity |].
  apply (project_point_idempotent PyList PyList (mkVec 1 2 3) shift_x eye3 eye3 no_pbc);
    [reflexivity | | |]; unfold shift_x, vdot; simpl; ring.
Defined.

(** ** [check_images]: the periodic images of a set of points *)

Lemma nth_flat_map_block {A B} (f : A -> list B) (l : list A) (n : nat) (d : B) (a0 : A) :
  (forall x, length (f x) = n) ->
  forall b j, (b < length l)%nat -> (j < n)%nat ->
  nth (b * n + j) (flat_map f l) d = nth j (f (nth b l a0)) d.
Proof.
  intros Hf. induction l as [|x l IH]; intros b j Hb Hj; [simpl in Hb; lia |].
  cbn [flat_map]. destruct b as [|b].
  - cbn [Nat.mul Nat.add nth]. apply app_nth1. now rewrite Hf.
  - rewrite app_nth2 by (rewrite Hf; simpl; lia). rewrite Hf.
    replace (S b * n + j - n)%nat with (b * n + j)%nat by (simpl; lia).
    cbn [nth]. apply IH; [simpl in Hb; lia | exact Hj].
Qed.

Lemma length_flat_map_block {A B} (f : A -> list B) (l : list A) (n : nat) :
  (forall x, length (f x) = n) -> length (flat_map f l) = (length l * n)%nat.
Proof.
  intros Hf. induction l as [|x l IH]; [reflexivity |].
  cbn [flat_map length]. rewrite length_app, Hf, IH. simpl. lia.
Qed.

Lemma concat_repeat_flat_map {B} (row : list B) k :
  concat (repeat row k) = flat_map (fun _ : nat => row) (seq 0 k).
Proof.
  rewrite flat_map_concat_map. f_equal.
  generalize 0%nat. induction k as [|k IH]; intros s; [reflexivity |].
  cbn [repeat seq map]. f_equal. apply IH.
Qed.

Lemma nth_concat_repeat {B} (row : list B) k d b j :
  (b < k)%nat -> (j < length row)%nat ->
  nth (b * length row + j) (concat (repeat row k)) d = nth j row d.
Proof.
  intros Hb Hj. rewrite concat_repeat_flat_map.
  rewrite (nth_flat_map_block (fun _ : nat => row) (seq 0 k) (length row) d 0%nat);
    [reflexivity | reflexivity | now rewrite length_seq | exact Hj].
Qed.

Lemma block_index n k j' :
  (j' < k * n)%nat ->
  exists b j, (b < k)%nat /\ (j < n)%nat /\ j' = (b * n + j)%nat.
Proof.
  intros H. assert (Hn : n <> 0%nat) by (intros ->; lia).
  exists (j' / n)%nat, (j' mod n)%nat. split; [| split].
  - apply Nat.Div0.div_lt_upper_bound. lia.
  - now apply Nat.mod_upper_bound.
  - rewrite (Nat.div_mod_eq j' n) at 1. lia.
Qed.

(** The translations that [check_images] keeps. *)
Lemma image_coords_filter coords m :
  image_coords coords m
  = flat_map (fun v => map (fun v2 => vadd v2 v) coords)
             (filter (fun v => negb (vec_eqb v vzero)) m).
Proof.
  unfold image_coords. induction m as [|v m IH]; [reflexivity |].
  cbn [flat_map filter]. destruct (vec_eqb v vzero); cbn [negb app flat_map]; now rewrite IH.
Qed.

Lemma kept_translation P v :
  In v (filter (fun v => negb (vec_eqb v vzero)) (create_matrix P))
  <-> In v (create_matrix P) /\ v <> vzero.
Proof.
  rewrite filter_In. split; intros [H1 H2]; (split; [exact H1 |]).
  - intros ->. now rewrite vec_eqb_refl in H2.
  - destruct (vec_eqb v vzero) eqn:E; [| reflexivity].
    apply vec_eqb_eq in E. contradiction.
Qed.

Lemma two_elements {A} (l : list A) a b : In a l -> In b l -> a <> b -> (2 <= length l)%nat.
Proof.
  destruct l as [|x [|y l]]; simpl; intros Ha Hb Hab; [tauto | | lia].
  destruct Ha as [<- | []], Hb as [<- | []]. congruence.
Qed.

Lemma kept_translations_two P :
  pbc_nonzero P = true ->
  (2 <= length (filter (fun v => negb (vec_eqb v vzero)) (create_matrix P)))%nat.
Proof.
  intros HP.
  assert (H : exists u, In u (create_matrix P) /\ In (vneg u) (create_matrix P)
                        /\ u <> vzero /\ vneg u <> vzero /\ u <> vneg u).
  { destruct P as [[] p1 p2].
    - exists (mkVec 1 0 0). rewrite !create_matrix_In. cbn.
      replace (- 0) with 0 by ring.
      repeat split; auto 6 using offsets_zero; try (intros [= E]; lra).
    - destruct p1.
      + exists (mkVec 0 1 0). rewrite !create_matrix_In. cbn.
        replace (- 0) with 0 by ring.
        repeat split; auto 6 using offsets_zero; try (intros [= E]; lra).
      + destruct p2; [| discriminate].
        exists (mkVec 0 0 1). rewrite !create_matrix_In. cbn.
        replace (- 0) with 0 by ring.
        repeat split; auto 6; try (intros [= E]; lra). }
  destruct H as (u & H1 & H2 & N1 & N2 & N3).
  apply (two_elements _ u (vneg u)); [now apply kept_translation .. | exact N3].
Qed.

Lemma tols_table_shape get_tol species :
  length (tols_table get_tol species) = length species.
Proof. unfold tols_table. now rewrite length_map, length_seq. Qed.

Lemma tols_table_tiled get_tol species n k i b j :
  length species = n -> (i < n)%nat -> (b < k)%nat -> (j < n)%nat ->
  cell (np_tile (tols_table get_tol species) k) i (b * n + j)
  = get_tol (nth (Nat.min i j) species ""%string) (nth (Nat.max i j) species ""%string).
Proof.
  intros <- Hi Hb Hj. unfold cell, np_tile.
  rewrite (nth_map_in _ _ i []) by (now rewrite tols_table_shape).
  unfold tols_table. rewrite nth_map_seq by exact Hi.
  set (row := map _ (seq 0 (length species))).
  assert (Hrow : length row = length species)
    by (unfold row; now rewrite length_map, length_seq).
  rewrite <- Hrow at 1. rewrite nth_concat_repeat by (rewrite ?Hrow; assumption).
  unfold row. rewrite nth_map_seq by exact Hj.
  destruct (i <=? j)%nat eqn:E.
  - apply Nat.leb_le in E. now rewrite Nat.min_l, Nat.max_r by lia.
  - apply Nat.leb_gt in E. now rewrite Nat.min_r, Nat.max_l by lia.
Qed.

Lemma image_cell coords lattice P i j' :
  (i < length coords)%nat ->
  (j' < length (image_coords coords (create_matrix P)))%nat ->
  cell (distance_matrix coords (image_coords coords (create_matrix P)) lattice
          (mkPBC false false false)) i j'
  = vnorm (vsub (cart lattice (nth i coords vzero))
                (cart lattice (nth j' (image_coords coords (create_matrix P)) vzero))).
Proof. intros Hi Hj. now rewrite distance_matrix_cell_direct by assumption. Qed.

Lemma image_coords_length coords P :
  length (image_coords coords (create_matrix P))
  = (length (filter (fun v => negb (vec_eqb v vzero)) (create_matrix P)) * length coords)%nat.
Proof.
  rewrite image_coords_filter. apply length_flat_map_block.
  intros v. now rewrite length_map.
Qed.

Lemma image_coords_nth coords P b j :
  (b < length (filter (fun v => negb (vec_eqb v vzero)) (create_matrix P)))%nat ->
  (j < length coords)%nat ->
  nth (b * length coords + j) (image_coords coords (create_matrix P)) vzero
  = vadd (nth j coords vzero)
         (nth b (filter (fun v => negb (vec_eqb v vzero)) (create_matrix P)) vzero).
Proof.
  intros Hb Hj. rewrite image_coords_filter.
  rewrite (nth_flat_map_block _ _ (length coords) vzero vzero);
    [| intros v; now rewrite length_map | exact Hb | exact Hj].
  now rewrite (nth_map_in _ coords j vzero) by exact Hj.
Qed.

(** The cells of the matrix [dm]: the columns run over the translations
    kept and, for each of them, over the points. *)
Lemma image_cells coords lattice P (Q : nat -> nat -> R -> Prop) :
  (exists i j', (i < length coords)%nat
     /\ (j' < length (image_coords coords (create_matrix P)))%nat
     /\ exists b j, (b < length (filter (fun v => negb (vec_eqb v vzero)) (create_matrix P)))%nat
          /\ (j < length coords)%nat /\ j' = (b * length coords + j)%nat
          /\ Q i j (cell (distance_matrix coords (image_coords coords (create_matrix P))
                            lattice (mkPBC false false false)) i j'))
  <-> exists i j v, (i < length coords)%nat /\ (j < length coords)%nat
        /\ In v (create_matrix P) /\ v <> vzero
        /\ Q i j (vnorm (vsub (cart lattice (nth i coords vzero))
                              (cart lattice (vadd (nth j coords vzero) v)))).
Proof.
  set (nz := filter (fun v => negb (vec_eqb v vzero)) (create_matrix P)).
  split.
  - intros (i & j' & Hi & Hj' & b & j & Hb & Hj & -> & HQ).
    rewrite image_cell in HQ by assumption.
    rewrite image_coords_nth in HQ by assumption. fold nz in HQ.
    assert (Hin : In (nth b nz vzero) nz) by now apply nth_In.
    apply kept_translation in Hin as [Hin Hne].
    exists i, j, (nth b nz vzero). auto.
  - intros (i & j & v & Hi & Hj & Hin & Hne & HQ).
    assert (Hv : In v nz) by now apply kept_translation.
    apply (In_nth _ _ vzero) in Hv as (b & Hb & Ev).
    assert (Hj' : (b * length coords + j < length (image_coords coords (create_matrix P)))%nat).
    { rewrite image_coords_length. fold nz. nia. }
    exists i, (b * length coords + j)%nat. split; [exact Hi |]. split; [exact Hj' |].
    exists b, j. split; [exact Hb |]. split; [exact Hj |]. split; [reflexivity |].
    rewrite image_cell by assumption. rewrite image_coords_nth by assumption.
    fold nz. now rewrite Ev.
Qed.

Lemma check_images_tables coords species lattice P get_tol d_factor :
  pbc_nonzero P = true -> coords <> [] -> length species = length coords ->
  exists b, check_images coords species lattice P get_tol None d_factor = Some b
    /\ (b = false <->
        exists i j v, (i < length coords)%nat /\ (j < length coords)%nat
          /\ In v (create_matrix P) /\ v <> vzero
          /\ vnorm (vsub (cart lattice (nth i coords vzero))
                         (cart lattice (vadd (nth j coords vzero) v)))
             < get_tol (nth (Nat.min i j) species ""%string)
                       (nth (Nat.max i j) species ""%string)).
Proof.
  intros HP Hne Hlen. unfold check_images. rewrite HP. cbn [negb].
  destruct coords as [|c0 cs] eqn:Ec; [congruence |]. rewrite <- Ec in *. clear Hne.
  cbv zeta.
  set (nz := filter (fun v => negb (vec_eqb v vzero)) (create_matrix P)).
  assert (Hn : length coords <> 0%nat) by (rewrite Ec; discriminate).
  assert (Hnew : length (image_coords coords (create_matrix P))
                 = (length nz * length coords)%nat) by apply image_coords_length.
  rewrite Hnew, Hlen. rewrite Nat.div_mul by exact Hn.
  rewrite (Nat.mul_comm (length coords) (length nz)).
  destruct (any_less_same (length coords) (length nz * length coords)
              (distance_matrix coords (image_coords coords (create_matrix P)) lattice
                 (mkPBC false false false))
              (np_tile (tols_table get_tol species) (length nz))) as (b & -> & Hb).
  exists (negb b). split; [now destruct b |].
  rewrite negb_false_iff, Hb.
  rewrite <- (image_cells coords lattice P
                (fun i j x => x < get_tol (nth (Nat.min i j) species ""%string)
                                          (nth (Nat.max i j) species ""%string))).
  fold nz. split.
  - intros (i & j' & Hi & Hj' & H).
    destruct (block_index _ _ _ Hj') as (bk & j & Hbk & Hj & ->).
    exists i, (bk * length coords + j)%nat. split; [exact Hi |].
    split; [now rewrite Hnew |]. exists bk, j. repeat (split; [assumption || reflexivity |]).
    rewrite (tols_table_tiled _ _ _ _ _ _ _ Hlen) in H by assumption.
    exact H.
  - intros (i & j' & Hi & Hj' & bk & j & Hbk & Hj & -> & H).
    exists i, (bk * length coords + j)%nat. split; [exact Hi |].
    split; [now rewrite <- Hnew |].
    rewrite (tols_table_tiled _ _ _ _ _ _ _ Hlen) by assumption.
    exact H.
Qed.

Lemma check_images_override coords species lattice P get_tol tol d_factor :
  pbc_nonzero P = true -> coords <> [] ->
  exists b, check_images coords species lattice P get_tol (Some tol) d_factor = Some b
    /\ (b = false <->
        exists i j v, (i < length coords)%nat /\ (j < length coords)%nat
          /\ In v (create_matrix P) /\ v <> vzero
          /\ vnorm (vsub (cart lattice (nth i coords vzero))
                         (cart lattice (vadd (nth j coords vzero) v))) < tol).
Proof.
  intros HP Hne. unfold check_images. rewrite HP. cbn [negb].
  destruct coords as [|c0 cs] eqn:Ec; [congruence |]. rewrite <- Ec in *. clear Hne.
  cbv zeta.
  set (nz := filter (fun v => negb (vec_eqb v vzero)) (create_matrix P)).
  assert (Hnew : length (image_coords coords (create_matrix P))
                 = (length nz * length coords)%nat) by apply image_coords_length.
  set (dm := distance_matrix coords (image_coords coords (create_matrix P)) lattice
               (mkPBC false false false)).
  destruct (distance_matrix_shape coords (image_coords coords (create_matrix P)) lattice
              (mkPBC false false false)) as [Hrows Hcols]. fold dm in Hrows, Hcols.
  exists (negb (existsb (fun x => Np.ltb x tol) (concat dm))).
  split; [now destruct (existsb _ _) |].
  rewrite negb_false_iff, existsb_exists.
  rewrite <- (image_cells coords lattice P (fun _ _ x => x < tol)). fold nz dm.
  split.
  - intros (x & Hin & Hx). apply ltb_iff in Hx.
    apply (in_concat_cells dm _ _ Hrows Hcols) in Hin as (i & j' & Hi & Hj' & ->).
    pose proof Hj' as Hj2. rewrite Hnew in Hj2.
    destruct (block_index _ _ _ Hj2) as (bk & j & Hbk & Hj & ->).
    exists i, (bk * length coords + j)%nat. split; [exact Hi |]. split; [exact Hj' |].
    exists bk, j. auto.
  - intros (i & j' & Hi & Hj' & bk & j & Hbk & Hj & -> & H).
    exists (cell dm i (bk * length coords + j)). split; [| now apply ltb_iff].
    apply (in_concat_cells dm _ _ Hrows Hcols). eauto.
Qed.

(** With a periodic axis, a non-empty list of points and one species per
    point, [check_images] returns [False] exactly when some point [i] is
    closer than the tolerance of the pair to the image of some point [j]
    (possibly [i] itself) under a non-zero translation of
    [create_matrix(PBC)]; with an overriding [tol] the species play no
    part.  The points are not folded into the cell, and [d_factor] is
    not read. *)
Theorem check_images_spec (coords : list Vec3) (species : list Species)
  (lattice : option Mat3) (P : PBC) (get_tol : Species -> Species -> R)
  (tol d_factor d_factor' : R) :
  pbc_nonzero P = true -> coords <> [] ->
  (length species = length coords ->
   exists b, check_images coords species lattice P get_tol None d_factor = Some b
     /\ (b = false <->
         exists i j v, (i < length coords)%nat /\ (j < length coords)%nat
           /\ In v (create_matrix P) /\ v <> vzero
           /\ vnorm (vsub (cart lattice (nth i coords vzero))
                          (cart lattice (vadd (nth j coords vzero) v)))
              < get_tol (nth (Nat.min i j) species ""%string)
                        (nth (Nat.max i j) species ""%string)))
  /\ (exists b, check_images coords species lattice P get_tol (Some tol) d_factor = Some b
       /\ (b = false <->
           exists i j v, (i < length coords)%nat /\ (j < length coords)%nat
             /\ In v (create_matrix P) /\ v <> vzero
             /\ vnorm (vsub (cart lattice (nth i coords vzero))
                            (cart lattice (vadd (nth j coords vzero) v))) < tol))
  /\ (forall t, check_images coords species lattice P get_tol t d_factor
                = check_images coords species lattice P get_tol t d_factor').
Proof.
  intros HP Hne. split; [| split].
  - intros Hlen. now apply check_images_tables.
  - now apply check_images_override.
  - reflexivity.
Qed.

Lemma check_images_spec_witness :
  pbc_nonzero full_pbc = true /\ two_atoms <> []
  /\ exists b, check_images two_atoms two_carbons (Some eye3) full_pbc (fun _ _ => 1)
                 (Some 2) 1 = Some b.
Proof.
  assert (HP : pbc_nonzero full_pbc = true) by reflexivity.
  assert (Hne : two_atoms <> []) by discriminate.
  split; [exact HP |]. split; [exact Hne |].
  destruct (check_images_spec two_atoms two_carbons (Some eye3) full_pbc (fun _ _ => 1)
              2 1 1 HP Hne) as (_ & (b & Hb & _) & _).
  exists b. exact Hb.
Defined.

(** [check_images] outside its domain: without a periodic axis the answer
    is [True] whatever the points; with a periodic axis an empty list of
    points raises, and so does, when no [tol] is given, a list of species
    whose length differs from the number of points. *)
Theorem check_images_shapes (coords : list Vec3) (species : list Species)
  (lattice : option Mat3) (P : PBC) (get_tol : Species -> Species -> R)
  (tol : option R) (d_factor : R) :
  (pbc_nonzero P = false ->
   check_images coords species lattice P get_tol tol d_factor = Some true)
  /\ (pbc_nonzero P = true ->
      check_images [] species lattice P get_tol tol d_factor = None)
  /\ (pbc_nonzero P = true -> coords <> [] -> length species <> length coords ->
      check_images coords species lattice P get_tol None d_factor = None).
Proof.
  split; [| split].
  - intros HP. unfold check_images. now rewrite HP.
  - intros HP. unfold check_images. now rewrite HP.
  - intros HP Hne Hlen. unfold check_images. rewrite HP. cbn [negb].
    destruct coords as [|c0 cs] eqn:Ec; [congruence |]. rewrite <- Ec in *. clear Hne.
    cbv zeta.
    set (nz := filter (fun v => negb (vec_eqb v vzero)) (create_matrix P)).
    assert (Hn : length coords <> 0%nat) by (rewrite Ec; discriminate).
    assert (Hnew : length (image_coords coords (create_matrix P))
                   = (length nz * length coords)%nat) by apply image_coords_length.
    assert (Hk : (2 <= length nz)%nat) by now apply kept_translations_two.
    rewrite Hnew. rewrite Nat.div_mul by exact Hn.
    unfold any_less, broadcast_dim.
    destruct (length coords =? length species)%nat eqn:E0;
      [apply Nat.eqb_eq in E0; congruence |].
    destruct (length coords =? 1)%nat eqn:E1.
    + apply Nat.eqb_eq in E1.
      destruct (length nz * length coords =? length species * length nz)%nat eqn:E2;
        [apply Nat.eqb_eq in E2; nia |].
      destruct (length nz * length coords =? 1)%nat eqn:E3;
        [apply Nat.eqb_eq in E3; nia |].
      destruct (length species * length nz =? 1)%nat eqn:E4;
        [apply Nat.eqb_eq in E4; nia |]. reflexivity.
    + destruct (length species =? 1)%nat eqn:E5; [| reflexivity].
      apply Nat.eqb_eq in E5. apply Nat.eqb_neq in E1.
      destruct (length nz * length coords =? length species * length nz)%nat eqn:E2;
        [apply Nat.eqb_eq in E2; nia |].
      destruct (length nz * length coords =? 1)%nat eqn:E3;
        [apply Nat.eqb_eq in E3; nia |].
      destruct (length species * length nz =? 1)%nat eqn:E4;
        [apply Nat.eqb_eq in E4; nia |]. reflexivity.
Qed.

(** ** [rotate_vector]: which vectors the matrix carries over *)

Lemma rotvec_matrix_contract : from_rotvec_contract rotvec_matrix.
Proof.
  intros axis angle Hu Ha. unfold rotvec_matrix.
  assert (Hn : vnorm (vscale angle axis) = angle).
  { rewrite vnorm_scale, (vnorm_unit axis Hu), Rabs_right; lra. }
  rewrite Hn. destruct (Req_dec angle 0) as [-> | Hne].
  - rewrite eqb_true by reflexivity. symmetry. now apply aa2matrix_zero.
  - rewrite eqb_false by exact Hne.
    assert (Hnz : vdot (vscale angle axis) (vscale angle axis) <> 0).
    { unfold vdot in *. cbn [vscale vx vy vz].
      replace (angle * vx axis * (angle * vx axis) + angle * vy axis * (angle * vy axis)
               + angle * vz axis * (angle * vz axis))
        with (angle * angle * (vx axis * vx axis + vy axis * vy axis + vz axis * vz axis))
        by ring.
      rewrite Hu. nra. }
    rewrite (aa2matrix_normalized _ _ Hnz), Hn. f_equal.
    apply vec_ext; cbn [vdiv vscale vx vy vz]; now field.
Qed.

Lemma cross_norm a b :
  vdot (cross a b) (cross a b) = vdot a a * vdot b b - vdot a b * vdot a b.
Proof. unfold vdot, cross. cbn [vx vy vz]. ring. Qed.

Lemma cross_orthogonal a b : vdot (cross a b) a = 0.
Proof. unfold vdot, cross. cbn [vx vy vz]. ring. Qed.

Lemma cross_triple a b :
  cross (cross a b) a = vsub (vscale (vdot a a) b) (vscale (vdot a b) a).
Proof. unfold vdot, cross. apply vec_ext; cbn [vsub vscale vx vy vz]; ring. Qed.

(** The axis-angle matrix on a vector: Rodrigues' formula. *)
Lemma aa2matrix_apply u phi a :
  vdot u u = 1 ->
  dot_mv (aa2matrix u phi) a
  = vadd (vadd (vscale (cos phi) a) (vscale (sin phi) (cross u a)))
         (vscale ((1 - cos phi) * vdot u a) u)
  /\ dot_vm a (aa2matrix u phi)
     = vadd (vsub (vscale (cos phi) a) (vscale (sin phi) (cross u a)))
            (vscale ((1 - cos phi) * vdot u a) u).
Proof.
  intros Hu. rewrite (aa2matrix_unit u phi Hu). cbv zeta.
  split; apply vec_ext;
    unfold dot_mv, dot_vm, vdot, cross;
    cbn [vadd vsub vscale vx vy vz row0 row1 row2]; ring.
Qed.

Lemma vdot_vdiv a b n m :
  n <> 0 -> m <> 0 -> vdot (vdiv a n) (vdiv b m) = vdot a b / (n * m).
Proof. intros Hn Hm. unfold vdot. cbn [vdiv vx vy vz]. now field. Qed.

Lemma rotate_vector_normalized g deg r v1 v2 :
  vdot v1 v1 <> 0 -> vdot v2 v2 <> 0 ->
  rotate_vector g deg r v1 v2
  = rotate_vector g deg r (vdiv v1 (vnorm v1)) (vdiv v2 (vnorm v2)).
Proof.
  intros H1 H2. unfold rotate_vector.
  now rewrite !(vdiv_unit _ (vdiv_normalized _ H1)), !(vdiv_unit _ (vdiv_normalized _ H2)).
Qed.

Lemma not_close_one d rtol :
  0 <= rtol -> Np.isclose d 1 rtol Np.default_atol = false -> d <> 1.
Proof.
  intros Hr H ->. rewrite isclose_refl in H; [discriminate | exact Hr |].
  unfold Np.default_atol; lra.
Qed.

Lemma not_close_minus_one d rtol :
  0 <= rtol -> Np.isclose d (-1) rtol Np.default_atol = false -> d <> -1.
Proof.
  intros Hr H ->. rewrite isclose_refl in H; [discriminate | exact Hr |].
  unfold Np.default_atol; lra.
Qed.

Lemma isclose_tighter d x :
  Np.isclose d x (1 / 10000) Np.default_atol = false ->
  Np.isclose d x Np.default_rtol Np.default_atol = false.
Proof.
  intros H. destruct (Np.isclose d x Np.default_rtol Np.default_atol) eqn:E; [| reflexivity].
  apply isclose_iff in E. rewrite <- H. symmetry. apply isclose_iff.
  pose proof (Rabs_pos x). unfold Np.default_rtol in E. nra.
Qed.

Lemma vdot_combination c s k z d a b u :
  vdot (vadd (vadd (vscale c a) (vscale s (vscale k (vsub b (vscale d a))))) (vscale z u)) a
  = c * vdot a a + s * k * (vdot a b - d * vdot a a) + z * vdot u a.
Proof. unfold vdot. cbn [vadd vsub vscale vx vy vz]. ring. Qed.

(** Unit vectors whose dot product fails both collinearity tests. *)
Lemma rotate_unit g deg r a b :
  from_rotvec_contract g -> vdot a a = 1 -> vdot b b = 1 ->
  Np.isclose (vdot a b) 1 (1 / 10000) Np.default_atol = false ->
  Np.isclose (vdot a b) (-1) (1 / 10000) Np.default_atol = false ->
  rotate_vector g deg r a b
  = aa2matrix (cross a b) (acos (vdot a b) * sin (acos (vdot a b)))
  /\ (dot_mv (rotate_vector g deg r a b) a = b <-> vdot a b = 0)
  /\ (vdot a b = 0 -> dot_vm a (rotate_vector g deg r a b) = vneg b).
Proof.
  intros Hg Ha Hb C1 C2.
  set (d := vdot a b) in *.
  assert (Hd : -1 < d < 1).
  { pose proof (cauchy_schwarz a b) as CS. fold d in CS. rewrite Ha, Hb in CS.
    pose proof (not_close_one d (1 / 10000) ltac:(lra) C1).
    pose proof (not_close_minus_one d (1 / 10000) ltac:(lra) C2).
    split.
    - destruct (Rlt_dec (-1) d); [assumption |]. nra.
    - destruct (Rlt_dec d 1); [assumption |]. nra. }
  set (theta := acos d).
  pose proof (acos_bound d) as Hth. fold theta in Hth.
  assert (Hcos : cos theta = d) by (apply cos_acos; lra).
  assert (Hsc : sin theta * sin theta + cos theta * cos theta = 1) by apply sin_cos_unit.
  assert (Hs0 : 0 <= sin theta) by (apply sin_ge_0; lra).
  assert (Hs : 0 < sin theta).
  { destruct (Req_dec (sin theta) 0) as [E | E]; [| lra].
    rewrite E, Hcos in Hsc. nra. }
  assert (Hs1 : sin theta <= 1) by apply SIN_bound.
  assert (Hv3 : vdot (cross a b) (cross a b) = sin theta * sin theta).
  { rewrite cross_norm, Ha, Hb. fold d. rewrite <- Hcos. lra. }
  assert (Hn3 : vnorm (cross a b) = sin theta).
  { unfold vnorm. rewrite Hv3. apply sqrt_square. lra. }
  assert (Hnz : vdot (cross a b) (cross a b) <> 0) by (rewrite Hv3; nra).
  set (u := vdiv (cross a b) (vnorm (cross a b))).
  assert (Hu : vdot u u = 1) by now apply vdiv_normalized.
  assert (Hua : vdot u a = 0).
  { unfold u. rewrite Hn3. unfold vdot, vdiv, cross. cbn [vx vy vz]. field; lra. }
  assert (Hcr : cross u a = vscale (/ sin theta) (vsub b (vscale d a))).
  { unfold u. rewrite Hn3.
    transitivity (vscale (/ sin theta) (cross (cross a b) a)).
    - apply vec_ext; unfold cross, vdiv; cbn [vscale vx vy vz]; field; lra.
    - rewrite cross_triple, Ha. fold d. f_equal. vec_ring. }
  assert (HR : rotate_vector g deg r a b = aa2matrix u (theta * sin theta)).
  { unfold rotate_vector. rewrite !(vdiv_unit a Ha), !(vdiv_unit b Hb). cbv zeta.
    fold d. rewrite C1, C2.
    assert (Hang : angle deg a b true = theta).
    { unfold angle. cbv zeta. fold d.
      rewrite (isclose_tighter d 1 C1), (isclose_tighter d (-1) C2).
      rewrite (vnorm_unit a Ha), (vnorm_unit b Hb). unfold theta. f_equal. field. }
    rewrite Hang.
    replace (vscale theta (cross a b)) with (vscale (theta * sin theta) u).
    - apply Hg; [exact Hu | nra].
    - unfold u. rewrite Hn3. apply vec_ext; cbn [vscale vdiv vx vy vz]; field; lra. }
  split; [| split].
  - rewrite HR. unfold u. symmetry. now apply aa2matrix_normalized.
  - rewrite HR. destruct (aa2matrix_apply u (theta * sin theta) a Hu) as [E _].
    rewrite E, Hua, Hcr. clear E. split.
    + intros Hab.
      assert (Hc : cos (theta * sin theta) = d).
      { assert (E := f_equal (fun v => vdot v a) Hab). cbv beta in E.
        replace (vdot b a) with d in E by (unfold d, vdot; ring).
        rewrite vdot_combination, Ha, Hua in E. fold d in E. rewrite <- E. ring. }
      assert (Hphi : theta * sin theta = theta).
      { rewrite <- (acos_cos (theta * sin theta)) by (split; nra).
        now rewrite Hc. }
      assert (Ht0 : theta <> 0).
      { intros E0. rewrite E0, cos_0 in Hcos. lra. }
      assert (Hone : sin theta = 1) by nra.
      rewrite Hone, Hcos in Hsc. nra.
    + intros Hd0.
      assert (Hth2 : theta = PI / 2) by (unfold theta; rewrite Hd0; apply acos_0).
      rewrite Hth2, sin_PI2, Rmult_1_r, cos_PI2, sin_PI2, Hd0.
      apply vec_ext; cbn [vadd vsub vscale vx vy vz]; field.
  - intros Hd0. rewrite HR.
    destruct (aa2matrix_apply u (theta * sin theta) a Hu) as [_ E].
    rewrite E, Hua, Hcr. clear E.
    assert (Hth2 : theta = PI / 2) by (unfold theta; rewrite Hd0; apply acos_0).
    rewrite Hth2, sin_PI2, Rmult_1_r, cos_PI2, sin_PI2, Hd0.
    apply vec_ext; cbn [vadd vsub vscale vneg vx vy vz]; field.
Qed.

Lemma zero_not_close (x : R) :
  x = 1 \/ x = -1 -> Np.isclose 0 x (1 / 10000) Np.default_atol = false.
Proof.
  intros Hx. destruct (Np.isclose 0 x (1 / 10000) Np.default_atol) eqn:E; [| reflexivity].
  apply isclose_iff in E. unfold Np.default_atol in E.
  destruct Hx as [-> | ->].
  - replace (0 - 1) with (-1) in E by ring. rewrite Rabs_minus_one, Rabs_R1 in E. lra.
  - replace (0 - -1) with 1 in E by ring. rewrite Rabs_minus_one, Rabs_R1 in E. lra.
Qed.

(** For two vectors that fail both collinearity tests, with [theta] the
    angle between them, [rotate_vector] returns the rotation about their
    cross product by [theta * sin theta], the cross product of the
    normalised vectors being passed to scipy as it is; this matrix takes
    the normalised [v1] to the normalised [v2] exactly when the two
    vectors are perpendicular. *)
Theorem rotate_vector_angle (g : Vec3 -> Mat3) (deg : R) (r v1 v2 : Vec3) :
  from_rotvec_contract g -> vdot v1 v1 <> 0 -> vdot v2 v2 <> 0 ->
  let a := vdiv v1 (vnorm v1) in
  let b := vdiv v2 (vnorm v2) in
  Np.isclose (vdot a b) 1 (1 / 10000) Np.default_atol = false ->
  Np.isclose (vdot a b) (-1) (1 / 10000) Np.default_atol = false ->
  rotate_vector g deg r v1 v2
  = aa2matrix (cross a b) (acos (vdot a b) * sin (acos (vdot a b)))
  /\ (dot_mv (rotate_vector g deg r v1 v2) a = b <-> vdot v1 v2 = 0).
Proof.
  intros Hg H1 H2 a b C1 C2.
  pose proof (vnorm_pos v1 H1) as N1. pose proof (vnorm_pos v2 H2) as N2.
  rewrite (rotate_vector_normalized g deg r v1 v2 H1 H2). fold a b.
  destruct (rotate_unit g deg r a b Hg (vdiv_normalized v1 H1) (vdiv_normalized v2 H2) C1 C2)
    as (E & Hiff & _).
  split; [exact E |]. rewrite Hiff. unfold a, b. rewrite vdot_vdiv by lra.
  assert (Hp : 0 < vnorm v1 * vnorm v2) by nra.
  split; intros H.
  - apply (Rmult_eq_compat_r (vnorm v1 * vnorm v2)) in H.
    unfold Rdiv in H. rewrite Rmult_assoc, Rinv_l, Rmult_1_r, Rmult_0_l in H by lra. exact H.
  - rewrite H. unfold Rdiv. ring.
Qed.

Lemma rotate_vector_angle_witness :
  from_rotvec_contract rotvec_matrix
  /\ rotate_vector rotvec_matrix 1 vzero (mkVec 1 0 0) (mkVec 0 1 0)
     = aa2matrix (cross (vdiv (mkVec 1 0 0) (vnorm (mkVec 1 0 0)))
                        (vdiv (mkVec 0 1 0) (vnorm (mkVec 0 1 0))))
         (acos (vdot (vdiv (mkVec 1 0 0) (vnorm (mkVec 1 0 0)))
                     (vdiv (mkVec 0 1 0) (vnorm (mkVec 0 1 0))))
          * sin (acos (vdot (vdiv (mkVec 1 0 0) (vnorm (mkVec 1 0 0)))
                            (vdiv (mkVec 0 1 0) (vnorm (mkVec 0 1 0)))))).
Proof.
  split; [exact rotvec_matrix_contract |].
  assert (H1 : vdot (mkVec 1 0 0) (mkVec 1 0 0) <> 0) by (unfold vdot; simpl; lra).
  assert (H2 : vdot (mkVec 0 1 0) (mkVec 0 1 0) <> 0) by (unfold vdot; simpl; lra).
  assert (Hd : vdot (vdiv (mkVec 1 0 0) (vnorm (mkVec 1 0 0)))
                    (vdiv (mkVec 0 1 0) (vnorm (mkVec 0 1 0))) = 0)
    by (unfold vdot, vdiv, Rdiv; cbn [vx vy vz]; ring).
  apply (rotate_vector_angle rotvec_matrix 1 vzero (mkVec 1 0 0) (mkVec 0 1 0)
           rotvec_matrix_contract H1 H2).
  - rewrite Hd. apply zero_not_close. now left.
  - rewrite Hd. apply zero_not_close. now right.
Defined.

(** Where [rotate_vector] does what its name says: for perpendicular
    vectors the returned matrix, applied to the normalised [v1] as a
    column, gives the normalised [v2], and applied with the vector first,
    as in [np.dot(v1, m)], gives its opposite; for [v2] a positive
    multiple of [v1] the matrix is the identity. *)
Theorem rotate_vector_cases (g : Vec3 -> Mat3) (deg : R) (r v1 v2 : Vec3) :
  from_rotvec_contract g -> vdot v1 v1 <> 0 -> vdot v2 v2 <> 0 ->
  let a := vdiv v1 (vnorm v1) in
  let b := vdiv v2 (vnorm v2) in
  (vdot v1 v2 = 0 ->
   dot_mv (rotate_vector g deg r v1 v2) a = b
   /\ dot_vm a (rotate_vector g deg r v1 v2) = vneg b)
  /\ (forall c, 0 < c -> v2 = vscale c v1 -> rotate_vector g deg r v1 v2 = eye3).
Proof.
  intros Hg H1 H2 a b.
  pose proof (vnorm_pos v1 H1) as N1. pose proof (vnorm_pos v2 H2) as N2.
  split.
  - intros H0.
    assert (Hd : vdot a b = 0).
    { unfold a, b. rewrite vdot_vdiv by lra. rewrite H0. unfold Rdiv. ring. }
    assert (C1 : Np.isclose (vdot a b) 1 (1 / 10000) Np.default_atol = false)
      by (rewrite Hd; apply zero_not_close; now left).
    assert (C2 : Np.isclose (vdot a b) (-1) (1 / 10000) Np.default_atol = false)
      by (rewrite Hd; apply zero_not_close; now right).
    rewrite (rotate_vector_normalized g deg r v1 v2 H1 H2). fold a b.
    destruct (rotate_unit g deg r a b Hg (vdiv_normalized v1 H1) (vdiv_normalized v2 H2)
                C1 C2) as (_ & Hiff & Hrow).
    split; [now apply Hiff | now apply Hrow].
  - intros c Hc ->. unfold rotate_vector. cbv zeta.
    rewrite vdot_vdiv by lra. rewrite vdot_scale_r, vnorm_scale, (Rabs_right c) by lra.
    rewrite <- (vnorm_sqr v1).
    replace (c * (vnorm v1 * vnorm v1) / (vnorm v1 * (c * vnorm v1))) with 1
      by (field; lra).
    rewrite isclose_refl; [reflexivity | lra | unfold Np.default_atol; lra].
Qed.

Lemma rotate_vector_cases_witness :
  from_rotvec_contract rotvec_matrix
  /\ vdot (mkVec 1 0 0) (mkVec 0 1 0) = 0
  /\ dot_mv (rotate_vector rotvec_matrix 1 vzero (mkVec 1 0 0) (mkVec 0 1 0))
            (vdiv (mkVec 1 0 0) (vnorm (mkVec 1 0 0)))
     = vdiv (mkVec 0 1 0) (vnorm (mkVec 0 1 0)).
Proof.
  split; [exact rotvec_matrix_contract |].
  assert (H1 : vdot (mkVec 1 0 0) (mkVec 1 0 0) <> 0) by (unfold vdot; simpl; lra).
  assert (H2 : vdot (mkVec 0 1 0) (mkVec 0 1 0) <> 0) by (unfold vdot; simpl; lra).
  assert (H0 : vdot (mkVec 1 0 0) (mkVec 0 1 0) = 0) by (unfold vdot; simpl; ring).
  split; [exact H0 |].
  exact (proj1 (proj1 (rotate_vector_cases rotvec_matrix 1 vzero (mkVec 1 0 0) (mkVec 0 1 0)
                         rotvec_matrix_contract H1 H2) H0)).
Defined.
